(** * Element Basket: entity update, collision, particle pools, game state

    A shallow embedding of the simulation core of [src/Playable/main.cpp]
    (classes [Basket], [Orb], [Particle], [ParticleSystem] and [Game]), the
    properties of it stated in the specification, and further properties
    of the code.

    Conventions of the embedding.

    - [float] and [double] values are elements of an abstract type [F] with
      the operations of the class [FloatOps]; no algebraic law is assumed of
      them, so every theorem stated over an arbitrary [F] holds whatever the
      rounding is.  The instance [Q_FloatOps] interprets them as exact
      rationals.
    - [int] values are [Z].  The only [unsigned int] arithmetic the core
      relies on, the conversion of [-1] and of [maxParticles] to
      [unsigned int], is written out with [mod 2^32].  The score is a C++
      [int]; signed overflow is undefined in C++ and the embedding keeps the
      mathematical integer.
    - Reads outside a [std::vector] and calls through a null pointer are
      undefined behaviour in C++; the embedding makes them explicit: an
      operation that would perform one returns [None].
    - The generators ([std::random_device], [std::mt19937], the
      distributions) and the clock ([glfwGetTime]) belong to the platform;
      they are the operations of the class [Platform], threaded through the
      code as explicit state.
    - The constructor of a distribution requires its lower bound not to be
      above its upper bound.  Where the bounds are constants of the source
      ([emit], [Orb::Orb]) or the half-size of an orb, which is [60 / 2] for
      every orb the program constructs ([Orb::update]), the requirement
      holds by inspection.  Where they depend on the width of the window
      ([spawnOrb]) the embedding tests it, and the construction is
      undefined when the test fails.
    - Rendering, texture and audio calls do not touch the simulated state and
      are left out.  Of [Game::draw] the layout of the score display is
      kept: the quads it draws, in order, as a list of [Sprite]s.
    - The moves of [src/Playable/Camera/camera.cpp] are embedded over
      [glm::normalize] and [glm::cross] as section variables; the
      rotations, which go through [glm::rotate], are left out. *)

From Stdlib Require Import ZArith QArith Qabs Qminmax Lia Lqa.
From Stdlib Require Ascii String DecimalString DecimalN.
From stdpp Require Import base option list.

Open Scope Z_scope.

(** ** Numbers *)

Class FloatOps (F : Type) := {
  f_lit : Q -> F;          (* a decimal literal, e.g. [0.05f] *)
  f_of_int : Z -> F;       (* [static_cast<float>(n)] *)
  f_add : F -> F -> F;
  f_sub : F -> F -> F;
  f_mul : F -> F -> F;
  f_div : F -> F -> F;
  f_neg : F -> F;
  f_abs : F -> F;          (* [fabs] *)
  f_sin : F -> F;          (* [sin] *)
  f_le : F -> F -> bool;   (* [x <= y] *)
  f_lt : F -> F -> bool    (* [x < y] *)
}.

Arguments f_lit {F _} _%_Q.

Declare Scope float_scope.
Delimit Scope float_scope with F.
Infix "+" := f_add : float_scope.
Infix "-" := f_sub : float_scope.
Infix "*" := f_mul : float_scope.
Infix "/" := f_div : float_scope.
Notation "- x" := (f_neg x) : float_scope.
Notation "x <=? y" := (f_le x y) : float_scope.
Notation "x <? y" := (f_lt x y) : float_scope.
Notation "x >=? y" := (f_le y x) : float_scope.
Notation "x >? y" := (f_lt y x) : float_scope.

(** ** The platform: random generators and the clock *)

Class Platform (F Rng Env : Type) := {
  (* [std::random_device rd; std::mt19937 gen(rd());] *)
  random_device : Env -> Rng * Env;
  (* [std::uniform_real_distribution<float> d(a, b); d(gen)] *)
  uniform_real : F -> F -> Rng -> F * Rng;
  (* [std::uniform_int_distribution<int> d(a, b); d(gen)] *)
  uniform_int : Z -> Z -> Rng -> Z * Rng;
  (* the value of a [uniform_int_distribution] lies in its closed range *)
  uniform_int_range : forall a b g, a <= b -> a <= fst (uniform_int a b g) <= b;
  (* [glfwGetTime()] *)
  glfwGetTime : Env -> F * Env
}.

(** ** Enumerations *)

(** [enum ElementType { EARTH = 0, WATER, FIRE, AIR, NUM_ELEMENT_TYPES }] is
    an unscoped enumeration: a value of the type is an integer, and the code
    itself converts integers to it with [static_cast]. *)
Definition ElementType := Z.
Definition EARTH : ElementType := 0.
Definition WATER : ElementType := 1.
Definition FIRE : ElementType := 2.
Definition AIR : ElementType := 3.
Definition NUM_ELEMENT_TYPES : Z := 4.

Inductive GameState := RUNNING | GAME_OVER_WIN | GAME_OVER_LOSE.

Global Instance GameState_eq_dec : EqDecision GameState.
Proof. solve_decision. Defined.

(** [unsigned int] is 32 bits wide; [(unsigned int)n] for an [int] [n]. *)
Definition to_unsigned (n : Z) : Z := n mod 2 ^ 32.

(** ** An error and state monad for the effectful operations

    [M Env A] is a computation that reads and advances the platform state
    [Env] and either returns a value or runs into undefined behaviour
    ([None]). *)

Definition M (Env A : Type) : Type := Env -> option (A * Env).

Definition ret {Env A} (a : A) : M Env A := fun e => Some (a, e).

Definition bind {Env A B} (m : M Env A) (k : A -> M Env B) : M Env B :=
  fun e => match m e with
           | Some (a, e') => k a e'
           | None => None
           end.

(** lift a platform operation that cannot fail *)
Definition lift {Env A} (f : Env -> A * Env) : M Env A := fun e => Some (f e).

(** lift a partial pure result *)
Definition of_option {Env A} (o : option A) : M Env A :=
  fun e => match o with Some a => Some (a, e) | None => None end.

(** a step whose precondition is violated: undefined behaviour *)
Definition undefined {Env A} : M Env A := fun _ => None.

Notation "'do' x <- m ; k" := (bind m (fun x => k))
  (at level 10, x name, m at level 100, k at level 200,
   format "'[v' 'do'  x  <-  m ; '/' k ']'").
Notation "'do' ' p <- m ; k" := (bind m (fun pat => match pat with p => k end))
  (at level 10, p pattern, m at level 100, k at level 200,
   format "'[v' 'do'  ' p  <-  m ; '/' k ']'").

Section Model.

Context {F Rng Env : Type} {FO : FloatOps F} {PF : Platform F Rng Env}.

Local Open Scope float_scope.

(** ** Vectors ([glm::vec3], [glm::vec4]) *)

Record vec3 := Vec3 { vx : F; vy : F; vz : F }.
Record vec4 := Vec4 { cr : F; cg : F; cb : F; ca : F }.

Definition vec3_add (a b : vec3) : vec3 :=
  Vec3 (vx a + vx b) (vy a + vy b) (vz a + vz b).
Definition vec3_scale (a : vec3) (k : F) : vec3 :=
  Vec3 (vx a * k) (vy a * k) (vz a * k).

Definition set_vx (x : F) (v : vec3) : vec3 := Vec3 x (vy v) (vz v).
Definition set_vy (y : F) (v : vec3) : vec3 := Vec3 (vx v) y (vz v).

(** ** Particles and the particle pool *)

Record Particle := mkParticle {
  p_position : vec3;
  p_velocity : vec3;
  p_color : vec4;
  p_life : F;
  p_duration : F;
  p_size : F;
  p_active : bool
}.

(** [Particle::Particle()] *)
Definition Particle_default : Particle :=
  mkParticle (Vec3 (f_lit 0) (f_lit 0) (f_lit 0))
             (Vec3 (f_lit 0) (f_lit 0) (f_lit 0))
             (Vec4 (f_lit 1) (f_lit 1) (f_lit 1) (f_lit 1))
             (f_lit 0) (f_lit 0) (f_lit 1) false.

Record ParticleSystem := mkParticleSystem {
  particles : list Particle;
  lastUsedParticle : Z;      (* [unsigned int] *)
  maxParticles : Z           (* [int] *)
}.

(** [ParticleSystem::ParticleSystem(maxParticles, texturePath)]:
    [particles.resize(maxParticles)], [lastUsedParticle(0)]. *)
Definition ParticleSystem_new (maxP : Z) : ParticleSystem :=
  mkParticleSystem (replicate (Z.to_nat maxP) Particle_default) 0 maxP.

Definition set_lastUsedParticle (i : Z) (ps : ParticleSystem) : ParticleSystem :=
  mkParticleSystem (particles ps) i (maxParticles ps).
Definition set_particles (l : list Particle) (ps : ParticleSystem) : ParticleSystem :=
  mkParticleSystem l (lastUsedParticle ps) (maxParticles ps).

(** [v[i]] on a [std::vector]: defined only for [0 <= i < v.size()]. *)
Definition vector_at {A} (v : list A) (i : Z) : option A :=
  if (i <? 0)%Z then None else v !! Z.to_nat i.

(** One loop of [findUnusedParticle]:
    [for (unsigned int i = start; i < bound; ++i)
       if (!particles[i].active) return i;]
    run for [n = bound - start] iterations.  [Some (Some i)]: the loop
    returned [i]; [Some None]: it ran to its end; [None]: it read outside
    the vector. *)
Fixpoint scan (l : list Particle) (i : Z) (n : nat) : option (option Z) :=
  match n with
  | O => Some None
  | S n' =>
      match vector_at l i with
      | None => None
      | Some p => if p_active p then scan l (i + 1)%Z n' else Some (Some i)
      end
  end.

(** [unsigned int ParticleSystem::findUnusedParticle()].  The result of
    [return -1] is [(unsigned int)-1]. *)
Definition findUnusedParticle (ps : ParticleSystem)
  : option (Z * ParticleSystem) :=
  let bound := to_unsigned (maxParticles ps) in
  match scan (particles ps) (lastUsedParticle ps)
             (Z.to_nat (bound - lastUsedParticle ps)) with
  | None => None
  | Some (Some i) => Some (i, set_lastUsedParticle i ps)
  | Some None =>
      match scan (particles ps) 0 (Z.to_nat (lastUsedParticle ps)) with
      | None => None
      | Some (Some i) => Some (i, set_lastUsedParticle i ps)
      | Some None => Some (to_unsigned (-1), ps)
      end
  end.

(** The distributions of [emit], drawn from the generator local to the
    call. *)
Definition velDist : M Rng F := lift (uniform_real (- f_lit 1) (f_lit 1)).
Definition lifeDist : M Rng F := lift (uniform_real (f_lit 0.5) (f_lit 1.5)).
Definition sizeDist : M Rng F := lift (uniform_real (f_lit 15) (f_lit 25)).

(** The body of the [if (particleIdx != (unsigned int)-1)] of [emit]: the
    slot [p] is re-initialised.  The two [velDist(gen)] arguments of a
    [glm::vec3] are drawn left to right. *)
Definition init_particle (position : vec3) (type : ElementType) (p : Particle)
  : M Rng Particle :=
  do duration <- lifeDist;
  do size <- sizeDist;
  let q c v s := mkParticle position v c (f_lit 0) duration s true in
  if (type =? EARTH)%Z then
    do a <- velDist; do b <- velDist;
    ret (q (Vec4 (f_lit 0.4) (f_lit 0.2) (f_lit 0) (f_lit 1))
           (Vec3 (a * f_lit 30) (b * f_lit 30 - f_lit 20) (f_lit 0)) size)
  else if (type =? WATER)%Z then
    do a <- velDist; do b <- velDist;
    ret (q (Vec4 (f_lit 0.5) (f_lit 0.7) (f_lit 1) (f_lit 1))
           (Vec3 (a * f_lit 40) (b * f_lit 40 + f_lit 10) (f_lit 0)) size)
  else if (type =? FIRE)%Z then
    do a <- velDist; do b <- velDist;
    ret (q (Vec4 (f_lit 1) (f_lit 0.5) (f_lit 0) (f_lit 1))
           (Vec3 (a * f_lit 60) (f_abs b * f_lit 80 + f_lit 20) (f_lit 0)) size)
  else if (type =? AIR)%Z then
    do a <- velDist; do b <- velDist;
    do size' <- sizeDist;
    ret (q (Vec4 (f_lit 0.8) (f_lit 0.9) (f_lit 1) (f_lit 1))
           (Vec3 (a * f_lit 70) (b * f_lit 70) (f_lit 0)) (size' * f_lit 1.2))
  else
    ret (q (Vec4 (f_lit 1) (f_lit 1) (f_lit 1) (f_lit 1)) (p_velocity p) size).

(** One iteration of the [for] loop of [emit]. *)
Definition emit_one (position : vec3) (type : ElementType)
    (ps : ParticleSystem) : M Rng ParticleSystem :=
  do '(particleIdx, ps1) <- of_option (findUnusedParticle ps);
  if negb (particleIdx =? to_unsigned (-1))%Z then
    do p <- of_option (vector_at (particles ps1) particleIdx);
    do p' <- init_particle position type p;
    ret (set_particles (<[Z.to_nat particleIdx := p']> (particles ps1)) ps1)
  else ret ps1.

(** [for (int i = 0; i < count; ++i) ...], [n] iterations. *)
Fixpoint emit_loop (position : vec3) (type : ElementType) (n : nat)
    (ps : ParticleSystem) : M Rng ParticleSystem :=
  match n with
  | O => ret ps
  | S n' => do ps1 <- emit_one position type ps;
            emit_loop position type n' ps1
  end.

(** Run a computation on a generator freshly seeded from the entropy device
    and drop the generator afterwards. *)
Definition with_fresh_gen {A} (m : M Rng A) : M Env A :=
  do gen <- lift random_device;
  of_option (fst <$> m gen).

(** [void ParticleSystem::emit(position, count, type)] *)
Definition emit (position : vec3) (count : Z) (type : ElementType)
    (ps : ParticleSystem) : M Env ParticleSystem :=
  with_fresh_gen (emit_loop position type (Z.to_nat count) ps).

(** The body of the loop of [ParticleSystem::update]. *)
Definition Particle_update (deltaTime : F) (p : Particle) : Particle :=
  if p_active p then
    let life := p_life p + deltaTime in
    if life >? p_duration p then
      mkParticle (p_position p) (p_velocity p) (p_color p) life
                 (p_duration p) (p_size p) false
    else
      mkParticle (vec3_add (p_position p) (vec3_scale (p_velocity p) deltaTime))
                 (vec3_scale (p_velocity p) (f_lit 1 - f_lit 0.5 * deltaTime))
                 (p_color p) life (p_duration p) (p_size p) true
  else p.

(** [void ParticleSystem::update(deltaTime, cameraPos)] *)
Definition ParticleSystem_update (deltaTime : F) (ps : ParticleSystem)
  : ParticleSystem :=
  set_particles (Particle_update deltaTime <$> particles ps) ps.

(** The number of active slots of a pool. *)
Definition active_count (ps : ParticleSystem) : nat :=
  length (List.filter p_active (particles ps)).

(** ** Entities *)

(** The simulated part of [class Basket : public GameObject]. *)
Record Basket := mkBasket {
  b_position : vec3;
  b_scale : vec3;
  currentType : ElementType;
  b_speed : F;
  b_width : F;
  b_height : F
}.

(** [Basket::Basket(x, y, w, h, s)] *)
Definition Basket_new (x y w h s : F) : Basket :=
  mkBasket (Vec3 x y (f_lit 0)) (Vec3 w h (f_lit 1)) EARTH s w h.

Definition b_setPosition (pos : vec3) (b : Basket) : Basket :=
  mkBasket pos (b_scale b) (currentType b) (b_speed b) (b_width b) (b_height b).
Definition setType (t : ElementType) (b : Basket) : Basket :=
  mkBasket (b_position b) (b_scale b) t (b_speed b) (b_width b) (b_height b).

Definition b_getLeft (b : Basket) : F := vx (b_position b) - b_width b / f_lit 2.
Definition b_getRight (b : Basket) : F := vx (b_position b) + b_width b / f_lit 2.
Definition b_getBottom (b : Basket) : F := vy (b_position b) - b_height b / f_lit 2.
Definition b_getTop (b : Basket) : F := vy (b_position b) + b_height b / f_lit 2.

(** [void Basket::moveLeft(float deltaTime)] *)
Definition moveLeft (deltaTime : F) (b : Basket) : Basket :=
  b_setPosition (set_vx (vx (b_position b) - b_speed b * deltaTime) (b_position b)) b.

(** [void Basket::moveRight(float deltaTime)] *)
Definition moveRight (deltaTime : F) (b : Basket) : Basket :=
  b_setPosition (set_vx (vx (b_position b) + b_speed b * deltaTime) (b_position b)) b.

(** [void Basket::changeType(int direction)]; [%] of C++ truncates
    towards zero ([Z.rem]). *)
Definition changeType (direction : Z) (b : Basket) : Basket :=
  setType (Z.rem (currentType b + direction + NUM_ELEMENT_TYPES)
                 NUM_ELEMENT_TYPES) b.

(** The simulated part of [class Orb : public GameObject]. *)
Record Orb := mkOrb {
  o_position : vec3;
  o_scale : vec3;
  o_type : ElementType;
  fallSpeed : F;
  o_width : F;
  o_height : F;
  m_zigzagAmplitude : F;
  m_zigzagFrequency : F;
  m_initialX : F;
  m_zigzagPhaseOffset : F;
  m_particleEmitTimer : F;
  m_particleEmitInterval : F
}.

(** [M_PI] of [<cmath>] *)
Definition M_PI : F := f_lit 3.14159265358979323846.

(** [Orb::Orb(x, y, w, h, t, speed)] *)
Definition Orb_new (x y w h : F) (t : ElementType) (speed : F) : M Env Orb :=
  with_fresh_gen (
    do amp <- lift (uniform_real (f_lit 20) (f_lit 60));
    do freq <- lift (uniform_real (f_lit 0.8) (f_lit 5));
    do phase <- lift (uniform_real (f_lit 0) (f_lit 4 * M_PI));
    ret (mkOrb (Vec3 x y (f_lit 0)) (Vec3 w h (f_lit 1)) t speed w h
               amp freq x phase (f_lit 0) (f_lit 0.05))).

Definition o_setPosition (pos : vec3) (o : Orb) : Orb :=
  mkOrb pos (o_scale o) (o_type o) (fallSpeed o) (o_width o) (o_height o)
        (m_zigzagAmplitude o) (m_zigzagFrequency o) (m_initialX o)
        (m_zigzagPhaseOffset o) (m_particleEmitTimer o)
        (m_particleEmitInterval o).
Definition set_particleEmitTimer (t : F) (o : Orb) : Orb :=
  mkOrb (o_position o) (o_scale o) (o_type o) (fallSpeed o) (o_width o)
        (o_height o) (m_zigzagAmplitude o) (m_zigzagFrequency o)
        (m_initialX o) (m_zigzagPhaseOffset o) t (m_particleEmitInterval o).

(** [bool Orb::isOffScreen(float screenBottomY) const] *)
Definition isOffScreen (screenBottomY : F) (o : Orb) : bool :=
  vy (o_position o) + o_height o / f_lit 2 <? screenBottomY.

Definition o_getLeft (o : Orb) : F := vx (o_position o) - o_width o / f_lit 2.
Definition o_getBottom (o : Orb) : F := vy (o_position o) - o_height o / f_lit 2.

(** ** The game *)

(** The simulated members of [class Game]. *)
Record Game := mkGame {
  screenWidth : Z;
  screenHeight : Z;
  score : Z;
  playerBasket : Basket;
  fallingOrbs : list Orb;
  particleSystems : list ParticleSystem;
  orbSpawnTimer : F;
  orbSpawnInterval : F;
  orbFallSpeed : F;
  basketBottomMargin : F;
  rng : Rng;
  m_lastDestroyedOrbColor : vec4;
  m_currentState : GameState
}.

Definition set_screen (w h : Z) (g : Game) : Game :=
  mkGame w h (score g) (playerBasket g) (fallingOrbs g) (particleSystems g)
         (orbSpawnTimer g) (orbSpawnInterval g) (orbFallSpeed g)
         (basketBottomMargin g) (rng g) (m_lastDestroyedOrbColor g)
         (m_currentState g).
Definition set_score (s : Z) (g : Game) : Game :=
  mkGame (screenWidth g) (screenHeight g) s (playerBasket g) (fallingOrbs g)
         (particleSystems g) (orbSpawnTimer g) (orbSpawnInterval g)
         (orbFallSpeed g) (basketBottomMargin g) (rng g)
         (m_lastDestroyedOrbColor g) (m_currentState g).
Definition set_playerBasket (b : Basket) (g : Game) : Game :=
  mkGame (screenWidth g) (screenHeight g) (score g) b (fallingOrbs g)
         (particleSystems g) (orbSpawnTimer g) (orbSpawnInterval g)
         (orbFallSpeed g) (basketBottomMargin g) (rng g)
         (m_lastDestroyedOrbColor g) (m_currentState g).
Definition set_fallingOrbs (l : list Orb) (g : Game) : Game :=
  mkGame (screenWidth g) (screenHeight g) (score g) (playerBasket g) l
         (particleSystems g) (orbSpawnTimer g) (orbSpawnInterval g)
         (orbFallSpeed g) (basketBottomMargin g) (rng g)
         (m_lastDestroyedOrbColor g) (m_currentState g).
Definition set_particleSystems (l : list ParticleSystem) (g : Game) : Game :=
  mkGame (screenWidth g) (screenHeight g) (score g) (playerBasket g)
         (fallingOrbs g) l (orbSpawnTimer g) (orbSpawnInterval g)
         (orbFallSpeed g) (basketBottomMargin g) (rng g)
         (m_lastDestroyedOrbColor g) (m_currentState g).
Definition set_orbSpawnTimer (t : F) (g : Game) : Game :=
  mkGame (screenWidth g) (screenHeight g) (score g) (playerBasket g)
         (fallingOrbs g) (particleSystems g) t (orbSpawnInterval g)
         (orbFallSpeed g) (basketBottomMargin g) (rng g)
         (m_lastDestroyedOrbColor g) (m_currentState g).
Definition set_rng (r : Rng) (g : Game) : Game :=
  mkGame (screenWidth g) (screenHeight g) (score g) (playerBasket g)
         (fallingOrbs g) (particleSystems g) (orbSpawnTimer g)
         (orbSpawnInterval g) (orbFallSpeed g) (basketBottomMargin g) r
         (m_lastDestroyedOrbColor g) (m_currentState g).
Definition set_lastDestroyedOrbColor (c : vec4) (g : Game) : Game :=
  mkGame (screenWidth g) (screenHeight g) (score g) (playerBasket g)
         (fallingOrbs g) (particleSystems g) (orbSpawnTimer g)
         (orbSpawnInterval g) (orbFallSpeed g) (basketBottomMargin g) (rng g)
         c (m_currentState g).
Definition set_currentState (s : GameState) (g : Game) : Game :=
  mkGame (screenWidth g) (screenHeight g) (score g) (playerBasket g)
         (fallingOrbs g) (particleSystems g) (orbSpawnTimer g)
         (orbSpawnInterval g) (orbFallSpeed g) (basketBottomMargin g) (rng g)
         (m_lastDestroyedOrbColor g) s.

(** The vertical position the constructor and [resetGame] give the basket:
    [-(static_cast<float>(screenHeight) / 2.0f) + (60.0f / 2.0f)
     + basketBottomMargin]. *)
Definition basket_home_y (screenHeight : Z) (basketBottomMargin : F) : F :=
  - (f_of_int screenHeight / f_lit 2) + (f_lit 60 / f_lit 2)
  + basketBottomMargin.

(** [Game::Game(int width, int height)] *)
Definition Game_new (width height : Z) : M Env Game :=
  do gen <- lift random_device;
  let basketBottomMargin := f_lit 30 in
  let basketY := basket_home_y height basketBottomMargin in
  ret (mkGame width height 0
         (Basket_new (f_lit 0) basketY (f_lit 120) (f_lit 60) (f_lit 300))
         []
         [ParticleSystem_new 500; ParticleSystem_new 500;
          ParticleSystem_new 500; ParticleSystem_new 500]
         (f_lit 0) (f_lit 1.5) (f_lit 100) basketBottomMargin gen
         (Vec4 (f_lit 1) (f_lit 1) (f_lit 1) (f_lit 1)) RUNNING).

(** [glm::vec4 Game::getOrbColor(ElementType type) const] *)
Definition getOrbColor (type : ElementType) : vec4 :=
  if (type =? EARTH)%Z then Vec4 (f_lit 0.6) (f_lit 0.4) (f_lit 0.2) (f_lit 1)
  else if (type =? WATER)%Z then Vec4 (f_lit 0.2) (f_lit 0.4) (f_lit 0.8) (f_lit 1)
  else if (type =? FIRE)%Z then Vec4 (f_lit 0.8) (f_lit 0.2) (f_lit 0.2) (f_lit 1)
  else if (type =? AIR)%Z then Vec4 (f_lit 0.7) (f_lit 0.9) (f_lit 1) (f_lit 1)
  else Vec4 (f_lit 1) (f_lit 1) (f_lit 1) (f_lit 1).

(** [ParticleSystem* Game::getParticleSystem(ElementType type)]; the
    null pointer is [None]. *)
Definition getParticleSystem (g : Game) (type : ElementType)
  : option ParticleSystem :=
  if ((type >=? 0) && (type <? NUM_ELEMENT_TYPES))%Z
  then vector_at (particleSystems g) type
  else None.

(** Write a pool back after a call through a pointer to it. *)
Definition store_particleSystem (type : ElementType) (ps : ParticleSystem)
    (g : Game) : Game :=
  set_particleSystems (<[Z.to_nat type := ps]> (particleSystems g)) g.

(** [bool Game::checkAABBCollision(x1, y1, w1, h1, x2, y2, w2, h2)] *)
Definition checkAABBCollision (x1 y1 w1 h1 x2 y2 w2 h2 : F) : bool :=
  let collisionX := (x1 + w1 >=? x2) && (x2 + w2 >=? x1) in
  let collisionY := (y1 + h1 >=? y2) && (y2 + h2 >=? y1) in
  collisionX && collisionY.

(** [void Orb::update(float deltaTime, Game* gameInstance)].  The
    only [Game] of the program is [g]; [gameInstance] tells whether the
    pointer argument is non-null, in which case it points to [g].  Calling
    [emit] through the null pointer that [getParticleSystem] may return is
    undefined. *)
Definition Orb_update (deltaTime : F) (gameInstance : bool) (o : Orb)
    (g : Game) : M Env (Orb * Game) :=
  let pos1 := set_vy (vy (o_position o) - fallSpeed o * deltaTime)
                     (o_position o) in
  do now <- lift glfwGetTime;
  let pos2 := set_vx (m_initialX o + m_zigzagAmplitude o
                        * f_sin (now * m_zigzagFrequency o
                                 + m_zigzagPhaseOffset o)) pos1 in
  let timer := m_particleEmitTimer o + deltaTime in
  let o1 := set_particleEmitTimer timer (o_setPosition pos2 o) in
  if timer >=? m_particleEmitInterval o then
    do g1 <- (if gameInstance then
                do '(dx, dy) <- with_fresh_gen (
                    do dx <- lift (uniform_real (- o_width o / f_lit 2)
                                                (o_width o / f_lit 2));
                    do dy <- lift (uniform_real (- o_height o / f_lit 2)
                                                (o_height o / f_lit 2));
                    ret (dx, dy));
                let emitPosition := vec3_add pos2 (Vec3 dx dy (f_lit 0)) in
                do ps <- of_option (getParticleSystem g (o_type o));
                do ps' <- emit emitPosition 1 (o_type o) ps;
                ret (store_particleSystem (o_type o) ps' g)
              else ret g);
    ret (set_particleEmitTimer (f_lit 0) o1, g1)
  else ret (o1, g).

(** [for (auto& orb : fallingOrbs) orb->update(deltaTime, this);] *)
Fixpoint update_orbs (deltaTime : F) (orbs : list Orb) (g : Game)
  : M Env (list Orb * Game) :=
  match orbs with
  | [] => ret ([], g)
  | orb :: rest =>
      do '(orb', g1) <- Orb_update deltaTime true orb g;
      do '(rest', g2) <- update_orbs deltaTime rest g1;
      ret (orb' :: rest', g2)
  end.

(** The [erase(remove_if(...))] pass of [Game::update]: the predicate is
    applied once to each orb, in order; it returns the orbs kept and the
    game after the side effects of the predicate. *)
Fixpoint remove_offscreen (orbs : list Orb) (g : Game) : list Orb * Game :=
  match orbs with
  | [] => ([], g)
  | orb :: rest =>
      if isOffScreen (- (f_of_int (screenHeight g) / f_lit 2)) orb then
        remove_offscreen rest
          (set_lastDestroyedOrbColor (getOrbColor (o_type orb))
             (set_score (score g - 2) g))
      else
        let '(kept, g1) := remove_offscreen rest g in (orb :: kept, g1)
  end.

(** The precondition of the constructor of [xDist] in [spawnOrb]:
    [std::uniform_real_distribution<float>(a, b)] requires [a <= b], and
    here the bounds are [-(screenWidth / 2) + 30] and
    [screenWidth / 2 - 30]. *)
Definition xDist_ok (screenWidth : Z) : bool :=
  let half := f_of_int screenWidth / f_lit 2 in
  - half + f_lit 30 <=? half - f_lit 30.

(** [void Game::spawnOrb()].  Constructing [xDist] with its lower bound
    above its upper bound is undefined. *)
Definition spawnOrb (g : Game) : M Env Game :=
  let half := f_of_int (screenWidth g) / f_lit 2 in
  if xDist_ok (screenWidth g) then
    let '(randomType, r1) :=
      uniform_int 0 (NUM_ELEMENT_TYPES - 1) (rng g) in
    let '(randomX, r2) :=
      uniform_real (- half + f_lit 30) (half - f_lit 30) r1 in
    let orbSize := f_lit 60 in
    do newOrb <- Orb_new randomX
                   (f_of_int (screenHeight g) / f_lit 2 + orbSize / f_lit 2)
                   orbSize orbSize randomType (orbFallSpeed g);
    ret (set_fallingOrbs (fallingOrbs g ++ [newOrb]) (set_rng r2 g))
  else undefined.

(** The collision test of [checkCollisions] between an orb and the basket. *)
Definition collides (basket : Basket) (orb : Orb) : bool :=
  checkAABBCollision
    (o_getLeft orb) (o_getBottom orb) (vx (o_scale orb)) (vy (o_scale orb))
    (b_getLeft basket) (b_getBottom basket)
    (vx (b_scale basket)) (vy (b_scale basket)).

(** [particleSystems[type]->emit(position, count, type)] *)
Definition emit_into (type : ElementType) (position : vec3) (count : Z)
    (g : Game) : M Env Game :=
  do ps <- of_option (vector_at (particleSystems g) type);
  do ps' <- emit position count type ps;
  ret (store_particleSystem type ps' g).

(** The body of the [if] of [checkCollisions]: what a collision does to the
    game, apart from erasing the orb. *)
Definition catch (basket : Basket) (orb : Orb) (g : Game) : M Env Game :=
  if (o_type orb =? currentType basket)%Z then
    emit_into (o_type orb) (o_position orb) 50
      (set_lastDestroyedOrbColor (getOrbColor (o_type orb))
         (set_score (score g + 5) g))
  else
    emit_into (o_type orb) (o_position orb) 20
      (set_lastDestroyedOrbColor (getOrbColor (o_type orb))
         (set_score (score g - 2) g)).

(** The loop of [checkCollisions] over the orbs from the iterator on: it
    returns the orbs that stay in the vector. *)
Fixpoint collide_loop (basket : Basket) (orbs : list Orb) (g : Game)
  : M Env (list Orb * Game) :=
  match orbs with
  | [] => ret ([], g)
  | orb :: rest =>
      if collides basket orb then
        do g1 <- catch basket orb g;
        collide_loop basket rest g1
      else
        do '(kept, g1) <- collide_loop basket rest g;
        ret (orb :: kept, g1)
  end.

(** [void Game::checkCollisions()] *)
Definition checkCollisions (g : Game) : M Env Game :=
  do '(kept, g1) <- collide_loop (playerBasket g) (fallingOrbs g) g;
  ret (set_fallingOrbs kept g1).

(** [for (auto& ps : particleSystems) ps->update(deltaTime, cameraPos);] *)
Definition update_pools (deltaTime : F) (g : Game) : Game :=
  set_particleSystems (ParticleSystem_update deltaTime <$> particleSystems g) g.

(** The two threshold tests that end the running branch of [Game::update]. *)
Definition check_thresholds (g : Game) : Game :=
  let g1 := if (score g <=? -5)%Z
            then set_fallingOrbs [] (set_currentState GAME_OVER_LOSE g)
            else g in
  if (score g1 >=? 100)%Z
  then set_fallingOrbs [] (set_currentState GAME_OVER_WIN g1)
  else g1.

(** The steps of the running branch of [Game::update], in order. *)
Definition advance_orbs (deltaTime : F) (g : Game) : M Env Game :=
  do '(orbs, g1) <- update_orbs deltaTime (fallingOrbs g) g;
  ret (set_fallingOrbs orbs g1).

Definition offscreen_pass (g : Game) : Game :=
  let '(kept, g1) := remove_offscreen (fallingOrbs g) g in
  set_fallingOrbs kept g1.

Definition spawn_step (deltaTime : F) (g : Game) : M Env Game :=
  let g1 := set_orbSpawnTimer (orbSpawnTimer g + deltaTime) g in
  if orbSpawnTimer g1 >=? orbSpawnInterval g1 then
    do g2 <- spawnOrb g1;
    ret (set_orbSpawnTimer (f_lit 0) g2)
  else ret g1.

(** [void Game::update(float deltaTime, const glm::vec3& cameraPos)];
    [cameraPos] is only handed to [ParticleSystem::update], which does not
    use it. *)
Definition Game_update (deltaTime : F) (g : Game) : M Env Game :=
  match m_currentState g with
  | RUNNING =>
      do g1 <- advance_orbs deltaTime g;
      let g2 := offscreen_pass g1 in
      do g3 <- spawn_step deltaTime g2;
      do g4 <- checkCollisions g3;
      let g5 := update_pools deltaTime g4 in
      ret (check_thresholds g5)
  | _ => ret (update_pools deltaTime g)
  end.

(** [void Game::resetGame()] *)
Definition resetGame (g : Game) : Game :=
  let g1 := set_score 0 g in
  let g2 := set_fallingOrbs [] g1 in
  let g3 := set_orbSpawnTimer (f_lit 0) g2 in
  let g4 := set_currentState RUNNING g3 in
  let g5 := set_lastDestroyedOrbColor
              (Vec4 (f_lit 1) (f_lit 1) (f_lit 1) (f_lit 1)) g4 in
  let g6 := set_playerBasket
              (b_setPosition
                 (Vec3 (f_lit 0)
                       (basket_home_y (screenHeight g5) (basketBottomMargin g5))
                       (f_lit 0))
                 (playerBasket g5)) g5 in
  set_playerBasket (setType EARTH (playerBasket g6)) g6.

(** The keys [Game::processInput] polls with [glfwGetKey]. *)
Record Keys := mkKeys { key_A : bool; key_D : bool; key_R : bool }.

(** [void Game::processInput(GLFWwindow* window, float deltaTime)] *)
Definition processInput (keys : Keys) (deltaTime : F) (g : Game) : Game :=
  match m_currentState g with
  | RUNNING =>
      let half := f_of_int (screenWidth g) / f_lit 2 in
      let g1 :=
        if key_A keys then
          let b := moveLeft deltaTime (playerBasket g) in
          let b := if b_getLeft b <? - half
                   then b_setPosition
                          (Vec3 (- half + vx (b_scale b) / f_lit 2)
                                (vy (b_position b)) (f_lit 0)) b
                   else b in
          set_playerBasket b g
        else g in
      if key_D keys then
        let b := moveRight deltaTime (playerBasket g1) in
        let b := if b_getRight b >? half
                 then b_setPosition
                        (Vec3 (half - vx (b_scale b) / f_lit 2)
                              (vy (b_position b)) (f_lit 0)) b
                 else b in
        set_playerBasket b g1
      else g1
  | _ => if key_R keys then resetGame g else g
  end.

(** [void Game::scrollCallback(double yoffset)] *)
Definition scrollCallback (yoffset : F) (g : Game) : Game :=
  match m_currentState g with
  | RUNNING =>
      if yoffset >? f_lit 0 then
        set_playerBasket (changeType 1 (playerBasket g)) g
      else if yoffset <? f_lit 0 then
        set_playerBasket (changeType (-1) (playerBasket g)) g
      else g
  | _ => g
  end.

(** [void Game::setScreenDimensions(int newWidth, int newHeight)] *)
Definition setScreenDimensions (newWidth newHeight : Z) (g : Game) : Game :=
  let g1 := set_screen newWidth newHeight g in
  let b := playerBasket g1 in
  let newBasketY := - (f_of_int (screenHeight g1) / f_lit 2)
                    + vy (b_scale b) / f_lit 2 + basketBottomMargin g1 in
  set_playerBasket
    (b_setPosition (Vec3 (vx (b_position b)) newBasketY (f_lit 0)) b) g1.

(** ** The operations the frame driver and the callbacks perform on a game *)

Inductive Op :=
| OpProcessInput (keys : Keys) (deltaTime : F)
| OpUpdate (deltaTime : F)
| OpScroll (yoffset : F)
| OpResize (newWidth newHeight : Z)
| OpReset.

Definition run_op (op : Op) (g : Game) : M Env Game :=
  match op with
  | OpProcessInput keys dt => ret (processInput keys dt g)
  | OpUpdate dt => Game_update dt g
  | OpScroll y => ret (scrollCallback y g)
  | OpResize w h => ret (setScreenDimensions w h g)
  | OpReset => ret (resetGame g)
  end.

Fixpoint run_ops (ops : list Op) (g : Game) : M Env Game :=
  match ops with
  | [] => ret g
  | op :: rest => do g1 <- run_op op g; run_ops rest g1
  end.

End Model.

(** ** Exact arithmetic and a concrete platform

    [Q_FloatOps sin] reads the arithmetic of the program over the rationals,
    without rounding, for any interpretation [sin] of the sine. *)

Definition Q_FloatOps (sin : Q -> Q) : FloatOps Q := {|
  f_lit := fun q => q;
  f_of_int := inject_Z;
  f_add := Qplus;
  f_sub := Qminus;
  f_mul := Qmult;
  f_div := Qdiv;
  f_neg := Qopp;
  f_abs := Qabs;
  f_sin := sin;
  f_le := Qle_bool;
  f_lt := fun x y => negb (Qle_bool y x)
|}.

(** A small deterministic platform on which the model runs: the generators
    are linear congruential, the clock advances by 1/60 at each reading. *)
Definition lcg_next (s : Z) : Z := (1103515245 * s + 12345) mod 2147483648.

Definition lcg_int (a b g : Z) : Z * Z := (a + g mod (b - a + 1), lcg_next g).

Definition lcg_int_range (a b g : Z) (Hab : a <= b)
  : a <= fst (lcg_int a b g) <= b.
Proof.
  unfold lcg_int; simpl.
  pose proof (Z.mod_pos_bound g (b - a + 1) ltac:(lia)). lia.
Defined.

Definition Sim_Platform : Platform Q Z (Z * Q)%type := {|
  random_device := fun e => (fst e, (lcg_next (fst e), snd e));
  uniform_real := fun a b g =>
    ((a + (b - a) * (inject_Z (g mod 1024) / 1024))%Q, lcg_next g);
  uniform_int := lcg_int;
  uniform_int_range := lcg_int_range;
  glfwGetTime := fun e => (snd e, (fst e, (snd e + (1 # 60))%Q))
|}.

(** The cubic Taylor polynomial of the sine, to run the model on. *)
Definition sin_approx (x : Q) : Q := (x - x * x * x / 6)%Q.

(** ** Definitions used to state the properties *)

Section SpecDefs.

Context {F Rng Env : Type} {FO : FloatOps F} {PF : Platform F Rng Env}.

(** [INT_MAX] *)
Definition INT_MAX : Z := 2 ^ 31 - 1.

(** Is slot [k] of the vector an active particle? *)
Definition is_active (l : list (@Particle F)) (k : Z) : bool :=
  match vector_at l k with
  | Some p => p_active p
  | None => false
  end.

(** A pool as its constructor leaves it and the operations keep it: the
    vector holds [maxParticles] slots and [lastUsedParticle] is an index
    into it (or 0 in an empty pool). *)
Definition ps_wf (ps : @ParticleSystem F) : Prop :=
  0 <= maxParticles ps <= INT_MAX /\
  length (particles ps) = Z.to_nat (maxParticles ps) /\
  0 <= lastUsedParticle ps <= maxParticles ps.

(** The first inactive slot met when the [m] slots are visited in cyclic
    order from [start]: [start mod m], [(start + 1) mod m], ... *)
Fixpoint cyclic_first_inactive_from (l : list (@Particle F)) (start m : Z)
    (d : Z) (n : nat) : option Z :=
  match n with
  | O => None
  | S n' =>
      let k := (start + d) mod m in
      if is_active l k then cyclic_first_inactive_from l start m (d + 1) n'
      else Some k
  end.

Definition cyclic_first_inactive (l : list (@Particle F)) (start m : Z)
  : option Z :=
  cyclic_first_inactive_from l start m 0 (Z.to_nat m).

(** The slot choice in the words of the specification: the scan starts at
    the index following the last slot that was activated and wraps around
    once. *)
Definition spec_slot_choice (ps : @ParticleSystem F) : option Z :=
  cyclic_first_inactive (particles ps) (lastUsedParticle ps + 1)
                        (maxParticles ps).

(** The slot choice of the code: the scan starts at the last slot that was
    activated itself. *)
Definition code_slot_choice (ps : @ParticleSystem F) : option Z :=
  cyclic_first_inactive (particles ps) (lastUsedParticle ps)
                        (maxParticles ps).

(** Operations on one pool. *)
Inductive PoolOp :=
| PEmit (position : @vec3 F) (count : Z) (type : ElementType)
| PAdvance (deltaTime : F).

Definition run_pool_op (op : PoolOp) (ps : @ParticleSystem F)
  : M Env ParticleSystem :=
  match op with
  | PEmit position count type => emit position count type ps
  | PAdvance dt => ret (ParticleSystem_update dt ps)
  end.

Fixpoint run_pool_ops (ops : list PoolOp) (ps : @ParticleSystem F)
  : M Env ParticleSystem :=
  match ops with
  | [] => ret ps
  | op :: rest => do ps1 <- run_pool_op op ps; run_pool_ops rest ps1
  end.

(** The values of [ElementType] that name an element. *)
Definition type_in_range (t : ElementType) : Prop :=
  0 <= t < NUM_ELEMENT_TYPES.

(** The pools as the constructor of [Game] leaves them: one well-formed
    pool per element. *)
Definition pools_wf (pools : list (@ParticleSystem F)) : Prop :=
  length pools = Z.to_nat NUM_ELEMENT_TYPES /\ Forall ps_wf pools.

(** The invariant of the game: the pools are in place and every
    [ElementType] held by an orb or by the basket names an element. *)
Definition game_wf (g : @Game F Rng) : Prop :=
  pools_wf (particleSystems g) /\
  Forall (fun o => type_in_range (o_type o)) (fallingOrbs g) /\
  type_in_range (currentType (playerBasket g)).

(** Is the spawn step of a frame with time step [dt] defined?  It is
    unless the timer reaches the interval in a window too narrow for the
    distribution of [spawnOrb]. *)
Definition spawn_defined (dt : F) (g : @Game F Rng) : bool :=
  negb (orbSpawnTimer g + dt >=? orbSpawnInterval g)%F
  || xDist_ok (screenWidth g).

(** An operation that leaves the window wide enough for [spawnOrb]. *)
Definition resize_ok (op : @Op F) : bool :=
  match op with
  | OpResize newWidth _ => xDist_ok newWidth
  | _ => true
  end.

(** Does the orb carry the element of the basket? *)
Definition matches (basket : @Basket F) (orb : @Orb F) : bool :=
  (o_type orb =? currentType basket)%Z.

(** The number of particles a catch asks for. *)
Definition burst_size (basket : @Basket F) (orb : @Orb F) : Z :=
  if matches basket orb then 50 else 20.

(** The emissions of a collision pass, one burst per caught orb, in the
    order of the orbs, each into the pool of the orb's element. *)
Fixpoint emit_bursts (basket : @Basket F) (caught : list (@Orb F))
    (pools : list (@ParticleSystem F)) : M Env (list ParticleSystem) :=
  match caught with
  | [] => ret pools
  | orb :: rest =>
      do ps <- of_option (vector_at pools (o_type orb));
      do ps' <- emit (o_position orb) (burst_size basket orb) (o_type orb) ps;
      emit_bursts basket rest (<[Z.to_nat (o_type orb) := ps']> pools)
  end.

(** The state the thresholds assign to a score. *)
Definition threshold_state (s : Z) : GameState :=
  if (s >=? 100)%Z then GAME_OVER_WIN
  else if (s <=? -5)%Z then GAME_OVER_LOSE
  else RUNNING.

(** Successive calls of [Orb::update] on one orb, one per time step. *)
Fixpoint advance_many (dts : list F) (gameInstance : bool) (o : @Orb F)
    (g : @Game F Rng) : M Env (Orb * Game) :=
  match dts with
  | [] => ret (o, g)
  | dt :: rest =>
      do '(o1, g1) <- Orb_update dt gameInstance o g;
      advance_many rest gameInstance o1 g1
  end.

End SpecDefs.

(** The sum of the time steps of a run. *)
Definition Qsum (l : list Q) : Q := fold_right Qplus 0%Q l.

(** ** Concrete inputs

    A pool, a basket, some orbs and a game over the exact arithmetic and
    the deterministic platform above, on which the properties below are
    instantiated. *)

Definition QF : FloatOps Q := Q_FloatOps sin_approx.

Definition env0 : Z * Q := (7, 0%Q).

Definition origin : @vec3 Q := Vec3 0%Q 0%Q 0%Q.

Definition small_pool : @ParticleSystem Q := ParticleSystem_new (FO:=QF) 2.

(** The basket where the constructor puts it in a 1024 x 768 window. *)
Definition sample_basket : @Basket Q :=
  Basket_new (FO:=QF) 0%Q (-324)%Q 120%Q 60%Q 300%Q.

Definition sample_orb (x y : Q) (t : ElementType) : @Orb Q :=
  mkOrb (Vec3 x y 0%Q) (Vec3 60%Q 60%Q 1%Q) t 100%Q 60%Q 60%Q
        30%Q 2%Q x 0%Q 0%Q 0.05%Q.

(** A running game with an orb of the basket's element on the basket, an
    orb of another element on the basket, an orb far from it and an orb
    below the window. *)
Definition sample_game : @Game Q Z :=
  mkGame 1024 768 0 sample_basket
         [sample_orb 0%Q (-324)%Q EARTH; sample_orb 10%Q (-300)%Q FIRE;
          sample_orb 300%Q 200%Q WATER; sample_orb 0%Q (-500)%Q AIR]
         [small_pool; small_pool; small_pool; small_pool]
         0%Q 1.5%Q 100%Q 30%Q 42 (Vec4 1%Q 1%Q 1%Q 1%Q) RUNNING.

(** A game two points above the losing threshold, with three orbs below the
    window. *)
Definition losing_game : @Game Q Z :=
  mkGame 1024 768 (-3) sample_basket
         [sample_orb 0%Q (-500)%Q AIR; sample_orb 50%Q (-600)%Q FIRE;
          sample_orb 90%Q (-700)%Q FIRE]
         [small_pool; small_pool; small_pool; small_pool]
         0%Q 1.5%Q 100%Q 30%Q 42 (Vec4 1%Q 1%Q 1%Q 1%Q) RUNNING.

(** A lost game. *)
Definition lost_game : @Game Q Z :=
  mkGame 1024 768 (-7) sample_basket []
         [small_pool; small_pool; small_pool; small_pool]
         0.5%Q 1.5%Q 100%Q 30%Q 42 (Vec4 1%Q 1%Q 1%Q 1%Q) GAME_OVER_LOSE.

(** The operations that bring a pool of three slots to the state where the
    slot activated last, slot 0, is inactive again. *)
Definition recycle_ops : list (@PoolOp Q) :=
  [PEmit origin 1 FIRE; PAdvance 10%Q].

(** ** Further parts of the program *)

Section MoreModel.

Context {F Rng Env : Type} {FO : FloatOps F} {PF : Platform F Rng Env}.

Local Open Scope float_scope.

Definition vec3_sub (a b : @vec3 F) : vec3 :=
  Vec3 (vx a - vx b) (vy a - vy b) (vz a - vz b).

(** *** The camera ([Camera/camera.cpp])

    [glm::normalize] and [glm::cross] belong to the GLM library; the
    camera is modelled for any two functions in their place. *)

Section CameraModel.

Variable glm_normalize : @vec3 F -> @vec3 F.
Variable glm_cross : @vec3 F -> @vec3 F -> @vec3 F.

Record Camera := mkCamera {
  cam_position : @vec3 F;
  viewDirection : @vec3 F;
  up : @vec3 F
}.

(** [Camera::Camera(initialPosition, initialViewDirection, initialUp)] *)
Definition Camera_new (initialPosition initialViewDirection initialUp : @vec3 F)
  : Camera :=
  mkCamera initialPosition (glm_normalize initialViewDirection)
           (glm_normalize initialUp).

Definition cam_setPosition (pos : @vec3 F) (c : Camera) : Camera :=
  mkCamera pos (viewDirection c) (up c).

(** [void Camera::keyboardMoveFront(float cameraSpeed)] *)
Definition keyboardMoveFront (cameraSpeed : F) (c : Camera) : Camera :=
  cam_setPosition
    (vec3_add (cam_position c)
       (vec3_scale (vec3_scale (viewDirection c) cameraSpeed) (f_lit 50))) c.

(** [void Camera::keyboardMoveBack(float cameraSpeed)] *)
Definition keyboardMoveBack (cameraSpeed : F) (c : Camera) : Camera :=
  cam_setPosition
    (vec3_sub (cam_position c)
       (vec3_scale (vec3_scale (viewDirection c) cameraSpeed) (f_lit 50))) c.

(** [void Camera::keyboardMoveLeft(float cameraSpeed)] *)
Definition keyboardMoveLeft (cameraSpeed : F) (c : Camera) : Camera :=
  let right := glm_normalize (glm_cross (viewDirection c) (up c)) in
  cam_setPosition
    (vec3_sub (cam_position c)
       (vec3_scale (vec3_scale right cameraSpeed) (f_lit 50))) c.

(** [void Camera::keyboardMoveRight(float cameraSpeed)] *)
Definition keyboardMoveRight (cameraSpeed : F) (c : Camera) : Camera :=
  let right := glm_normalize (glm_cross (viewDirection c) (up c)) in
  cam_setPosition
    (vec3_add (cam_position c)
       (vec3_scale (vec3_scale right cameraSpeed) (f_lit 50))) c.

(** [void Camera::keyboardMoveUp(float cameraSpeed)] *)
Definition keyboardMoveUp (cameraSpeed : F) (c : Camera) : Camera :=
  cam_setPosition
    (vec3_add (cam_position c) (vec3_scale (up c) cameraSpeed)) c.

(** [void Camera::keyboardMoveDown(float cameraSpeed)] *)
Definition keyboardMoveDown (cameraSpeed : F) (c : Camera) : Camera :=
  cam_setPosition
    (vec3_sub (cam_position c) (vec3_scale (up c) cameraSpeed)) c.

End CameraModel.

(** *** The score display of [Game::draw]

    The part of [Game::draw] that lays out the score: the quads handed to
    [m_scoreDigitQuad.draw], in order.  A texture is named by the glyph it
    shows. *)

Inductive Glyph :=
| GlyphMinus                       (* [m_minusTexture] *)
| GlyphDigit (digitValue : Z).     (* [m_digitTextures[digitValue]] *)

Record Sprite := mkSprite {
  s_glyph : Glyph;
  s_position : @vec3 F;
  s_scale : @vec3 F;
  s_color : @vec4 F
}.

(** The default member initialisers of [class Game]. *)
Definition m_digitWidth : F := f_lit 20.
Definition m_digitHeight : F := f_lit 30.
Definition m_scoreDisplayMarginX : F := f_lit 20.
Definition m_scoreDisplayMarginY : F := f_lit 20.

(** [std::to_string(n)] for a non-negative [int]: its decimal digits. *)
Definition to_string (n : Z) : list Ascii.ascii :=
  String.list_ascii_of_string
    (DecimalString.NilEmpty.string_of_uint (N.to_uint (Z.to_N n))).

(** [for (char digitChar : scoreStr) ...] of [Game::draw] *)
Fixpoint draw_digits (color : @vec4 F) (startY : F)
    (scoreStr : list Ascii.ascii) (currentX : F) : list Sprite :=
  match scoreStr with
  | [] => []
  | digitChar :: rest =>
      let digitValue := (Z.of_nat (Ascii.nat_of_ascii digitChar) - 48)%Z in
      if ((digitValue >=? 0) && (digitValue <? 10))%Z then
        mkSprite (GlyphDigit digitValue)
                 (Vec3 (currentX + m_digitWidth / f_lit 2) startY (f_lit 0))
                 (Vec3 m_digitWidth m_digitHeight (f_lit 1)) color
        :: draw_digits color startY rest (currentX + m_digitWidth)
      else draw_digits color startY rest currentX
  end.

(** The score part of [void Game::draw(...)]. *)
Definition draw_score (g : @Game F Rng) : list Sprite :=
  let color := m_lastDestroyedOrbColor g in
  let scoreStr := to_string (Z.abs (score g)) in
  let currentX := f_of_int (screenWidth g) / f_lit 2 - m_scoreDisplayMarginX in
  let startY := f_of_int (screenHeight g) / f_lit 2 - m_scoreDisplayMarginY
                - m_digitHeight / f_lit 2 in
  let totalScoreWidth :=
    f_of_int (Z.of_nat (length scoreStr)) * m_digitWidth in
  let totalScoreWidth :=
    if (score g <? 0)%Z then totalScoreWidth + m_digitWidth * f_lit 0.7
    else totalScoreWidth in
  let currentX := currentX - totalScoreWidth in
  if (score g <? 0)%Z then
    mkSprite GlyphMinus
             (Vec3 (currentX + m_digitWidth * f_lit 0.35) startY (f_lit 0))
             (Vec3 (m_digitWidth * f_lit 0.7) m_digitHeight (f_lit 1)) color
    :: draw_digits color startY scoreStr (currentX + m_digitWidth * f_lit 0.7)
  else draw_digits color startY scoreStr currentX.

(** *** Definitions used to state further properties *)

(** Successive calls of [ParticleSystem::update], one per time step. *)
Definition ParticleSystem_update_many (dts : list F) (ps : @ParticleSystem F)
  : ParticleSystem :=
  fold_left (fun ps dt => ParticleSystem_update dt ps) dts ps.

(** [new] is what an emission at [position] for [type] makes of the
    inactive slot [old]: an active particle at the emission point with no
    life spent; for a type that names no element the [default] branch of
    the [switch] gives it the colour white and leaves the velocity of the
    slot as it was. *)
Definition emitted_at (position : @vec3 F) (type : ElementType)
    (old new : @Particle F) : Prop :=
  p_active old = false /\ p_active new = true /\
  p_position new = position /\ p_life new = f_lit 0 /\
  (~ (0 <= type < NUM_ELEMENT_TYPES)%Z ->
   p_color new = Vec4 (f_lit 1) (f_lit 1) (f_lit 1) (f_lit 1) /\
   p_velocity new = p_velocity old).

(** The orb [Orb::update] leaves when the clock reads [now]. *)
Definition orb_after (deltaTime now : F) (o : @Orb F) : Orb :=
  let pos :=
    Vec3 (m_initialX o + m_zigzagAmplitude o
            * f_sin (now * m_zigzagFrequency o + m_zigzagPhaseOffset o))
         (vy (o_position o) - fallSpeed o * deltaTime)
         (vz (o_position o)) in
  let timer := m_particleEmitTimer o + deltaTime in
  set_particleEmitTimer
    (if timer >=? m_particleEmitInterval o then f_lit 0 else timer)
    (o_setPosition pos o).

(** Successive steps of the loop body of [ParticleSystem::update] on one
    particle. *)
Definition Particle_update_many (dts : list F) (p : @Particle F) : Particle :=
  fold_left (fun p dt => Particle_update dt p) dts p.



End MoreModel.

(** Equality of vectors over the rationals, component by component. *)
Definition vec3_Qeq (a b : @vec3 Q) : Prop :=
  (vx a == vx b)%Q /\ (vy a == vy b)%Q /\ (vz a == vz b)%Q.

(** The quads of [l], in order, each begin where the one before ends,
    from [a] to [b] along the horizontal axis. *)
Fixpoint abut (a : Q) (l : list (@Sprite Q)) (b : Q) : Prop :=
  match l with
  | [] => (a == b)%Q
  | s :: rest =>
      (vx (s_position s) - vx (s_scale s) / 2 == a)%Q /\
      abut (vx (s_position s) + vx (s_scale s) / 2)%Q rest b
  end.

(** A sine for the concrete platform that stays within [-1, 1]. *)
Definition sin_clamped (x : Q) : Q :=
  Qred (Qmax (-1) (Qmin 1 (sin_approx x))).

(** *** Further concrete inputs *)

(** A pool of two slots whose first slot holds an active particle that has
    used none of its one unit of life. *)
Definition spark_pool : @ParticleSystem Q :=
  mkParticleSystem
    [mkParticle origin (Vec3 1%Q 2%Q 0%Q) (Vec4 1%Q 1%Q 1%Q 1%Q)
                0%Q 1%Q 20%Q true;
     Particle_default (FO:=QF)]
    0 2.

(** A lost game whose first pool still holds the active particle of
    [spark_pool]. *)
Definition fading_game : @Game Q Z :=
  mkGame 1024 768 (-7) sample_basket []
         [spark_pool; small_pool; small_pool; small_pool]
         0.5%Q 1.5%Q 100%Q 30%Q 42 (Vec4 1%Q 1%Q 1%Q 1%Q) GAME_OVER_LOSE.

(** A running game one miss above the losing threshold, with an orb below
    the window and an orb in mid-air, far from the basket. *)
Definition entering_game : @Game Q Z :=
  mkGame 1024 768 (-4) sample_basket
         [sample_orb 0%Q (-500)%Q AIR; sample_orb 300%Q 200%Q WATER]
         [small_pool; small_pool; small_pool; small_pool]
         0%Q 1.5%Q 100%Q 30%Q 42 (Vec4 1%Q 1%Q 1%Q 1%Q) RUNNING.

(** An orb on the basket whose type names no element, and a game that
    holds it. *)
Definition rogue_orb : @Orb Q := sample_orb 0%Q (-324)%Q NUM_ELEMENT_TYPES.

Definition rogue_game : @Game Q Z :=
  mkGame 1024 768 0 sample_basket [rogue_orb]
         [small_pool; small_pool; small_pool; small_pool]
         0%Q 1.5%Q 100%Q 30%Q 42 (Vec4 1%Q 1%Q 1%Q 1%Q) RUNNING.

(** The sample game in a window 40 wide, as a resize leaves it. *)
Definition narrow_game : @Game Q Z :=
  setScreenDimensions (FO:=QF) 40 768 sample_game.

(** A camera at the origin looking down the z axis. *)
Definition sample_camera : @Camera Q :=
  mkCamera (Vec3 0%Q 0%Q 1%Q) (Vec3 0%Q 0%Q (-1)%Q) (Vec3 0%Q 1%Q 0%Q).

(** The cross product, and a normalisation that leaves vectors as they
    are, to run the camera on. *)
Definition cross_product (a b : @vec3 Q) : @vec3 Q :=
  Vec3 (vy a * vz b - vz a * vy b)%Q (vz a * vx b - vx a * vz b)%Q
       (vx a * vy b - vy a * vx b)%Q.

(** The keys of a frame with both movement keys down. *)
Definition both_keys : Keys := mkKeys true true false.

(** Four frames of 100 time units each: every frame spawns an orb that the
    next frame finds below the window. *)
Definition miss_ops : list (@Op Q) := repeat (OpUpdate 100%Q) 4.

(** ** Proofs *)

Section Proofs.
Context {F Rng Env : Type} {FO : FloatOps F} {PF : Platform F Rng Env}.
Local Abbreviation Particle := (@Particle F).
Local Abbreviation ParticleSystem := (@ParticleSystem F).
Local Abbreviation vec3 := (@vec3 F).
Local Abbreviation Basket := (@Basket F).
Local Abbreviation Orb := (@Orb F).
Local Abbreviation Game := (@Game F Rng).

Lemma vector_at_Some {A} (l : list A) k x :
  vector_at l k = Some x <-> 0 <= k /\ l !! Z.to_nat k = Some x.
Proof.
  unfold vector_at. destruct (Z.ltb_spec k 0); split.
  - discriminate.
  - intros [? _]. lia.
  - auto with zarith.
  - intros [_ ?]. assumption.
Qed.

Lemma vector_at_in_range {A} (l : list A) k :
  0 <= k < Z.of_nat (length l) -> exists x, vector_at l k = Some x.
Proof.
  intros Hk. destruct (lookup_lt_is_Some_2 l (Z.to_nat k)) as [x Hx]; [lia|].
  exists x. apply vector_at_Some. split; [lia|assumption].
Qed.

(** *** The scan loops *)

Lemma scan_total (l : list Particle) n i :
  0 <= i -> i + Z.of_nat n <= Z.of_nat (length l) ->
  exists r, scan l i n = Some r.
Proof.
  revert i. induction n as [|n IH]; intros i Hi Hn; simpl.
  - eauto.
  - destruct (vector_at_in_range l i) as [p Hp]; [lia|]. rewrite Hp.
    destruct (p_active p); [|eauto]. apply IH; lia.
Qed.

(** *** The cyclic reading of the two loops *)

Lemma cyclic_from_scan (l : list Particle) start m base n d r :
  (forall e, d <= e < d + Z.of_nat n -> (start + e) mod m = base + e) ->
  scan l (base + d) n = Some r ->
  cyclic_first_inactive_from l start m d n = r.
Proof.
  revert d. induction n as [|n IH]; intros d Hmod; simpl.
  - intros [= <-]. reflexivity.
  - rewrite (Hmod d) by lia. unfold is_active.
    destruct (vector_at l (base + d)) as [p|]; [|discriminate].
    destruct (p_active p).
    + rewrite <- Z.add_assoc. apply IH. intros e He. apply Hmod. lia.
    + intros [= <-]. reflexivity.
Qed.

Lemma cyclic_from_app (l : list Particle) start m n1 n2 d :
  cyclic_first_inactive_from l start m d (n1 + n2) =
  match cyclic_first_inactive_from l start m d n1 with
  | Some k => Some k
  | None => cyclic_first_inactive_from l start m (d + Z.of_nat n1) n2
  end.
Proof.
  revert d. induction n1 as [|n1 IH]; intros d; simpl.
  - f_equal. lia.
  - destruct (is_active l ((start + d) mod m)); [|reflexivity].
    rewrite IH. replace (d + 1 + Z.of_nat n1) with (d + Z.pos (Pos.of_succ_nat n1)) by lia.
    reflexivity.
Qed.

Lemma cyclic_from_Some (l : list Particle) start m n d i :
  0 < m ->
  cyclic_first_inactive_from l start m d n = Some i ->
  0 <= i < m /\ is_active l i = false /\
  exists e, d <= e < d + Z.of_nat n /\ i = (start + e) mod m /\
            forall e', d <= e' < e -> is_active l ((start + e') mod m) = true.
Proof.
  intros Hm. revert d. induction n as [|n IH]; intros d; simpl; [discriminate|].
  destruct (is_active l ((start + d) mod m)) eqn:Ha.
  - intros Hs. destruct (IH _ Hs) as (Hi & Hina & e & He & -> & Hall).
    split; [assumption|]. split; [assumption|].
    exists e. split; [lia|]. split; [reflexivity|].
    intros e' He'. destruct (Z.eq_dec e' d) as [->|Hne]; [assumption|].
    apply Hall. lia.
  - intros [= <-]. split; [apply Z.mod_pos_bound; lia|]. split; [assumption|].
    exists d. split; [lia|]. split; [reflexivity|]. intros e' He'. lia.
Qed.

Lemma cyclic_from_None (l : list Particle) start m n d :
  cyclic_first_inactive_from l start m d n = None ->
  forall e, d <= e < d + Z.of_nat n -> is_active l ((start + e) mod m) = true.
Proof.
  revert d. induction n as [|n IH]; intros d; simpl.
  - intros _ e He. lia.
  - destruct (is_active l ((start + d) mod m)) eqn:Ha; [|discriminate].
    intros Hs e He. destruct (Z.eq_dec e d) as [->|Hne]; [assumption|].
    apply (IH _ Hs). lia.
Qed.

Lemma cyclic_first_inactive_None (l : list Particle) start m :
  cyclic_first_inactive l start m = None ->
  forall k, 0 <= k < m -> is_active l k = true.
Proof.
  intros Hn k Hk.
  pose proof (Z.mod_pos_bound (k - start) m ltac:(lia)) as Hb.
  pose proof (cyclic_from_None _ _ _ _ _ Hn ((k - start) mod m)
                ltac:(lia)) as H.
  rewrite Zplus_mod_idemp_r in H.
  replace (start + (k - start)) with k in H by lia.
  rewrite (Z.mod_small k m) in H by lia. exact H.
Qed.

Lemma to_unsigned_small n : 0 <= n <= INT_MAX -> to_unsigned n = n.
Proof. unfold to_unsigned, INT_MAX. intros Hn. apply Z.mod_small. lia. Qed.

(** [findUnusedParticle] visits the slots in cyclic order from
    [lastUsedParticle]. *)
Lemma findUnusedParticle_cyclic (ps : ParticleSystem) :
  ps_wf ps ->
  findUnusedParticle ps =
  Some match code_slot_choice ps with
       | Some i => (i, set_lastUsedParticle i ps)
       | None => (to_unsigned (-1), ps)
       end.
Proof.
  intros (Hmax & Hlen & Hlast).
  unfold findUnusedParticle, code_slot_choice, cyclic_first_inactive.
  rewrite to_unsigned_small by assumption.
  set (m := maxParticles ps) in *. set (lu := lastUsedParticle ps) in *.
  replace (Z.to_nat m) with (Z.to_nat (m - lu) + Z.to_nat lu)%nat by lia.
  rewrite cyclic_from_app.
  destruct (scan_total (particles ps) (Z.to_nat (m - lu)) lu) as [r1 Hr1];
    [lia|lia|].
  destruct (scan_total (particles ps) (Z.to_nat lu) 0) as [r2 Hr2];
    [lia|lia|].
  rewrite Hr1.
  rewrite (cyclic_from_scan (particles ps) lu m lu (Z.to_nat (m - lu)) 0 r1).
  - destruct r1 as [i|]; [reflexivity|]. rewrite Hr2.
    rewrite (cyclic_from_scan (particles ps) lu m (lu - m) (Z.to_nat lu)
               (0 + Z.of_nat (Z.to_nat (m - lu))) r2).
    + destruct r2; reflexivity.
    + intros e He. replace (lu + e) with ((lu - m + e) + 1 * m) by lia.
      rewrite Z_mod_plus_full. apply Z.mod_small. lia.
    + replace (lu - m + (0 + Z.of_nat (Z.to_nat (m - lu)))) with 0 by lia.
      assumption.
  - intros e He. apply Z.mod_small. lia.
  - rewrite Z.add_0_r. assumption.
Qed.

(** *** Counting active slots *)

Lemma active_count_le (ps : ParticleSystem) :
  (active_count ps <= length (particles ps))%nat.
Proof. unfold active_count. apply List.filter_length_le. Qed.

Lemma filter_active_insert (l : list Particle) i p p' :
  l !! i = Some p -> p_active p = false -> p_active p' = true ->
  length (List.filter p_active (<[i:=p']> l)) =
  S (length (List.filter p_active l)).
Proof.
  revert i. induction l as [|q l IH]; intros [|i] Hl Hp Hp'; simpl in *;
    try discriminate.
  - injection Hl as ->. rewrite Hp, Hp'. reflexivity.
  - destruct (p_active q); simpl; rewrite (IH i Hl Hp Hp'); reflexivity.
Qed.

Lemma filter_active_all (l : list Particle) :
  (forall k, 0 <= k < Z.of_nat (length l) -> is_active l k = true) ->
  length (List.filter p_active l) = length l.
Proof.
  induction l as [|q l IH]; intros Hall; simpl; [reflexivity|].
  pose proof (Hall 0 ltac:(simpl; lia)) as H0. unfold is_active in H0.
  simpl in H0. rewrite H0. simpl. f_equal. apply IH. intros k Hk.
  pose proof (Hall (k + 1) ltac:(simpl; lia)) as Hk1.
  unfold is_active, vector_at in *.
  destruct (Z.ltb_spec (k + 1) 0); [lia|].
  destruct (Z.ltb_spec k 0); [lia|].
  replace (Z.to_nat (k + 1)) with (S (Z.to_nat k)) in Hk1 by lia.
  exact Hk1.
Qed.

(** *** One emission *)

Lemma init_particle_ok (position : vec3) type (p : Particle) (gen : Rng) :
  exists p' gen', init_particle position type p gen = Some (p', gen') /\
                  p_active p' = true.
Proof.
  unfold init_particle, lifeDist, sizeDist, velDist, bind, lift, ret.
  repeat first
    [ match goal with
      | |- context [uniform_real ?a ?b ?g] =>
          destruct (uniform_real a b g) as [? ?]
      end
    | match goal with
      | |- context [if ?c then _ else _] => destruct c
      end ];
    eexists _, _; split; reflexivity.
Qed.

Lemma emit_one_spec (position : vec3) type (ps : ParticleSystem) (gen : Rng) :
  ps_wf ps ->
  match code_slot_choice ps with
  | Some i =>
      0 <= i < maxParticles ps /\ is_active (particles ps) i = false /\
      exists p' gen',
        emit_one position type ps gen =
          Some (set_particles (<[Z.to_nat i := p']> (particles ps))
                              (set_lastUsedParticle i ps), gen') /\
        p_active p' = true
  | None => emit_one position type ps gen = Some (ps, gen)
  end.
Proof.
  intros Hwf. unfold emit_one, bind, of_option.
  rewrite (findUnusedParticle_cyclic ps Hwf).
  destruct Hwf as (Hmax & Hlen & Hlast).
  destruct (code_slot_choice ps) as [i|] eqn:Hc.
  - unfold code_slot_choice, cyclic_first_inactive in Hc.
    assert (0 < maxParticles ps) as Hpos.
    { destruct (Z.to_nat (maxParticles ps)) eqn:E; [discriminate|lia]. }
    destruct (cyclic_from_Some _ _ _ _ _ _ Hpos Hc) as (Hi & Hina & _).
    split; [assumption|]. split; [assumption|].
    assert (i <> to_unsigned (-1)) as Hne.
    { unfold to_unsigned, INT_MAX in *. change ((-1) mod 2 ^ 32) with 4294967295. lia. }
    apply Z.eqb_neq in Hne. rewrite Hne. simpl.
    destruct (vector_at_in_range (particles ps) i) as [p Hp]; [lia|].
    rewrite Hp.
    destruct (init_particle_ok position type p gen) as (p' & gen' & Hinit & Hact).
    rewrite Hinit. exists p', gen'. split; [reflexivity|assumption].
  - rewrite Z.eqb_refl. reflexivity.
Qed.

Lemma ps_wf_activate (ps : ParticleSystem) i p' :
  ps_wf ps -> 0 <= i < maxParticles ps ->
  ps_wf (set_particles (<[Z.to_nat i := p']> (particles ps))
                       (set_lastUsedParticle i ps)).
Proof.
  intros (Hmax & Hlen & Hlast) Hi. unfold ps_wf; simpl.
  rewrite length_insert. repeat split; try assumption; lia.
Qed.

Lemma vector_at_insert_ne {A} (l : list A) i k x :
  0 <= i -> k <> i ->
  vector_at (<[Z.to_nat i := x]> l) k = vector_at l k.
Proof.
  intros Hi Hne. unfold vector_at. destruct (Z.ltb_spec k 0); [reflexivity|].
  apply list_lookup_insert_ne. lia.
Qed.

(** What [n] iterations of the loop of [emit] do to a pool. *)
Lemma emit_loop_spec (position : vec3) type n (ps : ParticleSystem) (gen : Rng) :
  ps_wf ps ->
  exists ps' gen',
    emit_loop position type n ps gen = Some (ps', gen') /\
    ps_wf ps' /\
    maxParticles ps' = maxParticles ps /\
    (forall k p, vector_at (particles ps) k = Some p -> p_active p = true ->
                 vector_at (particles ps') k = Some p) /\
    active_count ps' =
      Nat.min (length (particles ps)) (active_count ps + n) /\
    (active_count ps = length (particles ps) -> ps' = ps).
Proof.
  revert ps gen. induction n as [|n IH]; intros ps gen Hwf; simpl.
  - exists ps, gen. split; [reflexivity|]. split; [assumption|].
    split; [reflexivity|]. split; [auto|].
    pose proof (active_count_le ps). split; [lia|auto].
  - pose proof (emit_one_spec position type ps gen Hwf) as H1.
    unfold bind at 1.
    pose proof (active_count_le ps) as Hle.
    destruct (code_slot_choice ps) as [i|] eqn:Hc.
    + destruct H1 as (Hi & Hina & p' & gen1 & -> & Hact).
      set (ps1 := set_particles _ _).
      assert (ps_wf ps1) as Hwf1 by (apply ps_wf_activate; assumption).
      destruct (IH ps1 gen1 Hwf1) as (ps' & gen' & Hrun & Hwf' & Hm & Hkeep & Hcnt & _).
      exists ps', gen'. split; [assumption|]. split; [assumption|].
      split; [rewrite Hm; reflexivity|].
      assert (exists p, particles ps !! Z.to_nat i = Some p /\ p_active p = false)
        as (p & Hp & Hpa).
      { destruct Hwf as (Hmax & Hlen & Hlast).
        destruct (vector_at_in_range (particles ps) i) as [p Hp]; [lia|].
        exists p. unfold is_active in Hina. rewrite Hp in Hina.
        apply vector_at_Some in Hp. tauto. }
      assert (active_count ps1 = S (active_count ps)) as Hc1.
      { unfold active_count, ps1. simpl.
        apply (filter_active_insert _ _ p); assumption. }
      assert (length (particles ps1) = length (particles ps)) as Hl1.
      { unfold ps1. simpl. apply length_insert. }
      split; [|split].
      * intros k q Hq Hqa. apply Hkeep; [|assumption].
        unfold ps1. simpl. rewrite vector_at_insert_ne; [assumption|lia|].
        intros ->. unfold is_active in Hina. rewrite Hq in Hina. congruence.
      * rewrite Hcnt, Hl1, Hc1. f_equal. lia.
      * intros Hfull. pose proof (active_count_le ps1). lia.
    + rewrite H1.
      destruct (IH ps gen Hwf) as (ps' & gen' & Hrun & Hwf' & Hm & Hkeep & Hcnt & Hfull).
      assert (active_count ps = length (particles ps)) as Hall.
      { unfold active_count. apply filter_active_all. intros k Hk.
        destruct Hwf as (Hmax & Hlen & Hlast).
        apply (cyclic_first_inactive_None _ _ _ Hc). lia. }
      exists ps', gen'. split; [assumption|]. split; [assumption|].
      split; [assumption|]. split; [assumption|]. split; [lia|assumption].
Qed.

Lemma emit_spec (position : vec3) count type (ps : ParticleSystem) (e : Env) :
  ps_wf ps ->
  exists ps',
    emit position count type ps e = Some (ps', snd (random_device e)) /\
    ps_wf ps' /\
    maxParticles ps' = maxParticles ps /\
    (forall k p, vector_at (particles ps) k = Some p -> p_active p = true ->
                 vector_at (particles ps') k = Some p) /\
    active_count ps' =
      Nat.min (length (particles ps)) (active_count ps + Z.to_nat count) /\
    (active_count ps = length (particles ps) -> ps' = ps).
Proof.
  intros Hwf. unfold emit, with_fresh_gen, bind, lift, of_option.
  destruct (random_device e) as [gen e1]. simpl.
  destruct (emit_loop_spec position type (Z.to_nat count) ps gen Hwf)
    as (ps' & gen' & -> & H).
  exists ps'. split; [reflexivity|exact H].
Qed.

(** *** Advancing a pool *)

Lemma Particle_update_active (dt : F) (p : Particle) :
  p_active (Particle_update dt p) = true -> p_active p = true.
Proof.
  unfold Particle_update. destruct (p_active p) eqn:Ha; [reflexivity|].
  rewrite Ha. discriminate.
Qed.

Lemma ParticleSystem_update_wf (dt : F) (ps : ParticleSystem) :
  ps_wf ps -> ps_wf (ParticleSystem_update dt ps).
Proof.
  intros (Hmax & Hlen & Hlast). unfold ps_wf, ParticleSystem_update; simpl.
  rewrite length_fmap. auto.
Qed.

Lemma ParticleSystem_update_active_count (dt : F) (ps : ParticleSystem) :
  (active_count (ParticleSystem_update dt ps) <= active_count ps)%nat.
Proof.
  unfold active_count, ParticleSystem_update; simpl.
  induction (particles ps) as [|p l IH]; simpl in *; [lia|].
  destruct (p_active (Particle_update dt p)) eqn:Ha.
  - rewrite (Particle_update_active _ _ Ha). simpl. apply le_n_S, IH.
  - destruct (p_active p); simpl; [apply Nat.le_le_succ_r|]; exact IH.
Qed.

Lemma ParticleSystem_new_wf (maxP : Z) :
  0 <= maxP <= INT_MAX -> ps_wf (ParticleSystem_new (F:=F) maxP).
Proof.
  intros Hm. unfold ps_wf, ParticleSystem_new; simpl.
  rewrite length_replicate. lia.
Qed.

(** *** The pools of the game *)

Ltac split_wf := split; [|split]; simpl.

Lemma pools_wf_lookup (pools : list ParticleSystem) t :
  pools_wf pools -> type_in_range t ->
  exists ps, vector_at pools t = Some ps /\ ps_wf ps.
Proof.
  intros [Hlen Hall] Ht. unfold type_in_range in Ht.
  destruct (vector_at_in_range pools t) as [ps Hps]; [lia|].
  exists ps. split; [assumption|].
  apply vector_at_Some in Hps as [_ Hps].
  eapply Forall_lookup_1; eassumption.
Qed.

Lemma pools_wf_insert (pools : list ParticleSystem) t ps' :
  pools_wf pools -> ps_wf ps' -> pools_wf (<[Z.to_nat t := ps']> pools).
Proof.
  intros [Hlen Hall] Hps. split.
  - rewrite length_insert. assumption.
  - apply Forall_insert; assumption.
Qed.

Lemma getParticleSystem_in_range (g : Game) t :
  type_in_range t -> getParticleSystem g t = vector_at (particleSystems g) t.
Proof.
  unfold type_in_range, getParticleSystem. intros Ht.
  destruct (Z.geb_spec t 0); [|lia].
  destruct (Z.ltb_spec t NUM_ELEMENT_TYPES); [|lia]. reflexivity.
Qed.

Lemma getParticleSystem_out_of_range (g : Game) t :
  ~ type_in_range t -> getParticleSystem g t = None.
Proof.
  unfold type_in_range, getParticleSystem. intros Ht.
  destruct (Z.geb_spec t 0); [|reflexivity].
  destruct (Z.ltb_spec t NUM_ELEMENT_TYPES); [lia|reflexivity].
Qed.

Lemma set_particleSystems_id (g : Game) :
  set_particleSystems (particleSystems g) g = g.
Proof. destruct g; reflexivity. Qed.

Lemma emit_into_spec t (position : vec3) count (g : Game) (e : Env) :
  pools_wf (particleSystems g) -> type_in_range t ->
  exists ps ps',
    vector_at (particleSystems g) t = Some ps /\
    emit position count t ps e = Some (ps', snd (random_device e)) /\
    ps_wf ps /\ ps_wf ps' /\
    emit_into t position count g e =
      Some (store_particleSystem t ps' g, snd (random_device e)).
Proof.
  intros Hp Ht. destruct (pools_wf_lookup _ _ Hp Ht) as (ps & Hps & Hwf).
  destruct (emit_spec position count t ps e Hwf) as (ps' & Hemit & Hwf' & _).
  exists ps, ps'. repeat (split; [assumption|]).
  unfold emit_into, bind, of_option. rewrite Hps, Hemit. reflexivity.
Qed.

(** *** Advancing the orbs *)

Lemma Orb_update_spec (dt : F) (gi : bool) (o : Orb) (g : Game) (e : Env) :
  (gi = true -> pools_wf (particleSystems g) /\ type_in_range (o_type o)) ->
  exists o' pools' e',
    Orb_update dt gi o g e = Some (o', set_particleSystems pools' g, e') /\
    (pools_wf (particleSystems g) -> pools_wf pools') /\
    (gi = false -> pools' = particleSystems g) /\
    o_type o' = o_type o /\ fallSpeed o' = fallSpeed o /\
    vy (o_position o') = (vy (o_position o) - fallSpeed o * dt)%F.
Proof.
  intros Hgi. unfold Orb_update, bind at 1, lift at 1.
  destruct (glfwGetTime e) as [now e1].
  match goal with |- context [if ?c then _ else _] => destruct c end.
  - destruct gi.
    + destruct (Hgi eq_refl) as [Hp Ht].
      unfold with_fresh_gen, bind, lift, of_option, ret.
      destruct (random_device e1) as [gen e2]. simpl.
      destruct (uniform_real _ _ gen) as [dx gen1].
      destruct (uniform_real _ _ gen1) as [dy gen2]. simpl.
      rewrite (getParticleSystem_in_range g _ Ht).
      destruct (pools_wf_lookup _ _ Hp Ht) as (ps & Hps & Hwf). rewrite Hps.
      match goal with |- context [emit ?p ?c ?t ps e2] =>
        destruct (emit_spec p c t ps e2 Hwf) as (ps' & -> & Hwf' & _) end.
      eexists _, _, _. split; [reflexivity|].
      split; [intros _; apply pools_wf_insert; assumption|].
      split; [discriminate|]. simpl. auto.
    + unfold bind, ret. eexists _, (particleSystems g), _.
      rewrite set_particleSystems_id. split; [reflexivity|]. simpl. auto.
  - unfold ret. eexists _, (particleSystems g), _.
    rewrite set_particleSystems_id. split; [reflexivity|]. simpl. auto.
Qed.

Lemma update_orbs_spec (dt : F) (orbs : list Orb) (g : Game) (e : Env) :
  pools_wf (particleSystems g) ->
  Forall (fun o => type_in_range (o_type o)) orbs ->
  exists orbs' pools' e',
    update_orbs dt orbs g e = Some (orbs', set_particleSystems pools' g, e') /\
    pools_wf pools' /\
    Forall (fun o => type_in_range (o_type o)) orbs'.
Proof.
  revert g e. induction orbs as [|o orbs IH]; intros g e Hp Ho; simpl.
  - exists [], (particleSystems g), e. rewrite set_particleSystems_id.
    split; [reflexivity|]. split; [assumption|constructor].
  - inversion Ho as [|? ? Ht Hrest]; subst.
    destruct (Orb_update_spec dt true o g e) as
      (o' & pools1 & e1 & Hupd & Hp1 & _ & Hty & _); [auto|].
    unfold bind at 1. rewrite Hupd.
    destruct (IH (set_particleSystems pools1 g) e1) as
      (orbs' & pools2 & e2 & Hrun & Hp2 & Ho'); [simpl; auto|assumption|].
    unfold bind at 1. rewrite Hrun.
    exists (o' :: orbs'), pools2, e2. split; [reflexivity|].
    split; [assumption|]. constructor; [rewrite Hty; assumption|assumption].
Qed.

Lemma advance_orbs_spec (dt : F) (g : Game) (e : Env) :
  game_wf g ->
  exists orbs' pools' e',
    advance_orbs dt g e =
      Some (set_fallingOrbs orbs' (set_particleSystems pools' g), e') /\
    game_wf (set_fallingOrbs orbs' (set_particleSystems pools' g)).
Proof.
  intros (Hp & Ho & Hb).
  destruct (update_orbs_spec dt (fallingOrbs g) g e Hp Ho)
    as (orbs' & pools' & e' & Hrun & Hp' & Ho').
  exists orbs', pools', e'. unfold advance_orbs, bind. rewrite Hrun.
  split; [reflexivity|]. split; [|split]; simpl; assumption.
Qed.

(** *** The off-screen pass *)

Lemma score_color_id (g : Game) :
  set_lastDestroyedOrbColor (m_lastDestroyedOrbColor g) (set_score (score g) g)
  = g.
Proof. destruct g; reflexivity. Qed.

Lemma remove_offscreen_spec (orbs : list Orb) (g : Game) :
  let bottom := (- (f_of_int (screenHeight g) / f_lit 2))%F in
  exists c,
    remove_offscreen orbs g =
      (List.filter (fun o => negb (isOffScreen bottom o)) orbs,
       set_lastDestroyedOrbColor c
         (set_score
            (score g
             - 2 * Z.of_nat (length (List.filter (isOffScreen bottom) orbs)))
            g)).
Proof.
  intros bottom. revert g bottom.
  induction orbs as [|o orbs IH]; intros g bottom; simpl.
  - exists (m_lastDestroyedOrbColor g). rewrite Z.sub_0_r, score_color_id.
    reflexivity.
  - fold bottom. destruct (isOffScreen bottom o); simpl.
    + destruct (IH (set_lastDestroyedOrbColor (getOrbColor (o_type o))
                      (set_score (score g - 2) g))) as [c Hc].
      simpl in Hc. fold bottom in Hc. rewrite Hc. exists c. f_equal.
      unfold set_lastDestroyedOrbColor, set_score; simpl. f_equal. lia.
    + destruct (IH g) as [c Hc]. fold bottom in Hc. rewrite Hc.
      exists c. reflexivity.
Qed.

Lemma offscreen_pass_spec (g : Game) :
  let bottom := (- (f_of_int (screenHeight g) / f_lit 2))%F in
  exists c,
    offscreen_pass g =
      set_fallingOrbs
        (List.filter (fun o => negb (isOffScreen bottom o)) (fallingOrbs g))
        (set_lastDestroyedOrbColor c
           (set_score
              (score g
               - 2 * Z.of_nat (length (List.filter (isOffScreen bottom)
                                                   (fallingOrbs g))))
              g)).
Proof.
  intros bottom. unfold offscreen_pass.
  destruct (remove_offscreen_spec (fallingOrbs g) g) as [c Hc].
  fold bottom in Hc. rewrite Hc. exists c. reflexivity.
Qed.

Lemma Forall_filter_bool {A} (P : A -> Prop) (f : A -> bool) (l : list A) :
  Forall P l -> Forall P (List.filter f l).
Proof.
  induction 1 as [|x l Hx Hl IH]; simpl; [constructor|].
  destruct (f x); [constructor|]; assumption.
Qed.

Lemma offscreen_pass_wf (g : Game) : game_wf g -> game_wf (offscreen_pass g).
Proof.
  intros (Hp & Ho & Hb). destruct (offscreen_pass_spec g) as [c ->].
  split; [|split]; simpl; try assumption.
  apply Forall_filter_bool. assumption.
Qed.

(** *** Spawning *)

Lemma Orb_new_spec (x y w h : F) t (speed : F) (e : Env) :
  exists o, Orb_new x y w h t speed e = Some (o, snd (random_device e)) /\
            o_type o = t.
Proof.
  unfold Orb_new, with_fresh_gen, bind, lift, of_option, ret.
  destruct (random_device e) as [gen e1]. simpl.
  destruct (uniform_real _ _ gen) as [amp gen1].
  destruct (uniform_real _ _ gen1) as [freq gen2].
  destruct (uniform_real _ _ gen2) as [phase gen3]. simpl.
  eexists. split; reflexivity.
Qed.

Lemma spawnOrb_spec (g : Game) (e : Env) :
  xDist_ok (screenWidth g) = true ->
  exists o r,
    spawnOrb g e =
      Some (set_fallingOrbs (fallingOrbs g ++ [o]) (set_rng r g),
            snd (random_device e)) /\
    type_in_range (o_type o).
Proof.
  intros Hok. unfold spawnOrb. rewrite Hok.
  pose proof (uniform_int_range 0 (NUM_ELEMENT_TYPES - 1) (rng g)
                ltac:(unfold NUM_ELEMENT_TYPES; lia)) as Hr.
  destruct (uniform_int 0 (NUM_ELEMENT_TYPES - 1) (rng g)) as [t r1].
  destruct (uniform_real _ _ r1) as [x r2]. simpl in Hr. cbv beta iota.
  destruct (Orb_new_spec x
              (f_of_int (screenHeight g) / f_lit 2 + f_lit 60 / f_lit 2)%F
              (f_lit 60) (f_lit 60) t (orbFallSpeed g) e) as (o & Ho & Hty).
  unfold bind. rewrite Ho. exists o, r2. split; [reflexivity|].
  rewrite Hty. unfold type_in_range. lia.
Qed.

Lemma spawn_step_undefined (dt : F) (g : Game) (e : Env) :
  spawn_defined dt g = false -> spawn_step dt g e = None.
Proof.
  unfold spawn_defined, spawn_step. simpl. intros Hd.
  apply orb_false_iff in Hd as [Hdue Hok].
  apply negb_false_iff in Hdue. rewrite Hdue.
  unfold bind, spawnOrb. simpl. rewrite Hok. reflexivity.
Qed.

Lemma spawn_step_spec (dt : F) (g : Game) (e : Env) :
  game_wf g -> spawn_defined dt g = true ->
  exists orbs' t r e',
    spawn_step dt g e =
      Some (set_fallingOrbs orbs' (set_rng r (set_orbSpawnTimer t g)), e') /\
    game_wf (set_fallingOrbs orbs' (set_rng r (set_orbSpawnTimer t g))).
Proof.
  intros (Hp & Ho & Hb) Hd. unfold spawn_step.
  unfold spawn_defined in Hd. simpl.
  destruct (orbSpawnTimer g + dt >=? orbSpawnInterval g)%F eqn:Hdue.
  - simpl in Hd.
    destruct (spawnOrb_spec (set_orbSpawnTimer (orbSpawnTimer g + dt)%F g) e Hd)
      as (o & r & Hs & Hty).
    unfold bind. rewrite Hs. simpl.
    exists (fallingOrbs g ++ [o]), (f_lit 0), r, (snd (random_device e)).
    split; [reflexivity|]. split; [|split]; simpl; try assumption.
    apply Forall_app. split; [assumption|]. constructor; [assumption|constructor].
  - exists (fallingOrbs g), (orbSpawnTimer g + dt)%F, (rng g), e.
    split; [destruct g; reflexivity|]. split; [|split]; simpl; assumption.
Qed.

(** *** Collisions *)

Lemma catch_spec (basket : Basket) (orb : Orb) (g : Game) (e : Env) :
  pools_wf (particleSystems g) -> type_in_range (o_type orb) ->
  exists ps ps',
    vector_at (particleSystems g) (o_type orb) = Some ps /\
    emit (o_position orb) (burst_size basket orb) (o_type orb) ps e
      = Some (ps', snd (random_device e)) /\
    ps_wf ps /\ ps_wf ps' /\
    catch basket orb g e =
      Some (store_particleSystem (o_type orb) ps'
              (set_lastDestroyedOrbColor (getOrbColor (o_type orb))
                 (set_score
                    (score g + if matches basket orb then 5 else -2) g)),
            snd (random_device e)).
Proof.
  intros Hp Ht. unfold catch, burst_size, matches.
  destruct (o_type orb =? currentType basket)%Z.
  - destruct (emit_into_spec (o_type orb) (o_position orb) 50
                (set_lastDestroyedOrbColor (getOrbColor (o_type orb))
                   (set_score (score g + 5) g)) e Hp Ht)
      as (ps & ps' & Hps & Hemit & Hwf & Hwf' & Hinto).
    exists ps, ps'. repeat (split; [assumption|]). exact Hinto.
  - destruct (emit_into_spec (o_type orb) (o_position orb) 20
                (set_lastDestroyedOrbColor (getOrbColor (o_type orb))
                   (set_score (score g - 2) g)) e Hp Ht)
      as (ps & ps' & Hps & Hemit & Hwf & Hwf' & Hinto).
    exists ps, ps'. repeat (split; [assumption|]). exact Hinto.
Qed.

Lemma collide_loop_spec (basket : Basket) (orbs : list Orb) (g : Game) (e : Env) :
  pools_wf (particleSystems g) ->
  Forall (fun o => type_in_range (o_type o)) orbs ->
  let caught := List.filter (collides basket) orbs in
  exists pools' c e',
    collide_loop basket orbs g e =
      Some (List.filter (fun o => negb (collides basket o)) orbs,
            set_particleSystems pools'
              (set_lastDestroyedOrbColor c
                 (set_score
                    (score g
                     + 5 * Z.of_nat (length (List.filter (matches basket) caught))
                     - 2 * Z.of_nat (length (List.filter
                                   (fun o => negb (matches basket o)) caught)))
                    g)),
            e') /\
    emit_bursts basket caught (particleSystems g) e = Some (pools', e') /\
    pools_wf pools'.
Proof.
  revert g e. induction orbs as [|o orbs IH]; intros g e Hp Ho caught.
  - exists (particleSystems g), (m_lastDestroyedOrbColor g), e. simpl.
    split; [|split; [reflexivity|assumption]].
    destruct g; unfold ret, set_particleSystems, set_lastDestroyedOrbColor,
      set_score; simpl. repeat f_equal. lia.
  - inversion Ho as [|? ? Ht Hrest]; subst. subst caught. simpl.
    destruct (collides basket o) eqn:Hcol; simpl.
    + destruct (catch_spec basket o g e Hp Ht)
        as (ps & ps' & Hps & Hemit & Hwf & Hwf' & Hcatch).
      unfold bind at 1. rewrite Hcatch.
      match goal with |- context [collide_loop basket orbs ?g1 ?e1] =>
        destruct (IH g1 e1) as (pools' & c & e' & Hrun & Hb & Hp') end;
        [simpl; apply pools_wf_insert; assumption|assumption|].
      rewrite Hrun. exists pools', c, e'. split; [|split; [|assumption]].
      * unfold store_particleSystem, set_particleSystems,
          set_lastDestroyedOrbColor, set_score; simpl.
        destruct (matches basket o); simpl;
          match goal with
          | |- Some (_, mkGame _ _ ?a _ _ _ _ _ _ _ _ _ _, _)
               = Some (_, mkGame _ _ ?b _ _ _ _ _ _ _ _ _ _, _) =>
              replace a with b by lia; reflexivity
          end.
      * unfold bind at 1, of_option. rewrite Hps.
        unfold bind at 1. rewrite Hemit. exact Hb.
    + destruct (IH g e Hp Hrest) as (pools' & c & e' & Hrun & Hb & Hp').
      unfold bind at 1. rewrite Hrun. exists pools', c, e'.
      split; [reflexivity|]. split; assumption.
Qed.

Lemma checkCollisions_run (g : Game) (e : Env) :
  game_wf g ->
  let basket := playerBasket g in
  let caught := List.filter (collides basket) (fallingOrbs g) in
  exists pools' c e',
    checkCollisions g e =
      Some (set_fallingOrbs
              (List.filter (fun o => negb (collides basket o)) (fallingOrbs g))
              (set_particleSystems pools'
                 (set_lastDestroyedOrbColor c
                    (set_score
                       (score g
                        + 5 * Z.of_nat (length (List.filter (matches basket) caught))
                        - 2 * Z.of_nat (length (List.filter
                                   (fun o => negb (matches basket o)) caught)))
                       g))),
            e') /\
    emit_bursts basket caught (particleSystems g) e = Some (pools', e') /\
    pools_wf pools'.
Proof.
  intros (Hp & Ho & Hb) basket caught.
  destruct (collide_loop_spec basket (fallingOrbs g) g e Hp Ho)
    as (pools' & c & e' & Hrun & Hbursts & Hp').
  exists pools', c, e'. unfold checkCollisions, bind. fold basket.
  rewrite Hrun. split; [reflexivity|]. split; assumption.
Qed.

(** *** The frame *)

Lemma update_pools_wf (dt : F) (g : Game) :
  game_wf g -> game_wf (update_pools dt g).
Proof.
  intros ([Hlen Hall] & Ho & Hb). split; [|split]; simpl; try assumption.
  split.
  - rewrite length_fmap. assumption.
  - apply Forall_fmap. eapply Forall_impl; [exact Hall|].
    intros ps Hps. apply ParticleSystem_update_wf. assumption.
Qed.

Lemma check_thresholds_wf (g : Game) :
  game_wf g -> game_wf (check_thresholds g).
Proof.
  intros (Hp & Ho & Hb). unfold check_thresholds.
  destruct (score g <=? -5)%Z; simpl;
    match goal with |- context [if ?c then _ else _] => destruct c end;
    split_wf; solve [assumption | constructor].
Qed.

Lemma check_thresholds_spec (g : Game) :
  m_currentState g = RUNNING ->
  score (check_thresholds g) = score g /\
  m_currentState (check_thresholds g) = threshold_state (score g) /\
  particleSystems (check_thresholds g) = particleSystems g /\
  (m_currentState (check_thresholds g) <> RUNNING ->
   fallingOrbs (check_thresholds g) = []).
Proof.
  intros Hs. unfold check_thresholds, threshold_state.
  destruct (Z.leb_spec (score g) (-5)); simpl;
    destruct (Z.geb_spec (score g) 100); simpl; try lia;
    repeat split; auto; congruence.
Qed.

Lemma spawn_defined_after_passes (dt : F) (g : Game) orbs pools :
  spawn_defined dt
    (offscreen_pass (set_fallingOrbs orbs (set_particleSystems pools g)))
  = spawn_defined dt g.
Proof.
  destruct (offscreen_pass_spec
              (set_fallingOrbs orbs (set_particleSystems pools g))) as [c ->].
  reflexivity.
Qed.

Lemma Game_update_undefined (dt : F) (g : Game) (e : Env) :
  game_wf g -> m_currentState g = RUNNING -> spawn_defined dt g = false ->
  Game_update dt g e = None.
Proof.
  intros Hwf Hs Hd.
  destruct (advance_orbs_spec dt g e Hwf) as (orbs1 & pools1 & e1 & H1 & _).
  unfold Game_update. rewrite Hs. unfold bind at 1. rewrite H1.
  unfold bind at 1. rewrite spawn_step_undefined; [reflexivity|].
  rewrite spawn_defined_after_passes. exact Hd.
Qed.

Lemma Game_update_running (dt : F) (g : Game) (e : Env) :
  game_wf g -> m_currentState g = RUNNING -> spawn_defined dt g = true ->
  exists g1 e1 g3 e3 g4 e4,
    advance_orbs dt g e = Some (g1, e1) /\
    spawn_step dt (offscreen_pass g1) e1 = Some (g3, e3) /\
    checkCollisions g3 e3 = Some (g4, e4) /\
    Game_update dt g e = Some (check_thresholds (update_pools dt g4), e4) /\
    game_wf g4 /\ m_currentState g4 = RUNNING /\
    score g1 = score g /\ score g3 = score (offscreen_pass g1) /\
    playerBasket g3 = playerBasket g /\
    orbSpawnTimer g4 = orbSpawnTimer g3 /\
    game_wf g1 /\ game_wf g3.
Proof.
  intros Hwf Hs Hd.
  destruct (advance_orbs_spec dt g e Hwf) as (orbs1 & pools1 & e1 & H1 & Hwf1).
  rewrite <- (spawn_defined_after_passes dt g orbs1 pools1) in Hd.
  set (g1 := set_fallingOrbs orbs1 (set_particleSystems pools1 g)) in *.
  pose proof (offscreen_pass_wf g1 Hwf1) as Hwf2.
  destruct (offscreen_pass_spec g1) as [c2 H2].
  destruct (spawn_step_spec dt (offscreen_pass g1) e1 Hwf2 Hd)
    as (orbs3 & t3 & r3 & e3 & H3 & Hwf3).
  set (g3 := set_fallingOrbs orbs3 _) in *.
  destruct (checkCollisions_run g3 e3 Hwf3) as (pools4 & c4 & e4 & H4 & _ & Hp4).
  match type of H4 with _ = Some (?x, _) => set (g4 := x) in * end.
  exists g1, e1, g3, e3, g4, e4.
  assert (game_wf g4) as Hwf4.
  { destruct Hwf3 as (_ & Ho3 & Hb3). split; [|split]; simpl; try assumption.
    apply Forall_filter_bool. assumption. }
  repeat (split; [first [assumption | reflexivity] |]).
  split.
  { unfold Game_update. rewrite Hs. unfold bind. rewrite H1.
    fold g1. rewrite H3, H4. reflexivity. }
  split; [assumption|]. split.
  { unfold g4, g3; simpl. rewrite H2. simpl. assumption. }
  split; [reflexivity|]. split; [reflexivity|]. split.
  { unfold g3; simpl. rewrite H2. reflexivity. }
  split; [reflexivity|]. split; assumption.
Qed.

Lemma Game_update_terminal (dt : F) (g : Game) (e : Env) :
  m_currentState g <> RUNNING ->
  Game_update dt g e = Some (update_pools dt g, e).
Proof.
  intros Hs. unfold Game_update. destruct (m_currentState g);
    [congruence|reflexivity|reflexivity].
Qed.

Lemma check_thresholds_keeps (g : Game) :
  playerBasket (check_thresholds g) = playerBasket g /\
  screenWidth (check_thresholds g) = screenWidth g /\
  screenHeight (check_thresholds g) = screenHeight g /\
  orbSpawnInterval (check_thresholds g) = orbSpawnInterval g /\
  orbFallSpeed (check_thresholds g) = orbFallSpeed g /\
  basketBottomMargin (check_thresholds g) = basketBottomMargin g.
Proof.
  unfold check_thresholds. destruct (score g <=? -5)%Z; simpl;
    match goal with |- context [if ?c then _ else _] => destruct c end;
    simpl; repeat split; reflexivity.
Qed.

(** A frame is undefined exactly when the game runs and its spawn step is
    undefined; a frame that is defined keeps the invariant and the
    settings of the game. *)
Lemma Game_update_cases (dt : F) (g : Game) (e : Env) :
  game_wf g ->
  (m_currentState g = RUNNING /\ spawn_defined dt g = false /\
   Game_update dt g e = None) \/
  ((m_currentState g = RUNNING -> spawn_defined dt g = true) /\
   exists g' e',
     Game_update dt g e = Some (g', e') /\ game_wf g' /\
     playerBasket g' = playerBasket g /\
     screenWidth g' = screenWidth g /\
     screenHeight g' = screenHeight g /\
     orbSpawnInterval g' = orbSpawnInterval g /\
     orbFallSpeed g' = orbFallSpeed g /\
     basketBottomMargin g' = basketBottomMargin g).
Proof.
  intros Hwf. destruct (decide (m_currentState g = RUNNING)) as [Hs|Hs].
  - destruct (spawn_defined dt g) eqn:Hd.
    + right. split; [reflexivity|].
      pose proof Hd as Hd0.
      destruct (advance_orbs_spec dt g e Hwf)
        as (orbs1 & pools1 & e1 & H1 & Hwf1).
      rewrite <- (spawn_defined_after_passes dt g orbs1 pools1) in Hd.
      set (g1 := set_fallingOrbs orbs1 (set_particleSystems pools1 g)) in *.
      pose proof (offscreen_pass_wf g1 Hwf1) as Hwf2.
      destruct (offscreen_pass_spec g1) as [c2 H2].
      destruct (spawn_step_spec dt (offscreen_pass g1) e1 Hwf2 Hd)
        as (orbs3 & t3 & r3 & e3 & H3 & Hwf3).
      set (g3 := set_fallingOrbs orbs3 _) in *.
      destruct (checkCollisions_run g3 e3 Hwf3)
        as (pools4 & c4 & e4 & H4 & _ & Hp4).
      match type of H4 with _ = Some (?x, _) => set (g4 := x) in * end.
      assert (game_wf g4) as Hwf4.
      { destruct Hwf3 as (_ & Ho3 & Hb3). split; [|split]; simpl; try assumption.
        apply Forall_filter_bool. assumption. }
      exists (check_thresholds (update_pools dt g4)), e4. split.
      { unfold Game_update. rewrite Hs. unfold bind. rewrite H1.
        fold g1. rewrite H3, H4. reflexivity. }
      split; [apply check_thresholds_wf, update_pools_wf, Hwf4|].
      destruct (check_thresholds_keeps (update_pools dt g4))
        as (-> & -> & -> & -> & -> & ->).
      unfold g4, g3. simpl. rewrite H2. simpl. repeat split; reflexivity.
    + left. split; [exact Hs|]. split; [reflexivity|].
      apply Game_update_undefined; assumption.
  - right. split; [congruence|].
    rewrite (Game_update_terminal dt g e Hs). eexists _, _.
    split; [reflexivity|]. split; [apply update_pools_wf, Hwf|].
    simpl. repeat split; reflexivity.
Qed.

Lemma Game_update_wf (dt : F) (g : Game) (e : Env) :
  game_wf g -> (m_currentState g = RUNNING -> spawn_defined dt g = true) ->
  exists g' e', Game_update dt g e = Some (g', e') /\ game_wf g' /\
                screenWidth g' = screenWidth g.
Proof.
  intros Hwf Hd.
  destruct (Game_update_cases dt g e Hwf)
    as [(Hs & Hn & _) | (_ & g' & e' & Hu & Hwf' & _ & Hw & _)].
  - rewrite (Hd Hs) in Hn. discriminate.
  - exists g', e'. auto.
Qed.

Lemma Game_update_inv (dt : F) (g : Game) (e : Env) g' e' :
  game_wf g -> Game_update dt g e = Some (g', e') -> game_wf g'.
Proof.
  intros Hwf Hu.
  destruct (Game_update_cases dt g e Hwf)
    as [(_ & _ & Hn) | (_ & g2 & e2 & Hu2 & Hwf2 & _)].
  - rewrite Hn in Hu. discriminate.
  - rewrite Hu2 in Hu. injection Hu as <- _. exact Hwf2.
Qed.

(** *** The other operations *)

Lemma changeType_in_range t d :
  type_in_range t -> d = 1 \/ d = -1 ->
  Z.rem (t + d + NUM_ELEMENT_TYPES) NUM_ELEMENT_TYPES
    = (t + d + NUM_ELEMENT_TYPES) mod NUM_ELEMENT_TYPES /\
  type_in_range (Z.rem (t + d + NUM_ELEMENT_TYPES) NUM_ELEMENT_TYPES).
Proof.
  unfold type_in_range, NUM_ELEMENT_TYPES. intros Ht Hd.
  rewrite Z.rem_mod_nonneg by lia.
  split; [reflexivity|]. apply Z.mod_pos_bound. lia.
Qed.

Lemma resetGame_wf (g : Game) : game_wf g -> game_wf (resetGame g).
Proof.
  intros (Hp & Ho & Hb). split; [|split]; simpl.
  - assumption.
  - constructor.
  - unfold type_in_range, EARTH, NUM_ELEMENT_TYPES. lia.
Qed.

Lemma processInput_wf keys (dt : F) (g : Game) :
  game_wf g -> game_wf (processInput keys dt g).
Proof.
  intros Hwf. unfold processInput.
  destruct (m_currentState g);
    [|destruct (key_R keys); [apply resetGame_wf|]; assumption ..].
  destruct Hwf as (Hp & Ho & Hb).
  destruct (key_A keys), (key_D keys); simpl;
    repeat match goal with |- context [if ?c then _ else _] => destruct c end;
    split_wf; assumption.
Qed.

Lemma scrollCallback_wf (y : F) (g : Game) :
  game_wf g -> game_wf (scrollCallback y g).
Proof.
  intros (Hp & Ho & Hb). unfold scrollCallback.
  destruct (m_currentState g); [|split; [|split]; assumption ..].
  repeat match goal with |- context [if ?c then _ else _] => destruct c end;
    (split; [|split]; simpl; try assumption);
    apply changeType_in_range; auto.
Qed.

Lemma setScreenDimensions_wf w h (g : Game) :
  game_wf g -> game_wf (setScreenDimensions w h g).
Proof. intros (Hp & Ho & Hb). split; [|split]; simpl; assumption. Qed.

Lemma run_op_inv (op : @Op F) (g : Game) (e : Env) g' e' :
  game_wf g -> run_op op g e = Some (g', e') -> game_wf g'.
Proof.
  intros Hwf Hrun. destruct op; simpl in Hrun;
    try (injection Hrun as <- _).
  - apply processInput_wf, Hwf.
  - eapply Game_update_inv; eassumption.
  - apply scrollCallback_wf, Hwf.
  - apply setScreenDimensions_wf, Hwf.
  - apply resetGame_wf, Hwf.
Qed.

Lemma run_ops_inv (ops : list (@Op F)) (g : Game) (e : Env) g' e' :
  game_wf g -> run_ops ops g e = Some (g', e') -> game_wf g'.
Proof.
  revert g e. induction ops as [|op ops IH]; intros g e Hwf Hrun;
    simpl in Hrun.
  - injection Hrun as <- _. exact Hwf.
  - unfold bind in Hrun. destruct (run_op op g e) as [[g1 e1]|] eqn:H1;
      [|discriminate].
    eapply IH; [|exact Hrun]. eapply run_op_inv; eassumption.
Qed.

Lemma processInput_width keys (dt : F) (g : Game) :
  screenWidth (processInput keys dt g) = screenWidth g.
Proof.
  unfold processInput.
  destruct (m_currentState g); [|destruct (key_R keys); reflexivity ..].
  destruct (key_A keys), (key_D keys); simpl;
    repeat match goal with |- context [if ?c then _ else _] => destruct c end;
    reflexivity.
Qed.

Lemma scrollCallback_width (y : F) (g : Game) :
  screenWidth (scrollCallback y g) = screenWidth g.
Proof.
  unfold scrollCallback. destruct (m_currentState g); [|reflexivity ..].
  repeat match goal with |- context [if ?c then _ else _] => destruct c end;
    reflexivity.
Qed.

(** An operation on a game whose window is wide enough for [spawnOrb] is
    defined, unless it makes the window too narrow. *)
Lemma run_op_wf (op : @Op F) (g : Game) (e : Env) :
  game_wf g -> xDist_ok (screenWidth g) = true -> resize_ok op = true ->
  exists g' e', run_op op g e = Some (g', e') /\ game_wf g' /\
                xDist_ok (screenWidth g') = true.
Proof.
  intros Hwf Hw Hop. destruct op; simpl in *.
  - eexists _, _. split; [reflexivity|].
    split; [apply processInput_wf, Hwf|]. rewrite processInput_width. exact Hw.
  - destruct (Game_update_wf deltaTime g e Hwf) as (g' & e' & Hu & Hwf' & Hw').
    { intros _. unfold spawn_defined. rewrite Hw. apply orb_true_r. }
    exists g', e'. rewrite Hw'. auto.
  - eexists _, _. split; [reflexivity|].
    split; [apply scrollCallback_wf, Hwf|]. rewrite scrollCallback_width.
    exact Hw.
  - eexists _, _. split; [reflexivity|].
    split; [apply setScreenDimensions_wf, Hwf|exact Hop].
  - eexists _, _. split; [reflexivity|].
    split; [apply resetGame_wf, Hwf|exact Hw].
Qed.

Lemma run_ops_wf (ops : list (@Op F)) (g : Game) (e : Env) :
  game_wf g -> xDist_ok (screenWidth g) = true ->
  forallb resize_ok ops = true ->
  exists g' e', run_ops ops g e = Some (g', e') /\ game_wf g'.
Proof.
  revert g e. induction ops as [|op ops IH]; intros g e Hwf Hw Hops; simpl.
  - exists g, e. split; [reflexivity|assumption].
  - simpl in Hops. apply andb_true_iff in Hops as [Hop Hops].
    destruct (run_op_wf op g e Hwf Hw Hop) as (g1 & e1 & H1 & Hwf1 & Hw1).
    unfold bind. rewrite H1. apply IH; assumption.
Qed.

Lemma Game_new_width (w h : Z) (e : Env) g e' :
  Game_new w h e = Some (g, e') -> screenWidth g = w.
Proof.
  unfold Game_new, bind, lift, ret. destruct (random_device e) as [gen e1].
  intros [= <- _]. reflexivity.
Qed.

Lemma Game_new_wf (w h : Z) (e : Env) :
  exists g e', Game_new w h e = Some (g, e') /\ game_wf g /\
               m_currentState g = RUNNING /\ score g = 0 /\
               fallingOrbs g = [].
Proof.
  unfold Game_new, bind, lift, ret. destruct (random_device e) as [gen e1].
  eexists _, _. split; [reflexivity|]. split; [|auto].
  assert (ps_wf (ParticleSystem_new (F:=F) 500)) as Hps.
  { apply ParticleSystem_new_wf. unfold INT_MAX. lia. }
  split; [|split]; simpl.
  - split; [reflexivity|]. repeat (constructor; [exact Hps|]). constructor.
  - constructor.
  - unfold type_in_range, EARTH, NUM_ELEMENT_TYPES. lia.
Qed.

(** ** The properties *)

(** C5.  A pool built by the constructor holds [maxParticles] slots after any
    sequence of [emit] and [update] calls, so at most [maxParticles] of them
    are active, and every such sequence runs without a read outside the
    vector.  A further [emit] on such a pool keeps the number of slots,
    leaves every slot that was active untouched, activates as many inactive
    slots as were asked for and are free, and changes nothing at all when
    no slot is inactive. *)
Theorem pool_capacity_invariant
    (maxP : Z) (ops : list (@PoolOp F)) (position : vec3) (count : Z)
    (type : ElementType) (e : Env) :
  0 <= maxP <= INT_MAX ->
  exists ps e1,
    run_pool_ops ops (ParticleSystem_new maxP) e = Some (ps, e1) /\
    length (particles ps) = Z.to_nat maxP /\
    (active_count ps <= Z.to_nat maxP)%nat /\
    exists ps' e2,
      emit position count type ps e1 = Some (ps', e2) /\
      length (particles ps') = Z.to_nat maxP /\
      (active_count ps' <= Z.to_nat maxP)%nat /\
      active_count ps' =
        Nat.min (Z.to_nat maxP) (active_count ps + Z.to_nat count) /\
      (forall (k : nat) p, particles ps !! k = Some p -> p_active p = true ->
                           particles ps' !! k = Some p) /\
      (active_count ps = Z.to_nat maxP -> ps' = ps).
Proof.
  intros Hmax.
  assert (forall ops (ps : ParticleSystem) e,
             ps_wf ps ->
             exists ps' e', run_pool_ops ops ps e = Some (ps', e') /\
                            ps_wf ps' /\ maxParticles ps' = maxParticles ps)
    as Hrun.
  { clear. induction ops as [|op ops IH]; intros ps e Hwf; simpl.
    - exists ps, e. auto.
    - unfold bind. destruct op as [pos c t|dt]; simpl.
      + destruct (emit_spec pos c t ps e Hwf) as (ps1 & -> & Hwf1 & Hm1 & _).
        destruct (IH ps1 (snd (random_device e)) Hwf1)
          as (ps' & e' & Hr & Hwf' & Hm').
        exists ps', e'. split; [assumption|]. split; [assumption|congruence].
      + destruct (IH (ParticleSystem_update dt ps) e
                    (ParticleSystem_update_wf dt ps Hwf))
          as (ps' & e' & Hr & Hwf' & Hm').
        exists ps', e'. split; [assumption|]. split; [assumption|].
        rewrite Hm'. reflexivity. }
  destruct (Hrun ops (ParticleSystem_new maxP) e (ParticleSystem_new_wf maxP Hmax))
    as (ps & e1 & Hr & Hwf & Hm).
  simpl in Hm. exists ps, e1. split; [assumption|].
  assert (length (particles ps) = Z.to_nat maxP) as Hlen.
  { destruct Hwf as (_ & Hl & _). rewrite Hl, Hm. reflexivity. }
  split; [assumption|].
  pose proof (active_count_le ps) as Hle. split; [lia|].
  destruct (emit_spec position count type ps e1 Hwf)
    as (ps' & Hemit & Hwf' & Hm' & Hkeep & Hcnt & Hfull).
  assert (length (particles ps') = Z.to_nat maxP) as Hlen'.
  { destruct Hwf' as (_ & Hl & _). rewrite Hl, Hm', Hm. reflexivity. }
  exists ps', (snd (random_device e1)). split; [assumption|].
  split; [assumption|].
  pose proof (active_count_le ps') as Hle'. split; [lia|].
  split; [rewrite Hcnt, Hlen; reflexivity|]. split.
  - intros k p Hk Hp.
    pose proof (Hkeep (Z.of_nat k) p) as H. rewrite !vector_at_Some in H.
    rewrite Nat2Z.id in H. apply H; [split; [lia|assumption]|assumption].
  - intros Hall. apply Hfull. lia.
Qed.

(** C9, as amended.  One iteration of the loop of [emit] visits the slots in
    cyclic order starting at [lastUsedParticle] itself, the slot activated
    last (index 0 in a fresh pool), not at the index after it.  The first
    inactive slot met is re-initialised, made active and recorded in
    [lastUsedParticle], every other slot is left as it was; when the whole
    round meets no inactive slot the pool and the generator are left
    unchanged. *)
Theorem emit_scans_from_last_used
    (position : vec3) (type : ElementType) (ps : ParticleSystem) (gen : Rng) :
  ps_wf ps ->
  match code_slot_choice ps with
  | Some i =>
      (exists d, 0 <= d < maxParticles ps /\
         i = (lastUsedParticle ps + d) mod maxParticles ps /\
         is_active (particles ps) i = false /\
         forall d', 0 <= d' < d ->
           is_active (particles ps)
                     ((lastUsedParticle ps + d') mod maxParticles ps) = true) /\
      exists p' gen',
        emit_one position type ps gen =
          Some (set_particles (<[Z.to_nat i := p']> (particles ps))
                              (set_lastUsedParticle i ps), gen') /\
        p_active p' = true
  | None =>
      (forall k, 0 <= k < maxParticles ps ->
                 is_active (particles ps) k = true) /\
      emit_one position type ps gen = Some (ps, gen)
  end.
Proof.
  intros Hwf. pose proof (emit_one_spec position type ps gen Hwf) as H.
  destruct (code_slot_choice ps) as [i|] eqn:Hc.
  - destruct H as (Hi & Hina & Hrun). split; [|exact Hrun].
    unfold code_slot_choice, cyclic_first_inactive in Hc.
    assert (0 < maxParticles ps) as Hpos by lia.
    destruct (cyclic_from_Some _ _ _ _ _ _ Hpos Hc)
      as (_ & _ & d & Hd & -> & Hall).
    exists d. destruct Hwf as (Hmax & _). split; [lia|].
    split; [reflexivity|]. split; [assumption|]. exact Hall.
  - split; [|exact H]. apply (cyclic_first_inactive_None _ _ _ Hc).
Qed.

(** C1.  The collision pass of a frame removes from the live orbs exactly
    those whose box overlaps the basket's.  The score rises by 5 for each
    caught orb of the basket's element and changes by -2 for each other
    caught orb; the pools receive one burst per caught orb, in order, each
    into the pool of the orb's element: 50 particles for a matching orb, 20
    otherwise.  For one catch: the score changes by 5 or by -2, only the
    pool of the orb's element changes, and the number of its active slots
    grows by the size of the burst, up to the capacity of the pool. *)
Theorem checkCollisions_catches (g : Game) (e : Env) :
  game_wf g ->
  let basket := playerBasket g in
  let caught := List.filter (collides basket) (fallingOrbs g) in
  (exists g' e',
     checkCollisions g e = Some (g', e') /\
     fallingOrbs g' =
       List.filter (fun o => negb (collides basket o)) (fallingOrbs g) /\
     score g' =
       score g
       + 5 * Z.of_nat (length (List.filter (matches basket) caught))
       - 2 * Z.of_nat (length (List.filter
                                 (fun o => negb (matches basket o)) caught)) /\
     emit_bursts basket caught (particleSystems g) e
       = Some (particleSystems g', e') /\
     playerBasket g' = basket /\
     m_currentState g' = m_currentState g) /\
  (forall (orb : Orb) (g0 : Game) (e0 : Env),
     pools_wf (particleSystems g0) -> type_in_range (o_type orb) ->
     exists ps ps' g1 e1,
       vector_at (particleSystems g0) (o_type orb) = Some ps /\
       catch basket orb g0 e0 = Some (g1, e1) /\
       score g1 = score g0 + (if matches basket orb then 5 else -2) /\
       particleSystems g1 =
         <[Z.to_nat (o_type orb) := ps']> (particleSystems g0) /\
       active_count ps' =
         Nat.min (length (particles ps))
                 (active_count ps + if matches basket orb then 50 else 20)).
Proof.
  intros Hwf basket caught. split.
  - destruct (checkCollisions_run g e Hwf) as (pools' & c & e' & Hrun & Hb & _).
    eexists _, e'. split; [exact Hrun|]. simpl.
    repeat (split; [reflexivity|]). split; [exact Hb|]. split; reflexivity.
  - intros orb g0 e0 Hp Ht.
    destruct (catch_spec basket orb g0 e0 Hp Ht)
      as (ps & ps' & Hps & Hemit & Hwfps & _ & Hcatch).
    destruct (emit_spec (o_position orb) (burst_size basket orb) (o_type orb)
                ps e0 Hwfps) as (ps2 & Hemit2 & _ & _ & _ & Hcnt & _).
    rewrite Hemit in Hemit2. injection Hemit2 as <-.
    eexists ps, ps', _, _. split; [exact Hps|]. split; [exact Hcatch|].
    simpl. split; [reflexivity|]. split; [reflexivity|].
    rewrite Hcnt. unfold burst_size.
    destruct (matches basket orb); reflexivity.
Qed.

(** C2.  In a running frame the threshold tests read the score that results
    from all the events of the frame: the off-screen pass on the advanced
    orbs, then the collision pass.  The state the frame ends in is the one
    the thresholds assign to that score: won when it is at least 100, lost
    when it is at most -5, running otherwise.  This holds of every running
    frame whose spawn step is defined, that is, unless an orb is due in a
    window too narrow for [spawnOrb].  In a terminal state the update tests
    nothing: state and score stay. *)
Theorem thresholds_same_frame (dt : F) (g : Game) (e : Env) :
  game_wf g ->
  (m_currentState g = RUNNING -> spawn_defined dt g = true ->
   exists g1 e1 g3 e3 g4 e4 g',
     advance_orbs dt g e = Some (g1, e1) /\
     spawn_step dt (offscreen_pass g1) e1 = Some (g3, e3) /\
     checkCollisions g3 e3 = Some (g4, e4) /\
     Game_update dt g e = Some (g', e4) /\
     g' = check_thresholds (update_pools dt g4) /\
     score g' = score g4 /\
     score g4 =
       score g
       - 2 * Z.of_nat (length (List.filter
               (isOffScreen (- (f_of_int (screenHeight g1) / f_lit 2))%F)
               (fallingOrbs g1)))
       + 5 * Z.of_nat (length (List.filter (matches (playerBasket g3))
               (List.filter (collides (playerBasket g3)) (fallingOrbs g3))))
       - 2 * Z.of_nat (length (List.filter
               (fun o => negb (matches (playerBasket g3) o))
               (List.filter (collides (playerBasket g3)) (fallingOrbs g3)))) /\
     m_currentState g' = threshold_state (score g') /\
     (100 <= score g' -> m_currentState g' = GAME_OVER_WIN) /\
     (score g' <= -5 -> m_currentState g' = GAME_OVER_LOSE) /\
     (-5 < score g' < 100 -> m_currentState g' = RUNNING)) /\
  (m_currentState g <> RUNNING ->
   exists g', Game_update dt g e = Some (g', e) /\
              m_currentState g' = m_currentState g /\ score g' = score g).
Proof.
  intros Hwf. split.
  - intros Hs Hd.
    destruct (Game_update_running dt g e Hwf Hs Hd)
      as (g1 & e1 & g3 & e3 & g4 & e4 & H1 & H3 & H4 & Hu & Hwf4 & Hs4
          & Hsc1 & Hsc3 & _ & _ & _ & Hwf3).
    exists g1, e1, g3, e3, g4, e4, (check_thresholds (update_pools dt g4)).
    repeat (split; [assumption|]). split; [reflexivity|].
    destruct (check_thresholds_spec (update_pools dt g4) Hs4)
      as (Hsc & Hst & _).
    simpl in Hsc, Hst. split; [exact Hsc|]. split.
    { destruct (checkCollisions_run g3 e3 Hwf3) as (p & c & e' & Hrun & _).
      rewrite H4 in Hrun. injection Hrun as -> _. simpl.
      rewrite Hsc3. destruct (offscreen_pass_spec g1) as [c1 ->]. simpl.
      rewrite Hsc1. reflexivity. }
    rewrite Hsc. split; [exact Hst|]. rewrite Hst. unfold threshold_state.
    destruct (Z.geb_spec (score g4) 100); destruct (Z.leb_spec (score g4) (-5));
      repeat split; intros; solve [reflexivity | lia].
  - intros Hs. rewrite (Game_update_terminal dt g e Hs).
    eexists. split; [reflexivity|]. split; reflexivity.
Qed.

(** C3.  The off-screen pass removes exactly the orbs for which
    [isOffScreen] holds, takes 2 from the score for each of them, the
    penalty of a mismatched catch, and leaves every pool as it is: the pass
    reads no generator and emits nothing.  In a running frame it runs on the
    advanced orbs, and the spawn step and then the collision pass work on
    its result, for every frame whose spawn step is defined. *)
Theorem offscreen_miss_penalty (dt : F) (g : Game) (e : Env) :
  (let bottom := (- (f_of_int (screenHeight g) / f_lit 2))%F in
   fallingOrbs (offscreen_pass g) =
     List.filter (fun o => negb (isOffScreen bottom o)) (fallingOrbs g) /\
   score (offscreen_pass g) =
     score g
     - 2 * Z.of_nat (length (List.filter (isOffScreen bottom) (fallingOrbs g))) /\
   particleSystems (offscreen_pass g) = particleSystems g) /\
  (game_wf g -> m_currentState g = RUNNING -> spawn_defined dt g = true ->
   exists g1 e1 g3 e3 g4 e4,
     advance_orbs dt g e = Some (g1, e1) /\
     spawn_step dt (offscreen_pass g1) e1 = Some (g3, e3) /\
     checkCollisions g3 e3 = Some (g4, e4) /\
     Game_update dt g e = Some (check_thresholds (update_pools dt g4), e4)) /\
  (forall (basket : Basket) (orb : Orb) (g0 : Game) (e0 : Env),
     pools_wf (particleSystems g0) -> type_in_range (o_type orb) ->
     matches basket orb = false ->
     exists g1 e1, catch basket orb g0 e0 = Some (g1, e1) /\
                   score g1 = score g0 - 2).
Proof.
  split; [|split].
  - intros bottom. destruct (offscreen_pass_spec g) as [c ->]. simpl.
    repeat split; reflexivity.
  - intros Hwf Hs Hd.
    destruct (Game_update_running dt g e Hwf Hs Hd)
      as (g1 & e1 & g3 & e3 & g4 & e4 & H1 & H3 & H4 & Hu & _).
    exists g1, e1, g3, e3, g4, e4. repeat split; assumption.
  - intros basket orb g0 e0 Hp Ht Hm.
    destruct (catch_spec basket orb g0 e0 Hp Ht)
      as (ps & ps' & _ & _ & _ & _ & Hcatch).
    eexists _, _. split; [exact Hcatch|]. simpl. rewrite Hm. lia.
Qed.

(** C4.  [resetGame] sets the score to 0, empties the live orbs, sets the
    spawn timer to 0 and the state to running, puts the basket at
    horizontal position 0 and at the height the constructor computes for
    the current window, with the first element as its type, and leaves the
    pools as they are.  An operation that takes a terminal game to the
    running state has done exactly what [resetGame] does: it is the reset
    itself or the input step with the restart key down. *)
Theorem resetGame_spec (g : Game) :
  score (resetGame g) = 0 /\
  fallingOrbs (resetGame g) = [] /\
  orbSpawnTimer (resetGame g) = f_lit 0 /\
  m_currentState (resetGame g) = RUNNING /\
  b_position (playerBasket (resetGame g)) =
    Vec3 (f_lit 0) (basket_home_y (screenHeight g) (basketBottomMargin g))
         (f_lit 0) /\
  currentType (playerBasket (resetGame g)) = EARTH /\
  particleSystems (resetGame g) = particleSystems g /\
  (forall (e : Env) g0 e',
     Game_new (screenWidth g) (screenHeight g) e = Some (g0, e') ->
     basketBottomMargin g = basketBottomMargin g0 ->
     b_position (playerBasket (resetGame g)) = b_position (playerBasket g0) /\
     currentType (playerBasket (resetGame g)) = currentType (playerBasket g0)) /\
  (forall (op : @Op F) (e : Env) g' e',
     m_currentState g <> RUNNING ->
     run_op op g e = Some (g', e') ->
     m_currentState g' = RUNNING ->
     g' = resetGame g /\
     (op = OpReset \/
      exists keys dt, op = OpProcessInput keys dt /\ key_R keys = true)).
Proof.
  repeat (split; [reflexivity|]). split.
  - intros e g0 e' Hnew Hmargin. unfold Game_new, bind, lift, ret in Hnew.
    destruct (random_device e) as [gen e1]. injection Hnew as <- _.
    simpl in *. rewrite Hmargin. split; reflexivity.
  - intros op e g' e' Hs Hrun Hs'. destruct op as [keys dt|dt|y|w h|]; simpl in Hrun.
    + injection Hrun as <- _. unfold processInput in *.
      destruct (m_currentState g) eqn:Hst; [congruence| |];
        (destruct (key_R keys) eqn:HR; [|congruence]);
        (split; [reflexivity|right; eauto]).
    + rewrite (Game_update_terminal dt g e Hs) in Hrun.
      injection Hrun as <- _. simpl in Hs'. congruence.
    + injection Hrun as <- _. unfold scrollCallback in Hs'.
      destruct (m_currentState g) eqn:Hst; congruence.
    + injection Hrun as <- _. simpl in Hs'. congruence.
    + injection Hrun as <- _. split; [reflexivity|left; reflexivity].
Qed.

(** C6.  In a terminal state [update] draws nothing from the platform and
    changes only the pools: score, live orbs, spawn timer, basket and state
    stay.  Every pool keeps its slots, and every slot is advanced by the
    time step: an inactive particle is left as it is; an active one has its
    life increased by the time step and, when the life then exceeds the
    duration, is made inactive where it is, and otherwise is moved by its
    velocity times the time step and has its velocity scaled by
    [1 - 0.5 * deltaTime].  So no slot becomes active.  A running frame
    whose spawn step is defined and that ends in a terminal state discards
    the orbs its collision pass has left; one that ends running keeps
    them. *)
Theorem terminal_update_only_advances_pools (dt : F) (g : Game) (e : Env) :
  (m_currentState g <> RUNNING ->
   exists g',
     Game_update dt g e = Some (g', e) /\
     g' = set_particleSystems (particleSystems g') g /\
     particleSystems g' = ParticleSystem_update dt <$> particleSystems g /\
     score g' = score g /\ fallingOrbs g' = fallingOrbs g /\
     orbSpawnTimer g' = orbSpawnTimer g /\
     playerBasket g' = playerBasket g /\
     m_currentState g' = m_currentState g /\
     length (particleSystems g') = length (particleSystems g) /\
     forall (i : nat) ps,
       particleSystems g !! i = Some ps ->
       exists ps',
         particleSystems g' !! i = Some ps' /\
         lastUsedParticle ps' = lastUsedParticle ps /\
         maxParticles ps' = maxParticles ps /\
         length (particles ps') = length (particles ps) /\
         (active_count ps' <= active_count ps)%nat /\
         forall (k : nat) p,
           particles ps !! k = Some p ->
           exists p',
             particles ps' !! k = Some p' /\
             p_duration p' = p_duration p /\ p_color p' = p_color p /\
             p_size p' = p_size p /\
             if p_active p then
               p_life p' = (p_life p + dt)%F /\
               if (p_life p + dt >? p_duration p)%F then
                 p_active p' = false /\
                 p_position p' = p_position p /\
                 p_velocity p' = p_velocity p
               else
                 p_active p' = true /\
                 p_position p' =
                   vec3_add (p_position p) (vec3_scale (p_velocity p) dt) /\
                 p_velocity p' =
                   vec3_scale (p_velocity p) (f_lit 1 - f_lit 0.5 * dt)%F
             else p' = p) /\
  (forall (ps : ParticleSystem) k,
     is_active (particles (ParticleSystem_update dt ps)) k = true ->
     is_active (particles ps) k = true) /\
  (game_wf g -> m_currentState g = RUNNING -> spawn_defined dt g = true ->
   exists g1 e1 g3 e3 g4 e4 g',
     advance_orbs dt g e = Some (g1, e1) /\
     spawn_step dt (offscreen_pass g1) e1 = Some (g3, e3) /\
     checkCollisions g3 e3 = Some (g4, e4) /\
     Game_update dt g e = Some (g', e4) /\
     (m_currentState g' <> RUNNING -> fallingOrbs g' = []) /\
     (m_currentState g' = RUNNING -> fallingOrbs g' = fallingOrbs g4)).
Proof.
  split; [|split].
  - intros Hs. rewrite (Game_update_terminal dt g e Hs).
    exists (update_pools dt g). split; [reflexivity|]. simpl.
    do 7 (split; [reflexivity|]). split; [apply length_fmap|].
    intros i ps Hi. exists (ParticleSystem_update dt ps).
    split; [rewrite list_lookup_fmap, Hi; reflexivity|].
    split; [reflexivity|]. split; [reflexivity|].
    split; [apply length_fmap|].
    split; [apply ParticleSystem_update_active_count|].
    intros k p Hk. exists (Particle_update dt p).
    split; [simpl; rewrite list_lookup_fmap, Hk; reflexivity|].
    unfold Particle_update. destruct (p_active p); [|auto].
    destruct (p_life p + dt >? p_duration p)%F; simpl; auto 10.
  - intros ps k. unfold is_active, vector_at, ParticleSystem_update. simpl.
    destruct (k <? 0)%Z; [discriminate|]. rewrite list_lookup_fmap.
    destruct (particles ps !! Z.to_nat k) as [p|]; simpl; [|discriminate].
    apply Particle_update_active.
  - intros Hwf Hs Hd.
    destruct (Game_update_running dt g e Hwf Hs Hd)
      as (g1 & e1 & g3 & e3 & g4 & e4 & H1 & H3 & H4 & Hu & _ & Hs4 & _).
    exists g1, e1, g3, e3, g4, e4, (check_thresholds (update_pools dt g4)).
    do 4 (split; [assumption|]). split.
    + apply (check_thresholds_spec (update_pools dt g4) Hs4).
    + unfold check_thresholds. simpl.
      destruct (score g4 <=? -5)%Z; simpl;
        destruct (score g4 >=? 100)%Z; simpl; intros Hr;
        solve [discriminate | reflexivity | congruence].
Qed.

(** C7.  For a basket whose type names an element and a direction of +1 or
    -1, [changeType] sets the type to [(current + direction + N) mod N],
    which again names an element, and changes no other member; four calls
    with one direction give the basket back, and fewer do not. *)
Theorem changeType_cycles (b : Basket) (d : Z) :
  type_in_range (currentType b) -> d = 1 \/ d = -1 ->
  currentType (changeType d b) =
    (currentType b + d + NUM_ELEMENT_TYPES) mod NUM_ELEMENT_TYPES /\
  type_in_range (currentType (changeType d b)) /\
  changeType d b = setType (currentType (changeType d b)) b /\
  Nat.iter (Z.to_nat NUM_ELEMENT_TYPES) (changeType d) b = b /\
  (forall k, (0 < k < Z.to_nat NUM_ELEMENT_TYPES)%nat ->
             currentType (Nat.iter k (changeType d) b) <> currentType b).
Proof.
  intros Ht Hd.
  destruct (changeType_in_range (currentType b) d Ht Hd) as [Hmod Hr].
  split; [exact Hmod|]. split; [exact Hr|]. split; [reflexivity|].
  destruct b as [pos sc t sp w h]. unfold type_in_range in Ht. simpl in Ht.
  assert (t = 0 \/ t = 1 \/ t = 2 \/ t = 3) as Hcases
    by (unfold NUM_ELEMENT_TYPES in Ht; lia).
  split.
  - destruct Hcases as [-> | [-> | [-> | ->]]]; destruct Hd as [-> | ->]; reflexivity.
  - intros k Hk. change (Z.to_nat NUM_ELEMENT_TYPES) with 4%nat in Hk.
    assert (k = 1 \/ k = 2 \/ k = 3)%nat as [->|[-> | ->]] by lia;
      destruct Hcases as [-> | [-> | [-> | ->]]]; destruct Hd as [-> | ->];
      simpl; discriminate.
Qed.

Lemma catch_undefined (basket : Basket) (orb : Orb) (g : Game) (e : Env) :
  pools_wf (particleSystems g) -> ~ type_in_range (o_type orb) ->
  vector_at (particleSystems g) (o_type orb) = None /\
  catch basket orb g e = None.
Proof.
  intros [Hlen _] Ht.
  assert (vector_at (particleSystems g) (o_type orb) = None) as Hnone.
  { unfold vector_at. destruct (Z.ltb_spec (o_type orb) 0); [reflexivity|].
    apply lookup_ge_None. rewrite Hlen. unfold type_in_range in Ht. lia. }
  split; [exact Hnone|].
  unfold catch, emit_into, bind, of_option.
  destruct (o_type orb =? currentType basket)%Z; simpl; rewrite Hnone;
    reflexivity.
Qed.

Lemma collide_loop_undefined (basket : Basket) (orbs : list Orb) (g : Game)
    (e : Env) (orb : Orb) :
  pools_wf (particleSystems g) ->
  Forall (fun o => type_in_range (o_type o) \/ ~ type_in_range (o_type o))
         orbs ->
  In orb orbs -> collides basket orb = true ->
  ~ type_in_range (o_type orb) ->
  collide_loop basket orbs g e = None.
Proof.
  intros Hp Hdec. revert g e Hp.
  induction Hdec as [|o orbs Ho _ IH]; intros g e Hp Hin Hcol Ht;
    [destruct Hin|].
  simpl. destruct (collides basket o) eqn:Hc.
  - destruct Ho as [Ho|Ho].
    + destruct (catch_spec basket o g e Hp Ho)
        as (ps & ps' & _ & _ & _ & Hwf' & Hcatch).
      unfold bind. rewrite Hcatch. apply IH; [|  |assumption ..].
      * simpl. apply pools_wf_insert; assumption.
      * destruct Hin as [->|Hin]; [contradiction|assumption].
    + unfold bind. rewrite (proj2 (catch_undefined basket o g e Hp Ho)).
      reflexivity.
  - destruct Hin as [->|Hin]; [congruence|].
    unfold bind. rewrite (IH g e Hp Hin Hcol Ht). reflexivity.
Qed.

(** C10, as amended.  [getParticleSystem] tests the index and returns the
    null pointer for a type that names no element, without reading the
    vector; no caller tests what it is handed.  An [Orb::update] that is due
    to emit calls [emit] through that null pointer, and the catch of
    [checkCollisions] indexes the vector of pools with the type of the orb
    directly: with a type that names no element both are undefined
    behaviour, not a checked failure.  Such a type never occurs: on every
    run of the game from its constructor the basket and every live orb hold
    a type that names an element and the pool looked up for an orb, through
    [getParticleSystem] or by direct indexing, exists; and every run in
    which the window is never too narrow for [spawnOrb] is defined. *)
Theorem element_index_in_range_on_every_run :
  (forall (g : Game) t, ~ type_in_range t -> getParticleSystem g t = None) /\
  (forall (g : Game) t,
     type_in_range t ->
     getParticleSystem g t = vector_at (particleSystems g) t) /\
  (forall (dt : F) (o : Orb) (g : Game) (e : Env),
     ~ type_in_range (o_type o) ->
     (m_particleEmitTimer o + dt >=? m_particleEmitInterval o)%F = true ->
     Orb_update dt true o g e = None) /\
  (forall (basket : Basket) (orb : Orb) (g : Game) (e : Env),
     pools_wf (particleSystems g) -> ~ type_in_range (o_type orb) ->
     vector_at (particleSystems g) (o_type orb) = None /\
     catch basket orb g e = None) /\
  (forall (g : Game) (e : Env) (orb : Orb),
     pools_wf (particleSystems g) -> In orb (fallingOrbs g) ->
     collides (playerBasket g) orb = true -> ~ type_in_range (o_type orb) ->
     checkCollisions g e = None) /\
  (forall (w h : Z) (ops : list (@Op F)) (e : Env) g e',
     (do g0 <- Game_new w h; run_ops ops g0) e = Some (g, e') ->
     type_in_range (currentType (playerBasket g)) /\
     Forall (fun o => type_in_range (o_type o) /\
                      is_Some (getParticleSystem g (o_type o)) /\
                      is_Some (vector_at (particleSystems g) (o_type o)))
            (fallingOrbs g)) /\
  (forall (w h : Z) (ops : list (@Op F)) (e : Env),
     xDist_ok w = true -> forallb resize_ok ops = true ->
     exists g e', (do g0 <- Game_new w h; run_ops ops g0) e = Some (g, e')).
Proof.
  split; [exact getParticleSystem_out_of_range|].
  split; [exact getParticleSystem_in_range|]. split; [|split; [|split; [|split]]].
  - intros dt o g e Ht Hdue. unfold Orb_update, bind at 1, lift at 1.
    destruct (glfwGetTime e) as [now e1]. rewrite Hdue.
    unfold with_fresh_gen, bind, lift, of_option, ret.
    destruct (random_device e1) as [gen e2]. simpl.
    destruct (uniform_real _ _ gen) as [dx gen1].
    destruct (uniform_real _ _ gen1) as [dy gen2]. simpl.
    rewrite (getParticleSystem_out_of_range g _ Ht). reflexivity.
  - exact catch_undefined.
  - intros g e orb Hp Hin Hcol Ht. unfold checkCollisions, bind.
    rewrite (collide_loop_undefined _ _ g e orb Hp); try assumption;
      [reflexivity|].
    apply Forall_forall. intros o _. unfold type_in_range.
    destruct (decide (0 <= o_type o < NUM_ELEMENT_TYPES)); auto.
  - intros w h ops e g e' Hrun.
    destruct (Game_new_wf w h e) as (g0 & e0 & Hnew & Hwf0 & _).
    unfold bind in Hrun. rewrite Hnew in Hrun.
    destruct (run_ops_inv ops g0 e0 g e' Hwf0 Hrun) as (Hp & Ho & Hb).
    split; [exact Hb|]. eapply Forall_impl; [exact Ho|].
    intros o Ht. simpl in Ht. split; [exact Ht|].
    rewrite (getParticleSystem_in_range g _ Ht).
    destruct (pools_wf_lookup _ _ Hp Ht) as (ps & -> & _). eauto.
  - intros w h ops e Hw Hops.
    destruct (Game_new_wf w h e) as (g0 & e0 & Hnew & Hwf0 & _).
    destruct (run_ops_wf ops g0 e0 Hwf0) as (g & e' & Hrun & _);
      [rewrite (Game_new_width w h e g0 e0 Hnew); exact Hw|exact Hops|].
    exists g, e'. unfold bind. rewrite Hnew. exact Hrun.
Qed.

(** Successive calls of [Orb::update]: the height after the calls is the
    height before, less [fallSpeed * dt] for each step in turn. *)
Lemma advance_many_spec (dts : list F) (gi : bool) (o : Orb) (g : Game) (e : Env) :
  (gi = true -> pools_wf (particleSystems g) /\ type_in_range (o_type o)) ->
  exists o' pools' e',
    advance_many dts gi o g e = Some (o', set_particleSystems pools' g, e') /\
    fallSpeed o' = fallSpeed o /\
    vy (o_position o') =
      fold_left (fun y dt => (y - fallSpeed o * dt)%F) dts (vy (o_position o)).
Proof.
  revert o g e. induction dts as [|dt dts IH]; intros o g e Hgi; simpl.
  - exists o, (particleSystems g), e. rewrite set_particleSystems_id. auto.
  - destruct (Orb_update_spec dt gi o g e Hgi)
      as (o1 & pools1 & e1 & Hupd & Hp1 & _ & Hty & Hfs & Hy).
    unfold bind. rewrite Hupd.
    destruct (IH o1 (set_particleSystems pools1 g) e1)
      as (o' & pools' & e' & Hrun & Hfs' & Hy').
    { intros Hgi'. destruct (Hgi Hgi') as [Hp Ht]. simpl.
      rewrite Hty. auto. }
    exists o', pools', e'. split; [exact Hrun|]. split; [congruence|].
    rewrite Hy', Hy, Hfs. reflexivity.
Qed.

End Proofs.

(** ** Descent over exact arithmetic *)

Section Exact.

Context {Rng Env : Type} (sin : Q -> Q) {PF : Platform Q Rng Env}.

Lemma fold_descent (v : Q) (dts : list Q) (y0 : Q) :
  (fold_left (fun y dt => y - v * dt) dts y0 == y0 - v * Qsum dts)%Q.
Proof.
  revert y0. induction dts as [|dt dts IH]; intros y0; simpl.
  - ring.
  - rewrite IH. ring.
Qed.

(** C8.  Over exact arithmetic, successive calls of [Orb::update] whose
    time steps sum to [T] lower the orb by [fallSpeed * T], whatever the
    steps are; a single call with [T] lowers it by the same amount. *)
Theorem orb_descent_independent_of_steps
    (dts : list Q) (gi : bool) (o : @Orb Q) (g : @Game Q Rng) (e : Env) :
  (gi = true -> pools_wf (particleSystems g) /\ type_in_range (o_type o)) ->
  exists o' g' e',
    advance_many (FO:=Q_FloatOps sin) dts gi o g e = Some (o', g', e') /\
    (vy (o_position o') == vy (o_position o) - fallSpeed o * Qsum dts)%Q /\
    exists o1 g1 e1,
      Orb_update (FO:=Q_FloatOps sin) (Qsum dts) gi o g e = Some (o1, g1, e1) /\
      (vy (o_position o1) == vy (o_position o'))%Q.
Proof.
  intros Hgi.
  destruct (advance_many_spec (FO:=Q_FloatOps sin) dts gi o g e Hgi)
    as (o' & pools' & e' & Hrun & _ & Hy).
  destruct (Orb_update_spec (FO:=Q_FloatOps sin) (Qsum dts) gi o g e Hgi)
    as (o1 & pools1 & e1 & Hupd & _ & _ & _ & _ & Hy1).
  simpl in Hy, Hy1.
  eexists _, _, _. split; [exact Hrun|]. split.
  - rewrite Hy. apply fold_descent.
  - eexists _, _, _. split; [exact Hupd|].
    rewrite Hy1, Hy. symmetry. apply fold_descent.
Qed.

End Exact.

(** ** The properties on the concrete inputs *)

Section Concrete.

Local Existing Instance QF.
Local Existing Instance Sim_Platform.

Ltac prove_type_in_range :=
  unfold type_in_range, NUM_ELEMENT_TYPES; simpl;
  unfold EARTH, WATER, FIRE, AIR; lia.
Ltac prove_ps_wf := unfold ps_wf, INT_MAX; simpl; lia.
Ltac prove_pools_wf :=
  split; simpl;
  [reflexivity | repeat (constructor; [prove_ps_wf|]); constructor].
Ltac prove_game_wf :=
  split; [prove_pools_wf
         | split; simpl;
           [repeat (constructor; [prove_type_in_range|]); constructor
           | prove_type_in_range]].

Lemma checkCollisions_catches_witness :
  game_wf sample_game /\
  exists g' e',
    checkCollisions (FO:=QF) (PF:=Sim_Platform) sample_game env0
      = Some (g', e') /\
    score g' = 3 /\
    fallingOrbs g' = [sample_orb 300%Q 200%Q WATER; sample_orb 0%Q (-500)%Q AIR].
Proof.
  assert (game_wf sample_game) as Hwf by prove_game_wf.
  split; [exact Hwf|].
  destruct (checkCollisions_catches (FO:=QF) (PF:=Sim_Platform)
              sample_game env0 Hwf)
    as [(g' & e' & Hrun & Horbs & Hscore & _) _].
  exists g', e'. split; [exact Hrun|]. split.
  - rewrite Hscore. reflexivity.
  - rewrite Horbs. reflexivity.
Defined.

Lemma thresholds_same_frame_witness :
  game_wf losing_game /\ m_currentState losing_game = RUNNING /\
  spawn_defined (FO:=QF) (1 # 100)%Q losing_game = true /\
  exists g' e',
    Game_update (FO:=QF) (PF:=Sim_Platform) (1 # 100)%Q losing_game env0
      = Some (g', e') /\
    score g' = -9 /\ m_currentState g' = GAME_OVER_LOSE.
Proof.
  assert (game_wf losing_game) as Hwf by prove_game_wf.
  split; [exact Hwf|]. split; [reflexivity|]. split; [reflexivity|].
  destruct (thresholds_same_frame (FO:=QF) (PF:=Sim_Platform)
              (1 # 100)%Q losing_game env0 Hwf) as [Hrunning _].
  destruct (Hrunning eq_refl eq_refl)
    as (g1 & e1 & g3 & e3 & g4 & e4 & g' & _ & _ & _ & Hupd & _ & _ & _ & _
        & _ & Hlose & _).
  exists g', e4. split; [exact Hupd|].
  assert (score g' = -9) as Hscore.
  { vm_compute in Hupd. injection Hupd as <- _. reflexivity. }
  split; [exact Hscore|]. apply Hlose. rewrite Hscore. lia.
Defined.

Lemma offscreen_miss_penalty_witness :
  game_wf sample_game /\ m_currentState sample_game = RUNNING /\
  spawn_defined (FO:=QF) (1 # 100)%Q sample_game = true /\
  pools_wf (particleSystems sample_game) /\
  type_in_range (o_type (sample_orb 10%Q (-300)%Q FIRE)) /\
  matches sample_basket (sample_orb 10%Q (-300)%Q FIRE) = false /\
  score (offscreen_pass (FO:=QF) sample_game) = -2 /\
  (exists g' e',
     Game_update (FO:=QF) (PF:=Sim_Platform) (1 # 100)%Q sample_game env0
       = Some (g', e')) /\
  (exists g1 e1,
     catch (FO:=QF) (PF:=Sim_Platform) sample_basket
           (sample_orb 10%Q (-300)%Q FIRE) sample_game env0 = Some (g1, e1) /\
     score g1 = score sample_game - 2).
Proof.
  assert (game_wf sample_game) as Hwf by prove_game_wf.
  assert (pools_wf (particleSystems sample_game)) as Hp by prove_pools_wf.
  assert (type_in_range (o_type (sample_orb 10%Q (-300)%Q FIRE))) as Ht
    by prove_type_in_range.
  split; [exact Hwf|]. split; [reflexivity|]. split; [reflexivity|].
  split; [exact Hp|].
  split; [exact Ht|]. split; [reflexivity|].
  destruct (offscreen_miss_penalty (FO:=QF) (PF:=Sim_Platform)
              (1 # 100)%Q sample_game env0)
    as ((_ & Hscore & _) & Horder & Hpenalty).
  split; [rewrite Hscore; reflexivity|]. split.
  - destruct (Horder Hwf eq_refl eq_refl)
      as (g1 & e1 & g3 & e3 & g4 & e4 & _ & _ & _ & Hupd).
    eexists _, _. exact Hupd.
  - exact (Hpenalty sample_basket (sample_orb 10%Q (-300)%Q FIRE)
                    sample_game env0 Hp Ht eq_refl).
Defined.

Lemma resetGame_spec_witness :
  m_currentState lost_game <> RUNNING /\
  run_op (FO:=QF) (PF:=Sim_Platform) OpReset lost_game env0
    = Some (resetGame (FO:=QF) lost_game, env0) /\
  m_currentState (resetGame (FO:=QF) lost_game) = RUNNING /\
  score (resetGame (FO:=QF) lost_game) = 0 /\
  particleSystems (resetGame (FO:=QF) lost_game) = particleSystems lost_game /\
  (OpReset (F:=Q) = OpReset \/
   exists keys dt, OpReset (F:=Q) = OpProcessInput keys dt /\
                   key_R keys = true).
Proof.
  assert (m_currentState lost_game <> RUNNING) as Hs by discriminate.
  destruct (resetGame_spec (FO:=QF) (PF:=Sim_Platform) lost_game)
    as (Hscore & _ & _ & Hstate & _ & _ & Hpools & _ & Honly).
  split; [exact Hs|]. split; [reflexivity|]. split; [exact Hstate|].
  split; [exact Hscore|]. split; [exact Hpools|].
  exact (proj2 (Honly OpReset env0 _ env0 Hs eq_refl Hstate)).
Defined.

Lemma pool_capacity_invariant_witness :
  0 <= 3 <= INT_MAX /\
  exists ps e1,
    run_pool_ops (FO:=QF) (PF:=Sim_Platform) recycle_ops
                 (ParticleSystem_new 3) env0 = Some (ps, e1) /\
    (active_count ps <= Z.to_nat 3)%nat /\
    exists ps' e2,
      emit (FO:=QF) (PF:=Sim_Platform) origin 7 WATER ps e1 = Some (ps', e2) /\
      active_count ps' = Nat.min (Z.to_nat 3) (active_count ps + Z.to_nat 7).
Proof.
  assert (0 <= 3 <= INT_MAX) as H3 by (unfold INT_MAX; lia).
  split; [exact H3|].
  destruct (pool_capacity_invariant (FO:=QF) (PF:=Sim_Platform)
              3 recycle_ops origin 7 WATER env0 H3)
    as (ps & e1 & Hrun & _ & Hle & ps' & e2 & Hemit & _ & _ & Hcnt & _).
  exists ps, e1. split; [exact Hrun|]. split; [exact Hle|].
  exists ps', e2. split; [exact Hemit|exact Hcnt].
Defined.

Lemma terminal_update_only_advances_pools_witness :
  m_currentState fading_game <> RUNNING /\
  game_wf entering_game /\ m_currentState entering_game = RUNNING /\
  spawn_defined (FO:=QF) (1 # 100)%Q entering_game = true /\
  (exists g' ps' p',
     Game_update (FO:=QF) (PF:=Sim_Platform) (1 # 2)%Q fading_game env0
       = Some (g', env0) /\
     score g' = -7 /\ fallingOrbs g' = [] /\
     particleSystems g' !! 0%nat = Some ps' /\
     particles ps' !! 0%nat = Some p' /\
     p_active p' = true /\ (p_life p' == 1 # 2)%Q /\
     (vx (p_position p') == 1 # 2)%Q /\ (vy (p_position p') == 1)%Q /\
     (vx (p_velocity p') == 3 # 4)%Q /\ (vy (p_velocity p') == 3 # 2)%Q) /\
  (exists g4 e4 g',
     (do g1 <- advance_orbs (FO:=QF) (PF:=Sim_Platform) (1 # 100)%Q
                 entering_game;
      do g3 <- spawn_step (1 # 100)%Q (offscreen_pass g1);
      checkCollisions g3) env0 = Some (g4, e4) /\
     length (fallingOrbs g4) = 1%nat /\
     Game_update (FO:=QF) (PF:=Sim_Platform) (1 # 100)%Q entering_game env0
       = Some (g', e4) /\
     m_currentState g' = GAME_OVER_LOSE /\ fallingOrbs g' = []).
Proof.
  assert (m_currentState fading_game <> RUNNING) as Hs by discriminate.
  assert (game_wf entering_game) as Hwf by prove_game_wf.
  split; [exact Hs|]. split; [exact Hwf|]. split; [reflexivity|].
  split; [reflexivity|]. split.
  - destruct (proj1 (terminal_update_only_advances_pools
                       (FO:=QF) (PF:=Sim_Platform)
                       (1 # 2)%Q fading_game env0) Hs)
      as (g' & Hu & _ & _ & Hscore & Horbs & _ & _ & _ & _ & Hpools).
    destruct (Hpools 0%nat spark_pool eq_refl)
      as (ps' & Hps' & _ & _ & _ & _ & Hslots).
    destruct (Hslots 0%nat _ eq_refl)
      as (p' & Hp' & _ & _ & _ & Hlife & Hact & Hpos & Hvel).
    exists g', ps', p'. split; [exact Hu|]. split; [exact Hscore|].
    split; [exact Horbs|]. split; [exact Hps'|]. split; [exact Hp'|].
    split; [exact Hact|]. rewrite Hlife, Hpos, Hvel.
    repeat split; reflexivity.
  - destruct (proj2 (proj2 (terminal_update_only_advances_pools
                              (FO:=QF) (PF:=Sim_Platform)
                              (1 # 100)%Q entering_game env0))
                    Hwf eq_refl eq_refl)
      as (g1 & e1 & g3 & e3 & g4 & e4 & g' & H1 & H3 & H4 & Hu & Hclear & _).
    assert ((do g1 <- advance_orbs (FO:=QF) (PF:=Sim_Platform) (1 # 100)%Q
                        entering_game;
             do g3 <- spawn_step (1 # 100)%Q (offscreen_pass g1);
             checkCollisions g3) env0 = Some (g4, e4)) as Hpasses.
    { unfold bind at 1. rewrite H1. unfold bind at 1. rewrite H3. exact H4. }
    assert (length (fallingOrbs g4) = 1%nat) as Hleft.
    { vm_compute in Hpasses. injection Hpasses as <- _. reflexivity. }
    assert (m_currentState g' = GAME_OVER_LOSE) as Hlost.
    { vm_compute in Hu. injection Hu as <- _. reflexivity. }
    exists g4, e4, g'. split; [exact Hpasses|]. split; [exact Hleft|].
    split; [exact Hu|]. split; [exact Hlost|].
    apply Hclear. rewrite Hlost. discriminate.
Defined.

Lemma changeType_cycles_witness :
  type_in_range (currentType sample_basket) /\ (-1 = 1 \/ -1 = -1) /\
  currentType (changeType (-1) sample_basket) = AIR /\
  Nat.iter 4 (changeType (-1)) sample_basket = sample_basket.
Proof.
  assert (type_in_range (currentType sample_basket)) as Ht
    by prove_type_in_range.
  assert (-1 = 1 \/ -1 = -1) as Hd by (right; reflexivity).
  split; [exact Ht|]. split; [exact Hd|].
  destruct (changeType_cycles sample_basket (-1) Ht Hd)
    as (Hty & _ & _ & Hiter & _).
  split; [rewrite Hty; reflexivity|exact Hiter].
Defined.

Lemma orb_descent_independent_of_steps_witness :
  (true = true ->
   pools_wf (particleSystems sample_game) /\
   type_in_range (o_type (sample_orb 10%Q (-300)%Q FIRE))) /\
  exists o' g' e',
    advance_many (FO:=Q_FloatOps sin_approx) (PF:=Sim_Platform)
      [(1 # 2)%Q; (1 # 4)%Q; (1 # 4)%Q] true
      (sample_orb 10%Q (-300)%Q FIRE) sample_game env0 = Some (o', g', e') /\
    (vy (o_position o') == -400)%Q.
Proof.
  assert (true = true ->
          pools_wf (particleSystems sample_game) /\
          type_in_range (o_type (sample_orb 10%Q (-300)%Q FIRE))) as Hgi.
  { intros _. split; [prove_pools_wf|prove_type_in_range]. }
  split; [exact Hgi|].
  destruct (orb_descent_independent_of_steps sin_approx (PF:=Sim_Platform)
              [(1 # 2)%Q; (1 # 4)%Q; (1 # 4)%Q] true
              (sample_orb 10%Q (-300)%Q FIRE) sample_game env0 Hgi)
    as (o' & g' & e' & Hrun & Hy & _).
  exists o', g', e'. split; [exact Hrun|]. rewrite Hy. reflexivity.
Defined.

Lemma emit_scans_from_last_used_witness :
  ps_wf small_pool /\
  code_slot_choice small_pool = Some 0 /\
  exists p' gen',
    emit_one (FO:=QF) (PF:=Sim_Platform) origin WATER small_pool 7 =
      Some (set_particles (<[Z.to_nat 0 := p']> (particles small_pool))
                          (set_lastUsedParticle 0 small_pool), gen') /\
    p_active p' = true.
Proof.
  assert (ps_wf small_pool) as Hwf by prove_ps_wf.
  split; [exact Hwf|]. split; [reflexivity|].
  pose proof (emit_scans_from_last_used (FO:=QF) (PF:=Sim_Platform)
                origin WATER small_pool 7 Hwf) as H.
  change (code_slot_choice small_pool) with (Some 0) in H.
  exact (proj2 H).
Defined.

Lemma element_index_in_range_on_every_run_witness :
  ~ type_in_range NUM_ELEMENT_TYPES /\
  getParticleSystem sample_game NUM_ELEMENT_TYPES = None /\
  xDist_ok (FO:=QF) 1024 = true /\
  forallb (resize_ok (FO:=QF))
          [OpUpdate 2%Q; OpScroll (-1)%Q; OpUpdate 2%Q] = true /\
  exists g e',
    (do g0 <- Game_new (FO:=QF) (PF:=Sim_Platform) 1024 768;
     run_ops [OpUpdate 2%Q; OpScroll (-1)%Q; OpUpdate 2%Q] g0) env0
      = Some (g, e') /\
    type_in_range (currentType (playerBasket g)) /\
    Forall (fun o => is_Some (vector_at (particleSystems g) (o_type o)))
           (fallingOrbs g).
Proof.
  assert (~ type_in_range NUM_ELEMENT_TYPES) as H4
    by (unfold type_in_range; lia).
  destruct (element_index_in_range_on_every_run (FO:=QF) (PF:=Sim_Platform))
    as (Hguard & _ & _ & _ & _ & Hruns & Hdefined).
  split; [exact H4|]. split; [exact (Hguard sample_game _ H4)|].
  split; [reflexivity|]. split; [reflexivity|].
  destruct (Hdefined 1024 768 [OpUpdate 2%Q; OpScroll (-1)%Q; OpUpdate 2%Q]
                     env0 eq_refl eq_refl) as (g & e' & Hrun).
  destruct (Hruns _ _ _ _ g e' Hrun) as [Hb Ho].
  exists g, e'. split; [exact Hrun|]. split; [exact Hb|].
  eapply Forall_impl; [exact Ho|]. intros o (_ & _ & Hlookup). exact Hlookup.
Defined.

(** C10, as stated, fails.  An orb whose type is [NUM_ELEMENT_TYPES] lies
    on the basket.  [getParticleSystem] returns the null pointer for its
    type, but no check follows: [Orb::update], due to emit, calls [emit]
    through that pointer, and the catch of [checkCollisions] reads
    [particleSystems] at index 4 of 4.  Both go on with the invalid index
    into undefined behaviour; without a game the same update is defined. *)
Lemma out_of_range_lookup_counterexample :
  ~ type_in_range (o_type rogue_orb) /\
  pools_wf (particleSystems rogue_game) /\
  collides (FO:=QF) (playerBasket rogue_game) rogue_orb = true /\
  getParticleSystem rogue_game (o_type rogue_orb) = None /\
  vector_at (particleSystems rogue_game) (o_type rogue_orb) = None /\
  Orb_update (FO:=QF) (PF:=Sim_Platform) (1 # 10)%Q true rogue_orb
             rogue_game env0 = None /\
  catch (FO:=QF) (PF:=Sim_Platform) (playerBasket rogue_game) rogue_orb
        rogue_game env0 = None /\
  checkCollisions (FO:=QF) (PF:=Sim_Platform) rogue_game env0 = None /\
  Game_update (FO:=QF) (PF:=Sim_Platform) (1 # 10)%Q rogue_game env0 = None /\
  is_Some (Orb_update (FO:=QF) (PF:=Sim_Platform) (1 # 10)%Q false rogue_orb
                      rogue_game env0).
Proof.
  split; [unfold type_in_range, rogue_orb, NUM_ELEMENT_TYPES; simpl; lia|].
  split; [prove_pools_wf|].
  do 7 (split; [vm_compute; reflexivity|]).
  vm_compute. eauto.
Qed.

(** C9, as stated, fails.  A pool of three slots emits one particle, which
    activates slot 0, and is then advanced until that particle expires.
    The slot activated last is slot 0 and the index following it is 1,
    where the scan of the specification finds an inactive slot;
    [findUnusedParticle] returns 0 and the next emission of the code
    activates slot 0 again. *)
Lemma emit_scan_start_counterexample :
  exists ps1 e1 ps,
    run_pool_ops (FO:=QF) (PF:=Sim_Platform) [PEmit origin 1 FIRE]
                 (ParticleSystem_new 3) env0 = Some (ps1, e1) /\
    List.map p_active (particles ps1) = [true; false; false] /\
    lastUsedParticle ps1 = 0 /\
    ps = ParticleSystem_update (FO:=QF) 10%Q ps1 /\
    run_pool_ops (FO:=QF) (PF:=Sim_Platform) recycle_ops
                 (ParticleSystem_new 3) env0 = Some (ps, e1) /\
    List.map p_active (particles ps) = [false; false; false] /\
    lastUsedParticle ps = 0 /\
    spec_slot_choice ps = Some 1 /\
    fst <$> findUnusedParticle ps = Some 0 /\
    exists ps' gen',
      emit_one (FO:=QF) (PF:=Sim_Platform) origin FIRE ps 7
        = Some (ps', gen') /\
      List.map p_active (particles ps') = [true; false; false].
Proof.
  eexists _, _, _. split; [vm_compute; reflexivity|].
  split; [reflexivity|]. split; [reflexivity|]. split; [reflexivity|].
  split; [vm_compute; reflexivity|].
  split; [reflexivity|]. split; [reflexivity|]. split; [reflexivity|].
  split; [reflexivity|].
  eexists _, _. split; [vm_compute; reflexivity|]. reflexivity.
Qed.

End Concrete.

(** ** Further properties of the program *)

Section MoreProofs.

Context {F Rng Env : Type} {FO : FloatOps F} {PF : Platform F Rng Env}.

Local Abbreviation Particle := (@Particle F).
Local Abbreviation ParticleSystem := (@ParticleSystem F).
Local Abbreviation vec3 := (@vec3 F).
Local Abbreviation Basket := (@Basket F).
Local Abbreviation Orb := (@Orb F).
Local Abbreviation Game := (@Game F Rng).

(** X1.  The box test does not depend on the order of the two boxes,
    whatever the arithmetic and the comparisons of [float] are. *)
Theorem checkAABBCollision_symmetric (x1 y1 w1 h1 x2 y2 w2 h2 : F) :
  checkAABBCollision x1 y1 w1 h1 x2 y2 w2 h2 =
  checkAABBCollision x2 y2 w2 h2 x1 y1 w1 h1.
Proof.
  unfold checkAABBCollision.
  rewrite (andb_comm (f_le x2 (x1 + w1)%F)), (andb_comm (f_le y2 (y1 + h1)%F)).
  reflexivity.
Qed.

(** *** Passes that have nothing left to do *)

Lemma remove_offscreen_none (orbs : list Orb) (g : Game) :
  Forall (fun o => isOffScreen (- (f_of_int (screenHeight g) / f_lit 2))%F o
                   = false) orbs ->
  remove_offscreen orbs g = (orbs, g).
Proof.
  induction 1 as [|o orbs Ho _ IH]; simpl; [reflexivity|].
  rewrite Ho, IH. reflexivity.
Qed.

Lemma filter_negb_Forall {A} (f : A -> bool) (l : list A) :
  Forall (fun x => f x = false) (List.filter (fun x => negb (f x)) l).
Proof.
  induction l as [|x l IH]; simpl; [constructor|].
  destruct (f x) eqn:Hx; simpl; [assumption|].
  constructor; assumption.
Qed.

Lemma set_fallingOrbs_id (g : Game) : set_fallingOrbs (fallingOrbs g) g = g.
Proof. destruct g; reflexivity. Qed.

(** X2.  After the off-screen pass no live orb is off-screen, and running
    the pass again changes nothing: an orb is charged for at most once. *)
Theorem offscreen_pass_idempotent (g : Game) :
  Forall (fun o => isOffScreen (- (f_of_int (screenHeight g) / f_lit 2))%F o
                   = false)
         (fallingOrbs (offscreen_pass g)) /\
  offscreen_pass (offscreen_pass g) = offscreen_pass g.
Proof.
  destruct (offscreen_pass_spec g) as [c Hc]. simpl in Hc.
  assert (Forall (fun o => isOffScreen
                    (- (f_of_int (screenHeight g) / f_lit 2))%F o = false)
            (fallingOrbs (offscreen_pass g))) as Hnone.
  { rewrite Hc. simpl. apply filter_negb_Forall. }
  split; [exact Hnone|].
  unfold offscreen_pass at 1.
  rewrite remove_offscreen_none.
  - apply set_fallingOrbs_id.
  - assert (screenHeight (offscreen_pass g) = screenHeight g) as ->
      by (rewrite Hc; reflexivity).
    exact Hnone.
Qed.

Lemma collide_loop_none (basket : Basket) (orbs : list Orb) (g : Game) (e : Env) :
  Forall (fun o => collides basket o = false) orbs ->
  collide_loop basket orbs g e = Some (orbs, g, e).
Proof.
  induction 1 as [|o orbs Ho _ IH]; simpl; [reflexivity|].
  rewrite Ho. unfold bind. rewrite IH. reflexivity.
Qed.

(** X3.  After the collision pass no live orb overlaps the basket, and a
    second pass right after it changes neither the game nor the platform
    state: an orb is caught at most once. *)
Theorem checkCollisions_idempotent (g : Game) (e : Env) :
  game_wf g ->
  exists g' e',
    checkCollisions g e = Some (g', e') /\
    Forall (fun o => collides (playerBasket g') o = false) (fallingOrbs g') /\
    checkCollisions g' e' = Some (g', e').
Proof.
  intros Hwf.
  destruct (checkCollisions_run g e Hwf) as (pools' & c & e' & Hrun & _).
  match type of Hrun with _ = Some (?x, _) => set (g' := x) in * end.
  exists g', e'. split; [exact Hrun|].
  assert (Forall (fun o => collides (playerBasket g') o = false)
                 (fallingOrbs g')) as Hnone.
  { unfold g'. simpl. apply filter_negb_Forall. }
  split; [exact Hnone|].
  unfold checkCollisions, bind. rewrite (collide_loop_none _ _ _ _ Hnone).
  rewrite set_fallingOrbs_id. reflexivity.
Qed.

(** *** State and score on every run *)

Lemma threshold_state_running s :
  threshold_state s = RUNNING <-> -5 < s < 100.
Proof.
  unfold threshold_state.
  destruct (Z.geb_spec s 100); destruct (Z.leb_spec s (-5));
    split; intros; solve [discriminate | lia | reflexivity].
Qed.

Lemma run_op_state (op : @Op F) (g : Game) (e : Env) g' e' :
  game_wf g ->
  m_currentState g = threshold_state (score g) ->
  (m_currentState g <> RUNNING -> fallingOrbs g = []) ->
  run_op op g e = Some (g', e') ->
  m_currentState g' = threshold_state (score g') /\
  (m_currentState g' <> RUNNING -> fallingOrbs g' = []).
Proof.
  intros Hwf Hst Horbs Hrun. destruct op as [keys dt|dt|y|w h|]; simpl in Hrun.
  - injection Hrun as <- _. unfold processInput.
    destruct (m_currentState g) eqn:Hs.
    + assert (forall b, m_currentState (set_playerBasket b g) = RUNNING) as Hb
        by (intros; exact Hs).
      destruct (key_A keys), (key_D keys); simpl;
        rewrite ?Hs; (split; [exact Hst | intros Hne; congruence]).
    + destruct (key_R keys); simpl; [split; [reflexivity|reflexivity]|].
      rewrite Hs. split; [exact Hst|]. intros _. apply Horbs. congruence.
    + destruct (key_R keys); simpl; [split; [reflexivity|reflexivity]|].
      rewrite Hs. split; [exact Hst|]. intros _. apply Horbs. congruence.
  - destruct (decide (m_currentState g = RUNNING)) as [Hs|Hs].
    + destruct (spawn_defined dt g) eqn:Hd;
        [|rewrite (Game_update_undefined dt g e Hwf Hs Hd) in Hrun;
          discriminate].
      destruct (Game_update_running dt g e Hwf Hs Hd)
        as (g1 & e1 & g3 & e3 & g4 & e4 & _ & _ & _ & Hu & _ & Hs4 & _).
      rewrite Hu in Hrun. injection Hrun as <- _.
      destruct (check_thresholds_spec (update_pools dt g4) Hs4)
        as (Hsc & Hstate & _ & Hclear).
      rewrite Hsc. split; [exact Hstate|exact Hclear].
    + rewrite (Game_update_terminal dt g e Hs) in Hrun.
      injection Hrun as <- _. simpl. split; [exact Hst|exact Horbs].
  - injection Hrun as <- _. unfold scrollCallback.
    destruct (m_currentState g) eqn:Hs;
      repeat match goal with |- context [if ?c then _ else _] => destruct c end;
      simpl; rewrite ?Hs; (split; [exact Hst | intros Hne; try congruence]);
      apply Horbs; congruence.
  - injection Hrun as <- _. simpl. split; [exact Hst|exact Horbs].
  - injection Hrun as <- _. simpl. split; reflexivity.
Qed.

(** X4.  On every run of the game from its constructor the state is the one
    the thresholds assign to the current score: the game is running exactly
    when the score lies strictly between -5 and 100, won exactly when it is
    at least 100, lost exactly when it is at most -5; and a game that is not
    running holds no live orb.  Every run in which the window is never too
    narrow for [spawnOrb] is defined. *)
Theorem state_follows_score (w h : Z) (ops : list (@Op F)) (e : Env) :
  (forall g e',
     (do g0 <- Game_new w h; run_ops ops g0) e = Some (g, e') ->
     m_currentState g = threshold_state (score g) /\
     (m_currentState g = RUNNING <-> -5 < score g < 100) /\
     (m_currentState g = GAME_OVER_WIN <-> 100 <= score g) /\
     (m_currentState g = GAME_OVER_LOSE <-> score g <= -5) /\
     (m_currentState g <> RUNNING -> fallingOrbs g = [])) /\
  (xDist_ok w = true -> forallb resize_ok ops = true ->
   exists g e', (do g0 <- Game_new w h; run_ops ops g0) e = Some (g, e')).
Proof.
  destruct (Game_new_wf w h e) as (g0 & e0 & Hnew & Hwf0 & Hs0 & Hsc0 & Ho0).
  split.
  - intros g e' Hrun. unfold bind in Hrun. rewrite Hnew in Hrun.
    assert (forall ops (g : Game) e g' e',
              game_wf g ->
              m_currentState g = threshold_state (score g) ->
              (m_currentState g <> RUNNING -> fallingOrbs g = []) ->
              run_ops ops g e = Some (g', e') ->
              m_currentState g' = threshold_state (score g') /\
              (m_currentState g' <> RUNNING -> fallingOrbs g' = []))
      as Hruns.
    { clear. induction ops as [|op ops IH];
        intros g e g' e' Hwf Hst Horbs Hrun; simpl in Hrun.
      - injection Hrun as <- _. auto.
      - unfold bind in Hrun.
        destruct (run_op op g e) as [[g1 e1]|] eqn:H1; [|discriminate].
        destruct (run_op_state op g e g1 e1 Hwf Hst Horbs H1) as [Hst1 Horbs1].
        apply (IH g1 e1 g' e'); try assumption.
        eapply run_op_inv; eassumption. }
    destruct (Hruns ops g0 e0 g e' Hwf0) as (Hst & Horbs);
      [rewrite Hs0, Hsc0; reflexivity|intros Hne; congruence|exact Hrun|].
    split; [exact Hst|]. rewrite Hst. split; [apply threshold_state_running|].
    split; [|split; [|rewrite <- Hst; exact Horbs]];
      unfold threshold_state;
      destruct (Z.geb_spec (score g) 100); destruct (Z.leb_spec (score g) (-5));
      split; intros; solve [discriminate | lia | reflexivity].
  - intros Hw Hops.
    destruct (run_ops_wf ops g0 e0 Hwf0) as (g & e' & Hrun & _);
      [rewrite (Game_new_width w h e g0 e0 Hnew); exact Hw|exact Hops|].
    exists g, e'. unfold bind. rewrite Hnew. exact Hrun.
Qed.

(** *** What a frame leaves alone *)

(** X5.  A frame that is defined never moves or retypes the basket and
    never changes the window size, the spawn interval, the fall speed or
    the bottom margin, whether the game is running or not.  A frame is
    defined unless the game is running and its spawn step is undefined: an
    orb is due in a window too narrow for [spawnOrb]; then the whole frame
    is undefined. *)
Theorem Game_update_keeps_basket_and_settings (dt : F) (g : Game) (e : Env) :
  game_wf g ->
  (m_currentState g = RUNNING -> spawn_defined dt g = false ->
   Game_update dt g e = None) /\
  ((m_currentState g = RUNNING -> spawn_defined dt g = true) ->
   exists g' e',
     Game_update dt g e = Some (g', e') /\
     playerBasket g' = playerBasket g /\
     screenWidth g' = screenWidth g /\
     screenHeight g' = screenHeight g /\
     orbSpawnInterval g' = orbSpawnInterval g /\
     orbFallSpeed g' = orbFallSpeed g /\
     basketBottomMargin g' = basketBottomMargin g) /\
  (forall g' e',
     Game_update dt g e = Some (g', e') ->
     playerBasket g' = playerBasket g /\
     screenWidth g' = screenWidth g /\
     screenHeight g' = screenHeight g /\
     orbSpawnInterval g' = orbSpawnInterval g /\
     orbFallSpeed g' = orbFallSpeed g /\
     basketBottomMargin g' = basketBottomMargin g).
Proof.
  intros Hwf. split; [|split].
  - intros Hs Hd. apply Game_update_undefined; assumption.
  - intros Hd.
    destruct (Game_update_cases dt g e Hwf)
      as [(Hs & Hn & _) | (_ & g' & e' & Hu & _ & Hkept)].
    + rewrite (Hd Hs) in Hn. discriminate.
    + exists g', e'. split; assumption.
  - intros g' e' Hu.
    destruct (Game_update_cases dt g e Hwf)
      as [(_ & _ & Hn) | (_ & g2 & e2 & Hu2 & _ & Hkept)].
    + rewrite Hn in Hu. discriminate.
    + rewrite Hu2 in Hu. injection Hu as <- _. exact Hkept.
Qed.

(** *** Spawning *)

Lemma Orb_new_fields (x y w h : F) t (speed : F) (e : Env) :
  exists o, Orb_new x y w h t speed e = Some (o, snd (random_device e)) /\
            o_position o = Vec3 x y (f_lit 0) /\
            o_scale o = Vec3 w h (f_lit 1) /\
            o_type o = t /\ fallSpeed o = speed /\
            o_width o = w /\ o_height o = h /\ m_initialX o = x /\
            m_particleEmitTimer o = f_lit 0 /\
            m_particleEmitInterval o = f_lit 0.05.
Proof.
  unfold Orb_new, with_fresh_gen, bind, lift, of_option, ret.
  destruct (random_device e) as [gen e1]. simpl.
  destruct (uniform_real _ _ gen) as [amp gen1].
  destruct (uniform_real _ _ gen1) as [freq gen2].
  destruct (uniform_real _ _ gen2) as [phase gen3]. simpl.
  eexists. repeat split; reflexivity.
Qed.

(** X6.  The spawn step adds the time step to the spawn timer.  When the
    timer has reached the interval and the window is wide enough for the
    distribution of [spawnOrb], it sets the timer to 0 and appends exactly
    one orb behind the live ones: 60 by 60, centred half its height above
    the top of the window, of an element drawn from the four, falling at
    the game's fall speed, with a zero emission timer, and it touches
    nothing else but the game's generator.  When the timer has reached the
    interval and the window is too narrow, lower bound above upper bound,
    the step is undefined.  When the timer has not reached the interval the
    step changes only the timer and draws nothing from the platform. *)
Theorem spawn_step_spawns_one (dt : F) (g : Game) (e : Env) :
  ((orbSpawnTimer g + dt >=? orbSpawnInterval g)%F = true ->
   xDist_ok (screenWidth g) = false ->
   spawn_step dt g e = None) /\
  ((orbSpawnTimer g + dt >=? orbSpawnInterval g)%F = true ->
   xDist_ok (screenWidth g) = true ->
   exists g' e' o,
     spawn_step dt g e = Some (g', e') /\
     score g' = score g /\ particleSystems g' = particleSystems g /\
     playerBasket g' = playerBasket g /\
     m_currentState g' = m_currentState g /\
     orbSpawnTimer g' = f_lit 0 /\
     fallingOrbs g' = fallingOrbs g ++ [o] /\
     type_in_range (o_type o) /\
     fallSpeed o = orbFallSpeed g /\
     o_width o = f_lit 60 /\ o_height o = f_lit 60 /\
     o_scale o = Vec3 (f_lit 60) (f_lit 60) (f_lit 1) /\
     vx (o_position o) = m_initialX o /\
     vy (o_position o) =
       (f_of_int (screenHeight g) / f_lit 2 + f_lit 60 / f_lit 2)%F /\
     m_particleEmitTimer o = f_lit 0) /\
  ((orbSpawnTimer g + dt >=? orbSpawnInterval g)%F = false ->
   spawn_step dt g e = Some (set_orbSpawnTimer (orbSpawnTimer g + dt)%F g, e)).
Proof.
  split; [|split].
  - intros Hdue Hok. apply spawn_step_undefined. unfold spawn_defined.
    rewrite Hdue, Hok. reflexivity.
  - intros Hdue Hok. unfold spawn_step. simpl. rewrite Hdue.
    unfold spawnOrb. simpl. rewrite Hok.
    pose proof (uniform_int_range 0 (NUM_ELEMENT_TYPES - 1) (rng g)
                  ltac:(unfold NUM_ELEMENT_TYPES; lia)) as Hr.
    destruct (uniform_int 0 (NUM_ELEMENT_TYPES - 1) (rng g)) as [t r1].
    destruct (uniform_real _ _ r1) as [x r2]. simpl in Hr. cbv beta iota.
    destruct (Orb_new_fields x
                (f_of_int (screenHeight g) / f_lit 2 + f_lit 60 / f_lit 2)%F
                (f_lit 60) (f_lit 60) t (orbFallSpeed g) e)
      as (o & Ho & Hpos & Hsc & Hty & Hfs & Hw & Hh & Hix & Htm & _).
    unfold bind. simpl. rewrite Ho. eexists _, _, o. split; [reflexivity|].
    simpl. do 6 (split; [reflexivity|]).
    rewrite Hty, Hfs, Hw, Hh, Hsc, Hix, Htm, Hpos.
    simpl. repeat split; try reflexivity; unfold NUM_ELEMENT_TYPES in *; lia.
  - intros Hdue. unfold spawn_step. simpl. rewrite Hdue. reflexivity.
Qed.

(** *** Input, scrolling and resizing *)

(** X7.  The input step of a running game changes nothing but the position
    of the basket, and of that not the height; with neither key down it
    changes nothing.  In a terminal state it changes nothing unless the
    restart key is down. *)
Theorem processInput_only_moves_basket (keys : Keys) (dt : F) (g : Game) :
  (m_currentState g = RUNNING ->
   exists pos,
     processInput keys dt g =
       set_playerBasket (b_setPosition pos (playerBasket g)) g /\
     vy pos = vy (b_position (playerBasket g)) /\
     (key_A keys = false -> key_D keys = false ->
      processInput keys dt g = g)) /\
  (m_currentState g <> RUNNING -> key_R keys = false ->
   processInput keys dt g = g).
Proof.
  split.
  - intros Hs. unfold processInput. rewrite Hs.
    destruct (key_A keys), (key_D keys); simpl;
      repeat match goal with |- context [if ?c then _ else _] => destruct c end;
      try (eexists; split; [reflexivity|]; split; [reflexivity|];
           intros; discriminate).
    exists (b_position (playerBasket g)).
    split; [destruct g as [? ? ? []]; reflexivity|]. split; reflexivity.
  - intros Hs HR. unfold processInput. rewrite HR.
    destruct (m_currentState g); [congruence|reflexivity|reflexivity].
Qed.

(** X8.  Of two resizes in a row only the second counts, and a resize never
    moves the basket sideways.  For a basket 60 high, as the constructor
    makes it, resizing and resetting commute. *)
Theorem setScreenDimensions_last_wins (w1 h1 w2 h2 : Z) (g : Game) :
  setScreenDimensions w2 h2 (setScreenDimensions w1 h1 g)
    = setScreenDimensions w2 h2 g /\
  vx (b_position (playerBasket (setScreenDimensions w1 h1 g)))
    = vx (b_position (playerBasket g)) /\
  (vy (b_scale (playerBasket g)) = f_lit 60 ->
   setScreenDimensions w1 h1 (resetGame g)
     = resetGame (setScreenDimensions w1 h1 g)).
Proof.
  split; [reflexivity|]. split; [reflexivity|].
  intros H60. unfold setScreenDimensions, resetGame, basket_home_y. simpl.
  rewrite H60. reflexivity.
Qed.

(** X9.  While the game runs, scrolling up and then down, or down and then
    up, leaves the game as it was, for a basket whose type names an
    element; a scroll of offset zero, or a scroll of any offset in a
    terminal state, does nothing. *)
Theorem scrollCallback_round_trip (yup ydown : F) (g : Game) :
  (yup >? f_lit 0)%F = true ->
  (ydown >? f_lit 0)%F = false -> (ydown <? f_lit 0)%F = true ->
  (m_currentState g = RUNNING ->
   type_in_range (currentType (playerBasket g)) ->
   scrollCallback ydown (scrollCallback yup g) = g /\
   scrollCallback yup (scrollCallback ydown g) = g) /\
  (forall zero, (zero >? f_lit 0)%F = false -> (zero <? f_lit 0)%F = false ->
                scrollCallback zero g = g) /\
  (m_currentState g <> RUNNING -> forall y, scrollCallback y g = g).
Proof.
  intros Hup Hdown1 Hdown2. split; [|split].
  - intros Hs Ht.
    assert (forall g2 : Game, m_currentState g2 = RUNNING ->
              scrollCallback yup g2 =
                set_playerBasket (changeType 1 (playerBasket g2)) g2) as Hu.
    { intros g2 H2. unfold scrollCallback. rewrite H2, Hup. reflexivity. }
    assert (forall g2 : Game, m_currentState g2 = RUNNING ->
              scrollCallback ydown g2 =
                set_playerBasket (changeType (-1) (playerBasket g2)) g2) as Hd.
    { intros g2 H2. unfold scrollCallback. rewrite H2, Hdown1, Hdown2.
      reflexivity. }
    rewrite (Hu g Hs), (Hd g Hs), Hd, Hu by exact Hs.
    destruct g as [sw sh sc [pos scl t sp bw bh] orbs pools tm iv fs mg r c st].
    unfold type_in_range, NUM_ELEMENT_TYPES in Ht. simpl in *.
    assert (t = 0 \/ t = 1 \/ t = 2 \/ t = 3) as [-> | [-> | [-> | ->]]]
      by lia; split; reflexivity.
  - intros zero Hz1 Hz2. unfold scrollCallback. rewrite Hz1, Hz2.
    destruct (m_currentState g); reflexivity.
  - intros Hs y. unfold scrollCallback.
    destruct (m_currentState g); [congruence|reflexivity|reflexivity].
Qed.

(** *** What an emission writes *)

Lemma init_particle_fresh (position : vec3) type (p : Particle) (gen : Rng) :
  p_active p = false ->
  exists p' gen', init_particle position type p gen = Some (p', gen') /\
                  emitted_at position type p p'.
Proof.
  intros Hp. unfold init_particle, lifeDist, sizeDist, velDist, bind, lift, ret,
    emitted_at.
  destruct (uniform_real (f_lit 0.5) (f_lit 1.5) gen) as [duration g1].
  destruct (uniform_real (f_lit 15) (f_lit 25) g1) as [size g2].
  destruct (Z.eqb_spec type EARTH) as [He|He];
    [|destruct (Z.eqb_spec type WATER) as [Hw|Hw];
      [|destruct (Z.eqb_spec type FIRE) as [Hf|Hf];
        [|destruct (Z.eqb_spec type AIR) as [Ha|Ha]]]];
    repeat match goal with
      | |- context [uniform_real ?a ?b ?g] =>
          destruct (uniform_real a b g) as [? ?]
      end;
    eexists _, _; (split; [reflexivity|]); simpl;
    (split; [assumption|]); do 3 (split; [reflexivity|]);
    intros Hout; try (split; reflexivity);
    exfalso; apply Hout; subst type;
    unfold EARTH, WATER, FIRE, AIR, NUM_ELEMENT_TYPES; lia.
Qed.

Lemma emit_one_fresh (position : vec3) type (ps : ParticleSystem) (gen : Rng) :
  ps_wf ps ->
  match code_slot_choice ps with
  | Some i =>
      0 <= i < maxParticles ps /\
      exists p p' gen',
        particles ps !! Z.to_nat i = Some p /\
        emit_one position type ps gen =
          Some (set_particles (<[Z.to_nat i := p']> (particles ps))
                              (set_lastUsedParticle i ps), gen') /\
        emitted_at position type p p'
  | None => emit_one position type ps gen = Some (ps, gen)
  end.
Proof.
  intros Hwf. pose proof (emit_one_spec position type ps gen Hwf) as Hspec.
  destruct (code_slot_choice ps) as [i|] eqn:Hc; [|exact Hspec].
  destruct Hspec as (Hi & Hina & _). split; [exact Hi|].
  unfold emit_one, bind, of_option.
  rewrite (findUnusedParticle_cyclic ps Hwf), Hc.
  destruct Hwf as (Hmax & Hlen & Hlast).
  assert (i <> to_unsigned (-1)) as Hne.
  { unfold to_unsigned, INT_MAX in *.
    change ((-1) mod 2 ^ 32) with 4294967295. lia. }
  apply Z.eqb_neq in Hne. rewrite Hne. simpl.
  destruct (vector_at_in_range (particles ps) i) as [p Hp]; [lia|].
  rewrite Hp. unfold is_active in Hina. rewrite Hp in Hina.
  destruct (init_particle_fresh position type p gen Hina)
    as (p' & gen' & Hinit & Hfresh).
  rewrite Hinit. exists p, p', gen'.
  apply vector_at_Some in Hp as [_ Hp]. auto.
Qed.

Lemma emit_loop_fresh (position : vec3) type n (ps : ParticleSystem) (gen : Rng) :
  ps_wf ps ->
  exists ps' gen',
    emit_loop position type n ps gen = Some (ps', gen') /\
    forall (k : nat) old new,
      particles ps !! k = Some old -> particles ps' !! k = Some new ->
      new = old \/ emitted_at position type old new.
Proof.
  revert ps gen. induction n as [|n IH]; intros ps gen Hwf; simpl.
  - exists ps, gen. split; [reflexivity|]. intros k old new Ho Hn.
    left. congruence.
  - pose proof (emit_one_fresh position type ps gen Hwf) as H1.
    unfold bind at 1.
    destruct (code_slot_choice ps) as [i|].
    + destruct H1 as (Hi & p & p' & gen1 & Hp & -> & Hfresh).
      set (ps1 := set_particles _ _).
      destruct (IH ps1 gen1 (ps_wf_activate ps i p' Hwf Hi))
        as (ps' & gen' & Hrun & Hkeep).
      exists ps', gen'. split; [exact Hrun|]. intros k old new Ho Hn.
      destruct (decide (k = Z.to_nat i)) as [->|Hk].
      * assert (old = p) as -> by congruence.
        assert (particles ps1 !! Z.to_nat i = Some p') as Hmid.
        { unfold ps1. simpl. apply list_lookup_insert_eq.
          apply lookup_lt_Some in Hp. exact Hp. }
        destruct (Hkeep _ _ _ Hmid Hn) as [->|(Hoff & _)].
        -- right. exact Hfresh.
        -- destruct Hfresh as (_ & Hon & _). congruence.
      * apply (Hkeep k); [|exact Hn]. unfold ps1. simpl.
        rewrite list_lookup_insert_ne by congruence. exact Ho.
    + rewrite H1. apply IH. exact Hwf.
Qed.

(** X10.  An emission leaves every slot either exactly as it was or, if the
    slot was inactive, as an active particle at the emission point with no
    life spent.  For a type that names no element the new particle is white
    and keeps the velocity the slot held.  An emission of no particle, or
    of a negative number of them, changes nothing in the pool. *)
Theorem emit_writes_fresh_particles
    (position : vec3) (count : Z) (type : ElementType) (ps : ParticleSystem)
    (e : Env) :
  ps_wf ps ->
  exists ps',
    emit position count type ps e = Some (ps', snd (random_device e)) /\
    length (particles ps') = length (particles ps) /\
    (forall (k : nat) old new,
       particles ps !! k = Some old -> particles ps' !! k = Some new ->
       new = old \/ emitted_at position type old new) /\
    (count <= 0 -> ps' = ps).
Proof.
  intros Hwf. unfold emit, with_fresh_gen, bind, lift, of_option.
  destruct (random_device e) as [gen e1]. simpl.
  destruct (emit_loop_fresh position type (Z.to_nat count) ps gen Hwf)
    as (ps' & gen' & Hrun & Hkeep).
  destruct (emit_loop_spec position type (Z.to_nat count) ps gen Hwf)
    as (ps2 & gen2 & Hrun2 & Hwf2 & Hm & _).
  rewrite Hrun in Hrun2. injection Hrun2 as <- <-.
  rewrite Hrun. exists ps'. split; [reflexivity|]. split.
  - destruct Hwf as (_ & -> & _). destruct Hwf2 as (_ & -> & _).
    rewrite Hm. reflexivity.
  - split; [exact Hkeep|]. intros Hc.
    replace (Z.to_nat count) with 0%nat in Hrun by lia.
    simpl in Hrun. unfold ret in Hrun. congruence.
Qed.

(** *** An orb without a game *)

(** X11.  [Orb::update] with a null game pointer is defined for every orb,
    whatever its type, and touches neither the game nor the generators.
    With a game the orb it leaves is the same: the emission feeds nothing
    back into the orb, and the game differs at most in its pools.  In both
    cases the emission timer is back at 0 when it had reached the
    interval and has grown by the time step otherwise. *)
Theorem Orb_update_without_game (dt : F) (o : Orb) (g : Game) (e : Env) :
  exists o',
    Orb_update dt false o g e = Some (o', g, snd (glfwGetTime e)) /\
    m_particleEmitTimer o' =
      (if (m_particleEmitTimer o + dt >=? m_particleEmitInterval o)%F
       then f_lit 0 else (m_particleEmitTimer o + dt)%F) /\
    o_type o' = o_type o /\
    forall o1 g1 e1,
      Orb_update dt true o g e = Some (o1, g1, e1) ->
      o1 = o' /\ exists pools, g1 = set_particleSystems pools g.
Proof.
  unfold Orb_update, with_fresh_gen, bind, lift, of_option, ret.
  destruct (glfwGetTime e) as [now e1]. simpl.
  destruct (m_particleEmitTimer o + dt >=? m_particleEmitInterval o)%F.
  - eexists. split; [reflexivity|].
    split; [reflexivity|]. split; [reflexivity|].
    intros o1 g1 e2 Hrun.
    destruct (random_device e1) as [gen e4]. simpl in Hrun.
    destruct (uniform_real _ _ gen) as [dx gen1].
    destruct (uniform_real _ _ gen1) as [dy gen2]. simpl in Hrun.
    destruct (getParticleSystem g (o_type o)) as [ps|]; [|discriminate].
    match type of Hrun with
    | match (match ?m with _ => _ end) with _ => _ end = _ =>
        destruct m as [[ps' e5]|]
    end; [|discriminate].
    injection Hrun as <- <- _. split; [reflexivity|].
    eexists. reflexivity.
  - eexists. split; [reflexivity|].
    split; [reflexivity|]. split; [reflexivity|].
    intros o1 g1 e2 [= <- <- _]. split; [reflexivity|].
    exists (particleSystems g). symmetry. apply set_particleSystems_id.
Qed.

Lemma Orb_update_orb_after (dt : F) (gi : bool) (o : Orb) (g : Game) (e : Env)
    o1 g1 e1 :
  Orb_update dt gi o g e = Some (o1, g1, e1) ->
  o1 = orb_after dt (fst (glfwGetTime e)) o.
Proof.
  unfold Orb_update, orb_after, bind, lift, ret.
  destruct (glfwGetTime e) as [now e2]. simpl.
  destruct (m_particleEmitTimer o + dt >=? m_particleEmitInterval o)%F.
  - match goal with
    | |- match ?m with _ => _ end = _ -> _ => destruct m as [[g2 e3]|]
    end; [|discriminate].
    intros [= <- _ _]. reflexivity.
  - intros [= <- _ _]. reflexivity.
Qed.

Lemma Orb_update_null (dt : F) (o : Orb) (g : Game) (e : Env) :
  Orb_update dt false o g e =
    Some (orb_after dt (fst (glfwGetTime e)) o, g, snd (glfwGetTime e)).
Proof.
  unfold Orb_update, orb_after, bind, lift, ret.
  destruct (glfwGetTime e) as [now e2]. simpl.
  destruct (m_particleEmitTimer o + dt >=? m_particleEmitInterval o)%F;
    reflexivity.
Qed.

(** *** Particles over several steps *)

Lemma Particle_update_inactive (dt : F) (p : Particle) :
  p_active p = false -> Particle_update dt p = p.
Proof. intros Hp. unfold Particle_update. rewrite Hp. reflexivity. Qed.

Lemma Particle_update_many_inactive (dts : list F) (p : Particle) :
  p_active p = false -> Particle_update_many dts p = p.
Proof.
  revert p. induction dts as [|dt dts IH]; intros p Hp; simpl; [reflexivity|].
  rewrite (Particle_update_inactive dt p Hp). apply IH, Hp.
Qed.

Lemma ParticleSystem_update_many_particles (dts : list F) (ps : ParticleSystem) :
  particles (ParticleSystem_update_many dts ps)
    = Particle_update_many dts <$> particles ps.
Proof.
  revert ps. induction dts as [|dt dts IH]; intros ps; simpl.
  - symmetry. apply list_fmap_id.
  - unfold ParticleSystem_update_many in *. simpl. rewrite IH. simpl.
    rewrite <- list_fmap_compose. reflexivity.
Qed.

(** *** The score display *)



End MoreProofs.

(** ** Further properties over exact arithmetic *)

Section MoreExact.

Context {Rng Env : Type} (sin : Q -> Q) {PF : Platform Q Rng Env}.

Local Instance exact_ops : FloatOps Q := Q_FloatOps sin.

Lemma Qle_bool_false (x y : Q) : Qle_bool x y = false <-> (y < x)%Q.
Proof.
  split.
  - intros H. apply Qnot_le_lt. intros Hle. apply Qle_bool_iff in Hle.
    congruence.
  - intros H. destruct (Qle_bool x y) eqn:E; [|reflexivity].
    apply Qle_bool_iff in E. apply Qle_not_lt in E. contradiction.
Qed.

Lemma checkAABBCollision_iff (x1 y1 w1 h1 x2 y2 w2 h2 : Q) :
  checkAABBCollision x1 y1 w1 h1 x2 y2 w2 h2 = true <->
  (x2 <= x1 + w1 /\ x1 <= x2 + w2 /\ y2 <= y1 + h1 /\ y1 <= y2 + h2)%Q.
Proof.
  unfold checkAABBCollision. cbn [f_le f_add exact_ops Q_FloatOps].
  rewrite !andb_true_iff, !Qle_bool_iff. tauto.
Qed.

(** X13.  Over exact arithmetic the box test holds exactly when the two
    closed boxes meet on both axes.  So a box of non-negative size meets
    itself, boxes that only touch along an edge count as colliding, and
    boxes apart on one axis do not collide. *)
Theorem checkAABBCollision_exact (x1 y1 w1 h1 x2 y2 w2 h2 : Q) :
  (checkAABBCollision x1 y1 w1 h1 x2 y2 w2 h2 = true <->
   (x2 <= x1 + w1 /\ x1 <= x2 + w2 /\ y2 <= y1 + h1 /\ y1 <= y2 + h2)%Q) /\
  ((0 <= w1)%Q -> (0 <= h1)%Q ->
   checkAABBCollision x1 y1 w1 h1 x1 y1 w1 h1 = true) /\
  ((x1 + w1 == x2)%Q -> (0 <= w1)%Q -> (0 <= w2)%Q ->
   (y2 <= y1 + h1)%Q -> (y1 <= y2 + h2)%Q ->
   checkAABBCollision x1 y1 w1 h1 x2 y2 w2 h2 = true) /\
  ((x1 + w1 < x2 \/ x2 + w2 < x1 \/ y1 + h1 < y2 \/ y2 + h2 < y1)%Q ->
   checkAABBCollision x1 y1 w1 h1 x2 y2 w2 h2 = false).
Proof.
  split; [apply checkAABBCollision_iff|]. split; [|split].
  - intros Hw Hh. apply checkAABBCollision_iff. repeat split; lra.
  - intros Ht Hw1 Hw2 Hy1 Hy2. apply checkAABBCollision_iff.
    repeat split; lra.
  - intros Hsep. destruct (checkAABBCollision x1 y1 w1 h1 x2 y2 w2 h2) eqn:E;
      [|reflexivity].
    apply checkAABBCollision_iff in E. lra.
Qed.

Ltac exact_arith :=
  cbn -[Qplus Qminus Qmult Qdiv Qopp Qle_bool inject_Z Qabs] in *.

Ltac halves := unfold Qdiv in *; change (/ 2)%Q with (1 # 2)%Q in *.

Ltac split_comparisons :=
  repeat match goal with
    | |- context [Qle_bool ?a ?b] =>
        let E := fresh "E" in
        destruct (Qle_bool a b) eqn:E;
        [apply Qle_bool_iff in E | apply Qle_bool_false in E]; exact_arith
    end.

(** X14.  Over exact arithmetic the input step keeps the basket inside the
    window: if the basket is no wider than the window, lies within it, and
    the time step and the speed are not negative, then after the step,
    whichever keys are down, its left and right edges are still within the
    window. *)
Theorem processInput_keeps_basket_in_window
    (keys : Keys) (dt : Q) (g : @Game Q Rng) :
  let half := (inject_Z (screenWidth g) / 2)%Q in
  m_currentState g = RUNNING ->
  (0 <= dt)%Q -> (0 <= b_speed (playerBasket g))%Q ->
  (vx (b_scale (playerBasket g)) == b_width (playerBasket g))%Q ->
  (b_width (playerBasket g) <= inject_Z (screenWidth g))%Q ->
  (- half <= b_getLeft (playerBasket g))%Q ->
  (b_getRight (playerBasket g) <= half)%Q ->
  (- half <= b_getLeft (playerBasket (processInput keys dt g)))%Q /\
  (b_getRight (playerBasket (processInput keys dt g)) <= half)%Q.
Proof.
  intros half Hs Hdt Hsp Hsc Hw Hl Hr. subst half.
  unfold processInput. rewrite Hs.
  destruct g as [sw sh sc [pos scl t sp bw bh] orbs pools tm iv fs mg r c st].
  destruct pos as [px py pz]. destruct scl as [sx sy sz].
  unfold moveLeft, moveRight, b_getLeft, b_getRight, b_setPosition, set_vx in *.
  exact_arith.
  assert (0 <= sp * dt)%Q as Hmove by (apply Qmult_le_0_compat; assumption).
  revert Hw Hl Hr. generalize (inject_Z sw) (sp * dt)%Q Hmove.
  intros W step Hstep Hw Hl Hr.
  destruct (key_A keys), (key_D keys); exact_arith; split_comparisons;
    split; halves; lra.
Qed.

(** *** The life of a particle *)

Lemma Qsum_nonneg (dts : list Q) :
  Forall (fun dt => (0 <= dt)%Q) dts -> (0 <= Qsum dts)%Q.
Proof.
  induction 1 as [|dt dts Hdt _ IH]; simpl; [lra|].
  apply Qle_trans with (0 + 0)%Q; [lra|]. apply Qplus_le_compat; assumption.
Qed.

Lemma Particle_update_step (dt : Q) (p : @Particle Q) :
  p_active p = true ->
  ((p_life p + dt <= p_duration p)%Q ->
   p_active (Particle_update dt p) = true /\
   p_life (Particle_update dt p) = (p_life p + dt)%Q /\
   p_duration (Particle_update dt p) = p_duration p) /\
  ((p_duration p < p_life p + dt)%Q ->
   p_active (Particle_update dt p) = false).
Proof.
  intros Hp. unfold Particle_update. rewrite Hp. exact_arith.
  destruct (Qle_bool (p_life p + dt) (p_duration p)) eqn:E;
    [apply Qle_bool_iff in E | apply Qle_bool_false in E]; simpl;
    split; intros H; try lra; repeat split; reflexivity.
Qed.

Lemma Particle_update_many_active (dts : list Q) (p : @Particle Q) :
  Forall (fun dt => (0 <= dt)%Q) dts -> p_active p = true ->
  (p_life p <= p_duration p)%Q ->
  (p_active (Particle_update_many dts p) = true <->
   (p_life p + Qsum dts <= p_duration p)%Q) /\
  (p_active (Particle_update_many dts p) = true ->
   (p_life (Particle_update_many dts p) == p_life p + Qsum dts)%Q).
Proof.
  intros Hdts. revert p.
  induction Hdts as [|dt dts Hdt Hdts IH]; intros p Hp Hinv.
  - simpl. rewrite Hp. split; [|intros _; lra].
    split; [intros _; lra|reflexivity].
  - pose proof (Qsum_nonneg dts Hdts) as Hsum.
    destruct (Particle_update_step dt p Hp) as [Hstay Hgo].
    change (Particle_update_many (dt :: dts) p)
      with (Particle_update_many dts (Particle_update dt p)).
    simpl Qsum.
    destruct (Qlt_le_dec (p_duration p) (p_life p + dt)) as [Hlt|Hle].
    + rewrite (Particle_update_many_inactive dts _ (Hgo Hlt)), (Hgo Hlt).
      split; [split; [discriminate|intros; lra]|discriminate].
    + destruct (Hstay Hle) as (Ha & Hl & Hd).
      destruct (IH _ Ha) as [Hiff Hlife]; [rewrite Hl, Hd; exact Hle|].
      rewrite Hl, Hd in Hiff. rewrite Hl in Hlife. split.
      * rewrite Hiff. split; intros; lra.
      * intros H. rewrite (Hlife H). ring.
Qed.

(** X15.  Over exact arithmetic every active particle of a pool that has
    just been advanced has a life no longer than its duration.  For such a
    pool and time steps that are not negative, a particle stays active
    exactly as long as its life so far plus the time added does not exceed
    its duration.  So a pool that is only advanced, for longer than every
    active particle has left, ends with no active slot. *)
Theorem particles_expire (dts : list Q) (ps : @ParticleSystem Q) :
  Forall (fun dt => (0 <= dt)%Q) dts ->
  Forall (fun p => p_active p = true -> (p_life p <= p_duration p)%Q)
         (particles ps) ->
  (forall (dt : Q) (ps0 : @ParticleSystem Q),
     Forall (fun p => p_active p = true -> (p_life p <= p_duration p)%Q)
            (particles (ParticleSystem_update dt ps0))) /\
  (forall (k : nat) p,
     particles ps !! k = Some p -> p_active p = true ->
     (is_active (particles (ParticleSystem_update_many dts ps)) (Z.of_nat k)
        = true <->
      (p_life p + Qsum dts <= p_duration p)%Q)) /\
  (Forall (fun p => p_active p = true ->
                    (p_duration p < p_life p + Qsum dts)%Q) (particles ps) ->
   active_count (ParticleSystem_update_many dts ps) = 0%nat).
Proof.
  intros Hdts Hinv. split; [|split].
  - intros dt ps0. unfold ParticleSystem_update. simpl.
    apply Forall_fmap, Forall_forall. intros p _. simpl.
    unfold Particle_update. destruct (p_active p) eqn:Hp; [|congruence].
    exact_arith.
    destruct (Qle_bool (p_life p + dt) (p_duration p)) eqn:E;
      [apply Qle_bool_iff in E | ]; simpl; [intros _; exact E|discriminate].
  - intros k p Hk Hp.
    rewrite ParticleSystem_update_many_particles.
    unfold is_active, vector_at.
    destruct (Z.ltb_spec (Z.of_nat k) 0); [lia|].
    rewrite Nat2Z.id, list_lookup_fmap, Hk. simpl.
    apply Particle_update_many_active; [exact Hdts|exact Hp|].
    exact (Forall_lookup_1 _ _ _ _ Hinv Hk Hp).
  - intros Hlong. unfold active_count.
    rewrite ParticleSystem_update_many_particles.
    induction (particles ps) as [|p l IHl]; [reflexivity|].
    inversion Hinv as [|? ? Hp0 Hl0]; subst.
    inversion Hlong as [|? ? Hp1 Hl1]; subst.
    change (Particle_update_many dts <$> p :: l)
      with (Particle_update_many dts p :: (Particle_update_many dts <$> l)).
    simpl List.filter.
    destruct (p_active (Particle_update_many dts p)) eqn:Ha.
    + exfalso. destruct (p_active p) eqn:Hp.
      * destruct (Particle_update_many_active dts p Hdts Hp (Hp0 eq_refl))
          as [Hiff _].
        apply Hiff in Ha. specialize (Hp1 eq_refl). lra.
      * rewrite (Particle_update_many_inactive dts p Hp) in Ha. congruence.
    + apply IHl; assumption.
Qed.

(** *** The drift of an orb *)

(** X16.  Over exact arithmetic and for a sine that stays within -1 and 1,
    an orb of non-negative amplitude is, after every update, within its
    amplitude of the horizontal position it was created at, whatever the
    clock reads and wherever the orb was before; the update changes
    neither that position nor the amplitude, so the bound holds for good. *)
Theorem orb_drift_bounded (dt : Q) (o : @Orb Q) (g : @Game Q Rng) (e : Env) :
  (forall t, (-1 <= sin t <= 1)%Q) ->
  (0 <= m_zigzagAmplitude o)%Q ->
  exists o',
    Orb_update dt false o g e = Some (o', g, snd (glfwGetTime e)) /\
    (forall gi o1 g1 e1,
       Orb_update dt gi o g e = Some (o1, g1, e1) -> o1 = o') /\
    (m_initialX o - m_zigzagAmplitude o <= vx (o_position o'))%Q /\
    (vx (o_position o') <= m_initialX o + m_zigzagAmplitude o)%Q /\
    m_initialX o' = m_initialX o /\
    m_zigzagAmplitude o' = m_zigzagAmplitude o.
Proof.
  intros Hsin Hamp.
  exists (orb_after dt (fst (glfwGetTime e)) o).
  split; [apply Orb_update_null|]. split.
  { intros gi o1 g1 e1 H. exact (Orb_update_orb_after _ _ _ _ _ _ _ _ H). }
  unfold orb_after. exact_arith.
  match goal with |- context [sin ?t] => pose proof (Hsin t) as [Hlo Hhi];
    generalize dependent (sin t) end.
  intros s Hlo Hhi.
  assert (s * m_zigzagAmplitude o <= 1 * m_zigzagAmplitude o)%Q as H1
    by (apply Qmult_le_compat_r; assumption).
  assert (-1 * m_zigzagAmplitude o <= s * m_zigzagAmplitude o)%Q as H2
    by (apply Qmult_le_compat_r; assumption).
  repeat split; try reflexivity; lra.
Qed.

(** *** The camera *)

(** X17.  Over exact arithmetic each move of the camera is undone by the
    opposite move with the same speed: back after front, right after
    left, down after up, whatever [glm::normalize] and [glm::cross]
    compute.  A move never turns the camera. *)
Theorem camera_moves_cancel
    (glm_normalize : @vec3 Q -> @vec3 Q)
    (glm_cross : @vec3 Q -> @vec3 Q -> @vec3 Q) (speed : Q) (c : @Camera Q) :
  vec3_Qeq (cam_position (keyboardMoveBack speed (keyboardMoveFront speed c)))
           (cam_position c) /\
  vec3_Qeq (cam_position
              (keyboardMoveRight glm_normalize glm_cross speed
                 (keyboardMoveLeft glm_normalize glm_cross speed c)))
           (cam_position c) /\
  vec3_Qeq (cam_position (keyboardMoveDown speed (keyboardMoveUp speed c)))
           (cam_position c) /\
  (forall move,
     In move [keyboardMoveFront speed; keyboardMoveBack speed;
              keyboardMoveLeft glm_normalize glm_cross speed;
              keyboardMoveRight glm_normalize glm_cross speed;
              keyboardMoveUp speed; keyboardMoveDown speed] ->
     viewDirection (move c) = viewDirection c /\ up (move c) = up c).
Proof.
  unfold vec3_Qeq, keyboardMoveBack, keyboardMoveFront, keyboardMoveRight,
    keyboardMoveLeft, keyboardMoveDown, keyboardMoveUp, cam_setPosition,
    vec3_add, vec3_sub, vec3_scale.
  exact_arith. repeat split; try ring.
  all: repeat match goal with H : _ \/ _ |- _ => destruct H as [<-|H] end;
    try contradiction; reflexivity.
Qed.

(** *** The layout of the score *)

Lemma abut_proper (l : list (@Sprite Q)) (a a' b b' : Q) :
  (a == a')%Q -> (b == b')%Q -> abut a l b -> abut a' l b'.
Proof.
  revert a a'. induction l as [|s l IH]; intros a a' Ha Hb; simpl.
  - intros H. rewrite <- Ha, <- Hb. exact H.
  - intros [H1 H2]. split; [rewrite H1; exact Ha|].
    apply (IH _ _ ltac:(reflexivity) Hb H2).
Qed.

Lemma draw_digits_abut (color : @vec4 Q) (startY : Q) (d : Decimal.uint)
    (x : Q) :
  let chars := String.list_ascii_of_string
                 (DecimalString.NilEmpty.string_of_uint d) in
  abut x (draw_digits color startY chars x)
       (x + inject_Z (Z.of_nat (length chars)) * 20)%Q.
Proof.
  revert x.
  induction d as [|d IH|d IH|d IH|d IH|d IH|d IH|d IH|d IH|d IH|d IH];
    intros x.
  1: { simpl. ring. }
  all: cbn -[Qplus Qminus Qmult Qdiv Qopp inject_Z Z.of_nat];
       (split; [unfold m_digitWidth; exact_arith; field|]);
       eapply abut_proper; [| |apply (IH (x + 20)%Q)];
       unfold m_digitWidth; exact_arith;
       [field|];
       rewrite Nat2Z.inj_succ, <- Z.add_1_r, inject_Z_plus; ring.
Qed.

(** X18.  Over exact arithmetic the quads of the score display stand side by
    side without gap or overlap and end 20 units left of the right edge of
    the window: the score is right-aligned, its digits 20 wide and the
    minus sign 14. *)
Theorem draw_score_right_aligned (g : @Game Q Rng) :
  let digits := Z.of_nat (length (to_string (Z.abs (score g)))) in
  let right := (inject_Z (screenWidth g) / 2 - 20)%Q in
  abut (right - (inject_Z digits * 20
                 + if (score g <? 0)%Z then 14 else 0))%Q
       (draw_score g) right.
Proof.
  intros digits right. unfold draw_score, to_string in *.
  destruct (score g <? 0)%Z.
  - cbn [abut s_position s_scale vx].
    unfold m_digitWidth, m_scoreDisplayMarginX. exact_arith. split.
    + subst digits right. field.
    + eapply abut_proper; [| |apply draw_digits_abut].
      * subst digits right. field.
      * subst digits right. field.
  - eapply abut_proper; [| |apply draw_digits_abut];
      unfold m_digitWidth, m_scoreDisplayMarginX; exact_arith;
      subst digits right; field.
Qed.

End MoreExact.

(** ** The further properties on concrete inputs *)

Section MoreConcrete.

Local Existing Instance QF.
Local Existing Instance Sim_Platform.

Ltac prove_type_in_range :=
  unfold type_in_range, NUM_ELEMENT_TYPES; simpl;
  unfold EARTH, WATER, FIRE, AIR; lia.
Ltac prove_ps_wf := unfold ps_wf, INT_MAX; simpl; lia.
Ltac prove_pools_wf :=
  split; simpl;
  [reflexivity | repeat (constructor; [prove_ps_wf|]); constructor].
Ltac prove_game_wf :=
  split; [prove_pools_wf
         | split; simpl;
           [repeat (constructor; [prove_type_in_range|]); constructor
           | prove_type_in_range]].

Lemma checkCollisions_idempotent_witness :
  game_wf sample_game /\
  exists g' e',
    checkCollisions (FO:=QF) (PF:=Sim_Platform) sample_game env0
      = Some (g', e') /\
    checkCollisions (FO:=QF) (PF:=Sim_Platform) g' e' = Some (g', e').
Proof.
  assert (game_wf sample_game) as Hwf by prove_game_wf.
  split; [exact Hwf|].
  destruct (checkCollisions_idempotent (FO:=QF) (PF:=Sim_Platform)
              sample_game env0 Hwf) as (g' & e' & H1 & _ & H2).
  exists g', e'. split; [exact H1|exact H2].
Defined.

Lemma state_follows_score_witness :
  xDist_ok (FO:=QF) 1024 = true /\
  forallb (resize_ok (FO:=QF)) miss_ops = true /\
  exists g e',
    (do g0 <- Game_new (FO:=QF) (PF:=Sim_Platform) 1024 768;
     run_ops miss_ops g0) env0 = Some (g, e') /\
    score g = -6 /\ m_currentState g <> RUNNING /\ fallingOrbs g = [].
Proof.
  split; [reflexivity|]. split; [reflexivity|].
  destruct (state_follows_score (FO:=QF) (PF:=Sim_Platform)
              1024 768 miss_ops env0) as [Hinv Hdefined].
  destruct (Hdefined eq_refl eq_refl) as (g & e' & Hrun).
  destruct (Hinv g e' Hrun) as (Hst & _ & _ & _ & Hempty).
  assert (option_map (fun r => score (fst r))
            ((do g0 <- Game_new (FO:=QF) (PF:=Sim_Platform) 1024 768;
              run_ops miss_ops g0) env0) = Some (-6)) as Hscore
    by (vm_compute; reflexivity).
  rewrite Hrun in Hscore. simpl in Hscore. injection Hscore as Hscore.
  assert (m_currentState g <> RUNNING) as Hs
    by (rewrite Hst, Hscore; discriminate).
  exists g, e'. split; [exact Hrun|]. split; [exact Hscore|].
  split; [exact Hs|exact (Hempty Hs)].
Defined.

Lemma Game_update_keeps_basket_and_settings_witness :
  game_wf sample_game /\ game_wf narrow_game /\
  m_currentState narrow_game = RUNNING /\
  spawn_defined (FO:=QF) 2%Q narrow_game = false /\
  spawn_defined (FO:=QF) 2%Q sample_game = true /\
  Game_update (FO:=QF) (PF:=Sim_Platform) 2%Q narrow_game env0 = None /\
  exists g' e',
    Game_update (FO:=QF) (PF:=Sim_Platform) 2%Q sample_game env0
      = Some (g', e') /\
    playerBasket g' = sample_basket /\ screenWidth g' = 1024.
Proof.
  assert (game_wf sample_game) as Hwf by prove_game_wf.
  assert (game_wf narrow_game) as Hwfn by prove_game_wf.
  split; [exact Hwf|]. split; [exact Hwfn|]. split; [reflexivity|].
  split; [reflexivity|]. split; [reflexivity|]. split.
  - exact (proj1 (Game_update_keeps_basket_and_settings
                    (FO:=QF) (PF:=Sim_Platform) 2%Q narrow_game env0 Hwfn)
                 eq_refl eq_refl).
  - destruct (proj1 (proj2 (Game_update_keeps_basket_and_settings
                              (FO:=QF) (PF:=Sim_Platform)
                              2%Q sample_game env0 Hwf))
                    (fun _ => eq_refl))
      as (g' & e' & H1 & H2 & H3 & _).
    exists g', e'. split; [exact H1|]. split; [exact H2|exact H3].
Defined.

Lemma spawn_step_spawns_one_witness :
  (orbSpawnTimer sample_game + 2%Q >=? orbSpawnInterval sample_game)%F = true /\
  xDist_ok (FO:=QF) (screenWidth sample_game) = true /\
  xDist_ok (FO:=QF) (screenWidth narrow_game) = false /\
  (orbSpawnTimer sample_game + 1%Q >=? orbSpawnInterval sample_game)%F = false /\
  spawn_step (FO:=QF) (PF:=Sim_Platform) 2%Q narrow_game env0 = None /\
  spawn_step (FO:=QF) (PF:=Sim_Platform) 1%Q sample_game env0
    = Some (set_orbSpawnTimer (0 + 1)%Q sample_game, env0) /\
  exists g' e' o,
    spawn_step (FO:=QF) (PF:=Sim_Platform) 2%Q sample_game env0
      = Some (g', e') /\
    fallingOrbs g' = fallingOrbs sample_game ++ [o] /\
    type_in_range (o_type o) /\ orbSpawnTimer g' = 0%Q.
Proof.
  destruct (spawn_step_spawns_one (FO:=QF) (PF:=Sim_Platform)
              2%Q narrow_game env0) as (Hundefined & _ & _).
  destruct (spawn_step_spawns_one (FO:=QF) (PF:=Sim_Platform)
              1%Q sample_game env0) as (_ & _ & Hwait).
  destruct (spawn_step_spawns_one (FO:=QF) (PF:=Sim_Platform)
              2%Q sample_game env0) as (_ & Hspawn & _).
  split; [reflexivity|]. split; [reflexivity|]. split; [reflexivity|].
  split; [reflexivity|]. split; [exact (Hundefined eq_refl eq_refl)|].
  split; [exact (Hwait eq_refl)|].
  destruct (Hspawn eq_refl eq_refl)
    as (g' & e' & o & Hrun & _ & _ & _ & _ & Htimer & Horbs & Hty & _).
  exists g', e', o. split; [exact Hrun|]. split; [exact Horbs|].
  split; [exact Hty|exact Htimer].
Defined.

Lemma processInput_only_moves_basket_witness :
  m_currentState sample_game = RUNNING /\
  m_currentState lost_game <> RUNNING /\
  key_R both_keys = false /\
  processInput (FO:=QF) both_keys (1 # 100)%Q lost_game = lost_game /\
  exists pos,
    processInput (FO:=QF) both_keys (1 # 100)%Q sample_game =
      set_playerBasket (b_setPosition pos sample_basket) sample_game /\
    vy pos = (-324)%Q.
Proof.
  assert (m_currentState lost_game <> RUNNING) as Hs by discriminate.
  split; [reflexivity|]. split; [exact Hs|]. split; [reflexivity|].
  destruct (processInput_only_moves_basket (FO:=QF) (Rng:=Z)
              both_keys (1 # 100)%Q lost_game) as [_ Hterm].
  split; [exact (Hterm Hs eq_refl)|].
  destruct (processInput_only_moves_basket (FO:=QF) (Rng:=Z)
              both_keys (1 # 100)%Q sample_game) as [Hrun _].
  destruct (Hrun eq_refl) as (pos & Hp & Hy & _).
  exists pos. split; [exact Hp|exact Hy].
Defined.

Lemma setScreenDimensions_last_wins_witness :
  vy (b_scale (playerBasket sample_game)) = f_lit (FloatOps:=QF) 60 /\
  setScreenDimensions (FO:=QF) 800 600 (resetGame sample_game)
    = resetGame (setScreenDimensions 800 600 sample_game).
Proof.
  split; [reflexivity|].
  exact (proj2 (proj2 (setScreenDimensions_last_wins (FO:=QF) (Rng:=Z)
                         800 600 800 600 sample_game)) eq_refl).
Defined.

Lemma scrollCallback_round_trip_witness :
  (1%Q >? f_lit (FloatOps:=QF) 0)%F = true /\
  ((-1)%Q >? f_lit (FloatOps:=QF) 0)%F = false /\
  ((-1)%Q <? f_lit (FloatOps:=QF) 0)%F = true /\
  m_currentState sample_game = RUNNING /\
  type_in_range (currentType (playerBasket sample_game)) /\
  m_currentState lost_game <> RUNNING /\
  scrollCallback (FO:=QF) (-1)%Q (scrollCallback 1%Q sample_game)
    = sample_game /\
  scrollCallback (FO:=QF) (-1)%Q lost_game = lost_game.
Proof.
  assert (type_in_range (currentType (playerBasket sample_game))) as Ht
    by prove_type_in_range.
  assert (m_currentState lost_game <> RUNNING) as Hs by discriminate.
  split; [reflexivity|]. split; [reflexivity|]. split; [reflexivity|].
  split; [reflexivity|]. split; [exact Ht|]. split; [exact Hs|].
  destruct (scrollCallback_round_trip (FO:=QF) (Rng:=Z) 1%Q (-1)%Q sample_game
              eq_refl eq_refl eq_refl) as [Hrt _].
  destruct (scrollCallback_round_trip (FO:=QF) (Rng:=Z) 1%Q (-1)%Q lost_game
              eq_refl eq_refl eq_refl) as (_ & _ & Hterm).
  split; [exact (proj1 (Hrt eq_refl Ht))|exact (Hterm Hs (-1)%Q)].
Defined.

Lemma emit_writes_fresh_particles_witness :
  ps_wf spark_pool /\ 0 <= 0 /\
  emit (FO:=QF) (PF:=Sim_Platform) origin 0 FIRE spark_pool env0
    = Some (spark_pool, snd (random_device env0)) /\
  exists ps',
    emit (FO:=QF) (PF:=Sim_Platform) origin 5 7 spark_pool env0
      = Some (ps', snd (random_device env0)) /\
    length (particles ps') = 2%nat.
Proof.
  assert (ps_wf spark_pool) as Hwf by prove_ps_wf.
  split; [exact Hwf|]. split; [lia|]. split.
  - destruct (emit_writes_fresh_particles (FO:=QF) (PF:=Sim_Platform)
                origin 0 FIRE spark_pool env0 Hwf) as (ps' & H1 & _ & _ & H0).
    rewrite <- (H0 ltac:(lia)) at 2. exact H1.
  - destruct (emit_writes_fresh_particles (FO:=QF) (PF:=Sim_Platform)
                origin 5 7 spark_pool env0 Hwf) as (ps' & H1 & Hlen & _).
    exists ps'. split; [exact H1|exact Hlen].
Defined.

Lemma Orb_update_without_game_witness :
  exists o',
    Orb_update (FO:=QF) (PF:=Sim_Platform) (1 # 10)%Q false
      (sample_orb 0%Q 0%Q (-1)) sample_game env0
      = Some (o', sample_game, snd (glfwGetTime env0)) /\
    m_particleEmitTimer o' = 0%Q /\
    forall o1 g1 e1,
      Orb_update (FO:=QF) (PF:=Sim_Platform) (1 # 10)%Q true
        (sample_orb 10%Q (-300)%Q FIRE) sample_game env0 = Some (o1, g1, e1) ->
      exists o2,
        Orb_update (FO:=QF) (PF:=Sim_Platform) (1 # 10)%Q false
          (sample_orb 10%Q (-300)%Q FIRE) sample_game env0
          = Some (o2, sample_game, snd (glfwGetTime env0)) /\ o1 = o2.
Proof.
  destruct (Orb_update_without_game (FO:=QF) (PF:=Sim_Platform) (1 # 10)%Q
              (sample_orb 0%Q 0%Q (-1)) sample_game env0)
    as (o' & H1 & Ht & _).
  exists o'. split; [exact H1|]. split; [rewrite Ht; reflexivity|].
  intros o1 g1 e1 Hrun.
  destruct (Orb_update_without_game (FO:=QF) (PF:=Sim_Platform) (1 # 10)%Q
              (sample_orb 10%Q (-300)%Q FIRE) sample_game env0)
    as (o2 & H2 & _ & _ & Hsame).
  exists o2. split; [exact H2|]. exact (proj1 (Hsame o1 g1 e1 Hrun)).
Defined.

Lemma checkAABBCollision_exact_witness :
  (0 <= 60)%Q /\ (10 + 60 == 70)%Q /\ (10 + 60 < 71)%Q /\
  checkAABBCollision (FO:=QF) 10%Q 0%Q 60%Q 60%Q 10%Q 0%Q 60%Q 60%Q = true /\
  checkAABBCollision (FO:=QF) 10%Q 0%Q 60%Q 60%Q 70%Q 0%Q 60%Q 60%Q = true /\
  checkAABBCollision (FO:=QF) 10%Q 0%Q 60%Q 60%Q 71%Q 0%Q 60%Q 60%Q = false.
Proof.
  assert (0 <= 60)%Q as H60 by lra.
  assert (10 + 60 == 70)%Q as Htouch by reflexivity.
  assert (10 + 60 < 71)%Q as Hapart by reflexivity.
  split; [exact H60|]. split; [exact Htouch|]. split; [exact Hapart|].
  split; [|split].
  - exact (proj1 (proj2 (checkAABBCollision_exact sin_approx
                           10%Q 0%Q 60%Q 60%Q 10%Q 0%Q 60%Q 60%Q)) H60 H60).
  - refine (proj1 (proj2 (proj2 (checkAABBCollision_exact sin_approx
                           10%Q 0%Q 60%Q 60%Q 70%Q 0%Q 60%Q 60%Q)))
                  Htouch H60 H60 _ _); lra.
  - exact (proj2 (proj2 (proj2 (checkAABBCollision_exact sin_approx
                           10%Q 0%Q 60%Q 60%Q 71%Q 0%Q 60%Q 60%Q)))
                 (or_introl Hapart)).
Defined.

Lemma processInput_keeps_basket_in_window_witness :
  m_currentState sample_game = RUNNING /\ (0 <= 5)%Q /\
  (- (inject_Z 1024 / 2) <=
     b_getLeft (FO:=QF)
       (playerBasket (processInput (FO:=QF) both_keys 5%Q sample_game)))%Q /\
  (b_getRight (FO:=QF)
     (playerBasket (processInput (FO:=QF) both_keys 5%Q sample_game))
   <= inject_Z 1024 / 2)%Q.
Proof.
  split; [reflexivity|]. split; [lra|].
  apply (processInput_keeps_basket_in_window sin_approx (Rng:=Z)
           both_keys 5%Q sample_game); simpl;
    solve [reflexivity | lra | discriminate].
Defined.

Lemma particles_expire_witness :
  Forall (fun dt => (0 <= dt)%Q) [(1 # 2)%Q; 1%Q] /\
  Forall (fun p => p_active p = true -> (p_life p <= p_duration p)%Q)
         (particles spark_pool) /\
  active_count
    (ParticleSystem_update_many (FO:=QF) [(1 # 2)%Q; 1%Q] spark_pool) = 0%nat.
Proof.
  assert (Forall (fun dt => (0 <= dt)%Q) [(1 # 2)%Q; 1%Q]) as Hdts
    by (repeat constructor; lra).
  assert (Forall (fun p => p_active p = true -> (p_life p <= p_duration p)%Q)
                 (particles spark_pool)) as Hinv
    by (repeat constructor; simpl; intros; solve [lra | discriminate]).
  split; [exact Hdts|]. split; [exact Hinv|].
  apply (particles_expire sin_approx [(1 # 2)%Q; 1%Q] spark_pool Hdts Hinv).
  repeat constructor; simpl; intros; solve [reflexivity | discriminate].
Defined.

Lemma sin_clamped_bounds (t : Q) : (-1 <= sin_clamped t <= 1)%Q.
Proof.
  unfold sin_clamped. rewrite Qred_correct. split.
  - apply Q.le_max_l.
  - apply Q.max_lub; [lra|apply Q.le_min_l].
Qed.

Lemma orb_drift_bounded_witness :
  (forall t, (-1 <= sin_clamped t <= 1)%Q) /\
  (0 <= m_zigzagAmplitude (sample_orb 10%Q (-300)%Q FIRE))%Q /\
  exists o',
    Orb_update (FO:=Q_FloatOps sin_clamped) (PF:=Sim_Platform) (1 # 60)%Q false
      (sample_orb 10%Q (-300)%Q FIRE) sample_game env0
      = Some (o', sample_game, snd (glfwGetTime env0)) /\
    (10 - 30 <= vx (o_position o') <= 10 + 30)%Q.
Proof.
  assert (0 <= m_zigzagAmplitude (sample_orb 10%Q (-300)%Q FIRE))%Q as Hamp
    by (simpl; lra).
  split; [exact sin_clamped_bounds|]. split; [exact Hamp|].
  destruct (orb_drift_bounded sin_clamped (PF:=Sim_Platform) (1 # 60)%Q
              (sample_orb 10%Q (-300)%Q FIRE) sample_game env0
              sin_clamped_bounds Hamp) as (o' & H1 & _ & Hlo & Hhi & _).
  exists o'. split; [exact H1|]. split; [exact Hlo|exact Hhi].
Defined.

Lemma camera_moves_cancel_witness :
  In (keyboardMoveUp (FO:=QF) 3%Q)
     [keyboardMoveFront 3%Q; keyboardMoveBack 3%Q;
      keyboardMoveLeft (fun v => v) cross_product 3%Q;
      keyboardMoveRight (fun v => v) cross_product 3%Q;
      keyboardMoveUp 3%Q; keyboardMoveDown 3%Q] /\
  viewDirection (keyboardMoveUp (FO:=QF) 3%Q sample_camera)
    = viewDirection sample_camera /\
  vec3_Qeq
    (cam_position
       (keyboardMoveRight (FO:=QF) (fun v => v) cross_product 3%Q
          (keyboardMoveLeft (fun v => v) cross_product 3%Q sample_camera)))
    (cam_position sample_camera).
Proof.
  assert (In (keyboardMoveUp (FO:=QF) 3%Q)
     [keyboardMoveFront 3%Q; keyboardMoveBack 3%Q;
      keyboardMoveLeft (fun v => v) cross_product 3%Q;
      keyboardMoveRight (fun v => v) cross_product 3%Q;
      keyboardMoveUp 3%Q; keyboardMoveDown 3%Q]) as Hin
    by (simpl; tauto).
  destruct (camera_moves_cancel sin_approx (fun v => v) cross_product 3%Q
              sample_camera) as (_ & Hlr & _ & Hturn).
  split; [exact Hin|]. split; [exact (proj1 (Hturn _ Hin))|exact Hlr].
Defined.

End MoreConcrete.
